(** * A verification development for the-gap's code-understanding core

    Shallow embedding of the TypeScript sources:
    - [JsMap]: the insertion-ordered JS [Map] used throughout;
    - [TsParser]: [parseFileComplete] (src/unnamed/part_001) over a small
      TypeScript AST;
    - [Graph]: [GraphBuilder.buildCompleteGraph] and its helpers
      (src/src/parser/fileIndexer.ts);
    - [Vectors]: [cosineSim] and [InMemoryVectorStore] (src/src/rag/ragEngine.ts);
    - [Hybrid]: [HybridRetriever] (src/unnamed/part_002);
    - [Cache]: [SemanticCache] and [EmbeddingCache] (src/src/utils/cache.ts);
    - [Embed]: [RandomEmbedder] (src/unnamed/part_002).

    JS numbers are modelled as exact numbers: integers as [Z], retrieval
    scores as [Q], vector components as [R]. Source positions (spans, line
    numbers) and console diagnostics are left out; no claim reads them. *)

From Stdlib Require Import String Ascii List Bool ZArith QArith Lia Permutation.
From Stdlib Require Import Reals Lra Sorting.Sorted.
From Stdlib Require Floats.
Import ListNotations.

Open Scope string_scope.
Set Warnings "-register-all".
Set Warnings "-inexact-float".

(** ** JS [Map] with string keys: an association list in insertion order.
    [set] on a present key replaces the value in place (keeps its position),
    on a new key appends; [delete] removes the entry. *)
Module JsMap.
Local Open Scope list_scope.

Definition t (V : Type) := list (string * V).

Section Ops.
Context {V : Type}.

Fixpoint get (k : string) (m : t V) : option V :=
  match m with
  | [] => None
  | (k', v) :: r => if String.eqb k k' then Some v else get k r
  end.

Definition has (k : string) (m : t V) : bool :=
  match get k m with Some _ => true | None => false end.

Fixpoint set (k : string) (v : V) (m : t V) : t V :=
  match m with
  | [] => [(k, v)]
  | (k', v') :: r => if String.eqb k k' then (k', v) :: r else (k', v') :: set k v r
  end.

Fixpoint delete (k : string) (m : t V) : t V :=
  match m with
  | [] => []
  | (k', v') :: r => if String.eqb k k' then r else (k', v') :: delete k r
  end.

Definition keys (m : t V) : list string := map fst m.
Definition values (m : t V) : list V := map snd m.
Definition size (m : t V) : nat := length m.

Lemma has_cons k k' v m : has k ((k', v) :: m) = String.eqb k k' || has k m.
Proof. unfold has; simpl. destruct (String.eqb k k'); reflexivity. Qed.

Lemma has_In k (m : t V) : has k m = true <-> In k (keys m).
Proof.
  induction m as [|[k' v] m IH]; [simpl; unfold has; simpl; split; [discriminate|intros []]|].
  rewrite has_cons. simpl. rewrite orb_true_iff, IH, String.eqb_eq.
  split; intros [H|H]; auto.
Qed.

Lemma keys_set k v (m : t V) : keys (set k v m) = if has k m then keys m else keys m ++ [k].
Proof.
  induction m as [|[k' v'] m IH]; [reflexivity|].
  unfold keys in *. simpl. rewrite has_cons. destruct (String.eqb k k') eqn:E; simpl.
  - reflexivity.
  - rewrite IH. destruct (has k m); reflexivity.
Qed.

Lemma has_set k k' v (m : t V) : has k (set k' v m) = String.eqb k k' || has k m.
Proof.
  destruct (has k (set k' v m)) eqn:E1; symmetry.
  - apply has_In in E1. rewrite keys_set in E1. apply orb_true_iff.
    destruct (has k' m) eqn:E2.
    + right. now apply has_In.
    + apply in_app_or in E1 as [E1|[<-|[]]]; [right; now apply has_In | left; apply String.eqb_refl].
  - apply orb_false_iff. split.
    + destruct (String.eqb k k') eqn:E; auto. apply String.eqb_eq in E. subst k'.
      assert (H : In k (keys (set k v m))).
      { rewrite keys_set. destruct (has k m) eqn:E3; [now apply has_In|].
        apply in_or_app. simpl; auto. }
      apply has_In in H. congruence.
    + destruct (has k m) eqn:E; auto.
      assert (H : In k (keys (set k' v m))).
      { rewrite keys_set. apply has_In in E. destruct (has k' m); auto. apply in_or_app; auto. }
      apply has_In in H. congruence.
Qed.

Lemma get_set k k' v (m : t V) : get k (set k' v m) = if String.eqb k k' then Some v else get k m.
Proof.
  induction m as [|[k0 v0] m IH]; simpl.
  - reflexivity.
  - destruct (String.eqb_spec k' k0) as [->|Hne]; simpl.
    + destruct (String.eqb k k0); reflexivity.
    + rewrite IH. destruct (String.eqb_spec k k0) as [->|]; [|reflexivity].
      destruct (String.eqb_spec k0 k') as [->|]; [congruence|reflexivity].
Qed.

Lemma NoDup_keys_set k v (m : t V) : NoDup (keys m) -> NoDup (keys (set k v m)).
Proof.
  intros H. rewrite keys_set. destruct (has k m) eqn:E; auto.
  apply NoDup_app; auto using NoDup_cons, NoDup_nil.
  - intros x Hx [<-|[]]. apply has_In in Hx. congruence.
Qed.

Lemma In_set k v k' v' (m : t V) : In (k', v') (set k v m) -> (k' = k /\ v' = v) \/ In (k', v') m.
Proof.
  induction m as [|[k0 v0] m IH]; simpl.
  - intros [[= <- <-]|[]]. auto.
  - destruct (String.eqb k k0) eqn:E.
    + apply String.eqb_eq in E. subst k0. intros [[= <- <-]|H]; auto.
    + intros [H|H]; auto. destruct (IH H); auto.
Qed.

Lemma Forall_set (P : string -> V -> Prop) k v (m : t V) :
  P k v -> Forall (fun e => P (fst e) (snd e)) m -> Forall (fun e => P (fst e) (snd e)) (set k v m).
Proof.
  intros Hk Hm. apply Forall_forall. intros [k' v'] Hin.
  destruct (In_set _ _ _ _ _ Hin) as [[-> ->]|H]; auto.
  rewrite Forall_forall in Hm. exact (Hm _ H).
Qed.

End Ops.
End JsMap.

(** ** String helpers for the JS string methods the sources use. *)
Module Str.

(** [s.includes(c)] for a one-character [c]. *)
Fixpoint has_char (c : ascii) (s : string) : bool :=
  match s with
  | EmptyString => false
  | String x r => Ascii.eqb x c || has_char c r
  end.

(** [s.split(c)] for a one-character separator. *)
Fixpoint split (c : ascii) (s : string) : list string :=
  match s with
  | EmptyString => [""]
  | String x r =>
      if Ascii.eqb x c then "" :: split c r
      else match split c r with
           | [] => [String x ""]
           | w :: ws => String x w :: ws
           end
  end.

(** [parts.join(sep)]. *)
Fixpoint join (sep : string) (l : list string) : string :=
  match l with
  | [] => ""
  | [w] => w
  | w :: ws => w ++ sep ++ join sep ws
  end.

(** [s.trim().length === 0] on ASCII text. *)
Fixpoint is_blank (s : string) : bool :=
  match s with
  | EmptyString => true
  | String x r =>
      (Ascii.eqb x " " || Ascii.eqb x (ascii_of_nat 9) || Ascii.eqb x (ascii_of_nat 10) ||
       Ascii.eqb x (ascii_of_nat 11) || Ascii.eqb x (ascii_of_nat 12) ||
       Ascii.eqb x (ascii_of_nat 13)) && is_blank r
  end.

(** [filePath.split('/').pop() ?? filePath]. *)
Definition last_segment (s : string) : string :=
  last (split "/" s) s.

(** No [':'] in the string: true of every TypeScript identifier. *)
Fixpoint colon_free (s : string) : bool :=
  match s with
  | EmptyString => true
  | String x r => negb (Ascii.eqb x ":") && colon_free r
  end.

Lemma colon_free_app a b : colon_free (a ++ b) = colon_free a && colon_free b.
Proof. induction a as [|x a IH]; simpl; [reflexivity|]. rewrite IH. apply andb_assoc. Qed.

Lemma split_nonempty c s : split c s <> [].
Proof.
  destruct s as [|x r]; simpl; [discriminate|].
  destruct (Ascii.eqb x c); [discriminate|]. destruct (split c r); discriminate.
Qed.

Lemma join_split c s : join (String c "") (split c s) = s.
Proof.
  induction s as [|x r IH]; [reflexivity|]. simpl.
  pose proof (split_nonempty c r) as Hne.
  destruct (split c r) as [|w ws] eqn:Es; [congruence|].
  destruct (Ascii.eqb x c) eqn:E.
  - apply Ascii.eqb_eq in E. subst x.
    change ("" ++ String c "" ++ join (String c "") (w :: ws) = String c r). now rewrite IH.
  - destruct ws as [|w' ws].
    + change (join (String c "") [w] = r) in IH. simpl in IH |- *. now rewrite IH.
    + change (w ++ String c "" ++ join (String c "") (w' :: ws) = r) in IH.
      change (String x (w ++ String c "" ++ join (String c "") (w' :: ws)) = String x r).
      now rewrite IH.
Qed.

Lemma has_char_split c s : has_char c s = true -> exists w w' ws, split c s = w :: w' :: ws.
Proof.
  induction s as [|x r IH]; simpl; [discriminate|].
  intros H. destruct (Ascii.eqb x c) eqn:E.
  - pose proof (split_nonempty c r). destruct (split c r) as [|w ws]; [congruence|]. eauto.
  - simpl in H. destruct (IH H) as (w & w' & ws & Hs). rewrite Hs. eauto.
Qed.

(** [parts[0] + '.' + parts.slice(1).join('.')] gives the string back when
    it contains a dot. *)
Lemma split_head_join c s :
  has_char c s = true -> hd "" (split c s) ++ String c "" ++ join (String c "") (tl (split c s)) = s.
Proof.
  intros H. destruct (has_char_split c s H) as (w & w' & ws & Hs).
  transitivity (join (String c "") (split c s)); [|apply join_split].
  rewrite Hs. reflexivity.
Qed.

(** A separator ':' between a colon-free prefix and the rest is unique. *)
Lemma colon_prefix_inj a x a' x' :
  colon_free a = true -> colon_free a' = true ->
  a ++ ":" ++ x = a' ++ ":" ++ x' -> a = a' /\ x = x'.
Proof.
  revert a'. induction a as [|c a IH]; intros a' Ha Ha' H.
  - destruct a' as [|c' a']; simpl in H.
    + injection H as H. auto.
    + injection H as Hc _. subst c'. simpl in Ha'. discriminate Ha'.
  - destruct a' as [|c' a']; simpl in H.
    + injection H as Hc _. subst c. simpl in Ha. discriminate Ha.
    + injection H as -> H. simpl in Ha, Ha'. apply andb_true_iff in Ha as [_ Ha].
      apply andb_true_iff in Ha' as [_ Ha']. destruct (IH a' Ha Ha' H) as [-> ->]. auto.
Qed.

(** The same for a colon-free suffix. *)
Lemma colon_suffix_inj x b x' b' :
  colon_free b = true -> colon_free b' = true ->
  x ++ ":" ++ b = x' ++ ":" ++ b' -> x = x' /\ b = b'.
Proof.
  revert x'. induction x as [|c x IH]; intros x' Hb Hb' H.
  - destruct x' as [|c' x']; simpl in H.
    + injection H as H. auto.
    + injection H as Hc H. exfalso.
      assert (Hc' : colon_free b = true) by exact Hb.
      rewrite H, colon_free_app in Hc'. simpl in Hc'. now rewrite andb_false_r in Hc'.
  - destruct x' as [|c' x']; simpl in H.
    + injection H as Hc H. exfalso.
      assert (Hc' : colon_free b' = true) by exact Hb'.
      rewrite <- H, colon_free_app in Hc'. simpl in Hc'. now rewrite andb_false_r in Hc'.
    + injection H as -> H. destruct (IH x' Hb Hb' H) as [-> ->]. auto.
Qed.

End Str.

(** ** [parseFileComplete] (tsParser.ts, in src/unnamed/part_001). *)
Module TsParser.

Inductive SymbolKind := SKfunction | SKclass | SKinterface | SKtype | SKvariable.

Definition kind_str (k : SymbolKind) : string :=
  match k with
  | SKfunction => "function" | SKclass => "class" | SKinterface => "interface"
  | SKtype => "type" | SKvariable => "variable"
  end.

(** [start]/[end] spans are omitted. *)
Record ParsedSymbol := mkSymbol {
  sym_name : string; sym_kind : SymbolKind; sym_filePath : string; sym_exported : bool }.

Record ImportInfo := mkImport {
  importedName : string; modulePath : string; imp_filePath : string; isDefault : bool }.

(** [line] is omitted. *)
Record FunctionCall := mkCall {
  callerFunction : option string; calleeName : string; call_filePath : string }.

Record ParseResult := mkParseResult {
  pr_symbols : list ParsedSymbol; pr_imports : list ImportInfo; pr_calls : list FunctionCall }.

Inductive NamedBindings :=
| NamedImports (elements : list string)
| NamespaceImport (name : string).

Record ImportClause := mkClause {
  clause_name : option string; namedBindings : option NamedBindings }.

(** The part of the TypeScript AST the extractor inspects. A name is
    [Some text] when it is an identifier. [forEachChild] visits the listed
    children in order; identifier children and the [VariableDeclarationList]
    wrapper (whose visit has no effect) are not listed. *)
Inductive TsNode :=
| FunctionDeclaration (name : option string) (exported : bool) (children : list TsNode)
| ClassDeclaration (name : option string) (exported : bool) (members : list TsNode)
| MethodDeclaration (name : option string) (children : list TsNode)
| InterfaceDeclaration (name : string) (exported : bool) (children : list TsNode)
| TypeAliasDeclaration (name : string) (exported : bool) (children : list TsNode)
| VariableStatement (exported : bool) (declarations : list TsNode)
| VariableDeclaration (name : option string) (initializer : option TsNode)
| ArrowFunction (children : list TsNode)
| FunctionExpression (name : option string) (children : list TsNode)
| ImportDeclaration (moduleSpecifier : option string) (importClause : option ImportClause)
| CallExpression (expression : TsNode) (arguments : list TsNode)
| PropertyAccessExpression (expression : TsNode) (name : string)
| Identifier (text : string)
| OtherNode (children : list TsNode).

(** The mutable locals of [parseFileComplete]. *)
Record PState := mkPState {
  symbols : list ParsedSymbol; imports : list ImportInfo;
  calls : list FunctionCall; currentFunction : option string }.

Definition with_current (st : PState) (c : option string) : PState :=
  mkPState (symbols st) (imports st) (calls st) c.

Definition add (filePath : string) (st : PState) (kind : SymbolKind) (name : string)
  (exported : bool) : PState :=
  mkPState (symbols st ++ [mkSymbol name kind filePath exported])
           (imports st) (calls st) (currentFunction st).

Definition push_import (filePath : string) (st : PState) (name mp : string) (dflt : bool) : PState :=
  mkPState (symbols st) (imports st ++ [mkImport name mp filePath dflt])
           (calls st) (currentFunction st).

Definition push_call (filePath : string) (st : PState) (callee : string) : PState :=
  mkPState (symbols st) (imports st)
           (calls st ++ [mkCall (currentFunction st) callee filePath]) (currentFunction st).

Definition is_arrow (init : option TsNode) : bool :=
  match init with Some (ArrowFunction _) => true | _ => false end.

(** The "Extract variables" loop over [declarationList.declarations]. *)
Fixpoint var_decls (filePath : string) (exported : bool) (ds : list TsNode) (st : PState)
  : PState :=
  match ds with
  | [] => st
  | VariableDeclaration (Some v) init :: r =>
      let kind := if is_arrow init then SKfunction else SKvariable in
      let st1 := add filePath st kind v exported in
      let st2 := if is_arrow init then with_current st1 (Some v) else st1 in
      var_decls filePath exported r st2
  | _ :: r => var_decls filePath exported r st
  end.

Definition import_decl (filePath : string) (ms : option string) (ic : option ImportClause)
  (st : PState) : PState :=
  match ms, ic with
  | Some mp, Some cl =>
      let st1 := match clause_name cl with
                 | Some n => push_import filePath st n mp true
                 | None => st end in
      match namedBindings cl with
      | Some (NamedImports els) =>
          fold_left (fun s n => push_import filePath s n mp false) els st1
      | Some (NamespaceImport n) => push_import filePath st1 n mp false
      | None => st1
      end
  | _, _ => st
  end.

Definition callee_of (e : TsNode) : option string :=
  match e with
  | Identifier t => Some t
  | PropertyAccessExpression (Identifier r) n => Some (r ++ "." ++ n)
  | PropertyAccessExpression _ n => Some n
  | _ => None
  end.

(** [visit]: the branches of the source are tried in order but at most one
    applies to a node, so they are written as one match; every node then
    has its children visited and [currentFunction] restored. *)
Fixpoint visit (filePath : string) (n : TsNode) (st : PState) {struct n} : PState :=
  let prev := currentFunction st in
  let finish (ch : list TsNode) (s : PState) :=
    with_current (fold_left (fun s c => visit filePath c s) ch s) prev in
  match n with
  | FunctionDeclaration nm ex ch =>
      match nm with
      | Some f => finish ch (with_current (add filePath st SKfunction f ex) (Some f))
      | None => finish ch st
      end
  | ClassDeclaration nm ex members =>
      match nm with
      | Some c =>
          let method s m :=
            match m with
            | MethodDeclaration (Some mname) mch =>
                let mn := c ++ "." ++ mname in
                let s1 := with_current (add filePath s SKfunction mn false) (Some mn) in
                with_current (fold_left (fun s c => visit filePath c s) mch s1) prev
            | _ => s
            end in
          finish members (fold_left method members (add filePath st SKclass c ex))
      | None => finish members st
      end
  | MethodDeclaration _ ch => finish ch st
  | InterfaceDeclaration nm ex ch => finish ch (add filePath st SKinterface nm ex)
  | TypeAliasDeclaration nm ex ch => finish ch (add filePath st SKtype nm ex)
  | VariableStatement ex ds => finish ds (var_decls filePath ex ds st)
  | VariableDeclaration _ init =>
      match init with Some i => finish [i] st | None => finish [] st end
  | ArrowFunction ch => finish ch st
  | FunctionExpression _ ch => finish ch st
  | ImportDeclaration ms ic => finish [] (import_decl filePath ms ic st)
  | CallExpression e args =>
      let st1 := match callee_of e with
                 | Some callee => if String.eqb callee "" then st else push_call filePath st callee
                 | None => st end in
      finish (e :: args) st1
  | PropertyAccessExpression e _ => finish [e] st
  | Identifier _ => finish [] st
  | OtherNode ch => finish ch st
  end.

Definition parseFileComplete (filePath : string) (sourceFile : TsNode) : ParseResult :=
  let st := visit filePath sourceFile (mkPState [] [] [] None) in
  mkParseResult (symbols st) (imports st) (calls st).

(** Children visited by [visit] after a node's own branch. *)
Definition node_children (n : TsNode) : list TsNode :=
  match n with
  | FunctionDeclaration _ _ ch | ClassDeclaration _ _ ch | MethodDeclaration _ ch
  | InterfaceDeclaration _ _ ch | TypeAliasDeclaration _ _ ch | VariableStatement _ ch
  | ArrowFunction ch | FunctionExpression _ ch | OtherNode ch => ch
  | VariableDeclaration _ (Some i) => [i]
  | VariableDeclaration _ None | ImportDeclaration _ _ | Identifier _ => []
  | CallExpression e args => e :: args
  | PropertyAccessExpression e _ => [e]
  end.

(** Induction over the AST with a hypothesis for every child. *)
Section NodeInd.
Variable P : TsNode -> Prop.
Hypothesis IH : forall n, (forall c, In c (node_children n) -> P c) -> P n.

Fixpoint node_ind (n : TsNode) {struct n} : P n :=
  let all := fix go (l : list TsNode) : forall c, In c l -> P c :=
    match l with
    | [] => fun c H => False_ind _ H
    | x :: r => fun c H =>
        match H with
        | or_introl E => eq_ind x P (node_ind x) c E
        | or_intror H' => go r c H'
        end
    end in
  IH n (match n as n0 return forall c, In c (node_children n0) -> P c with
        | FunctionDeclaration _ _ ch | ClassDeclaration _ _ ch | MethodDeclaration _ ch
        | InterfaceDeclaration _ _ ch | TypeAliasDeclaration _ _ ch | VariableStatement _ ch
        | ArrowFunction ch | FunctionExpression _ ch | OtherNode ch => all ch
        | VariableDeclaration _ (Some i) => all [i]
        | VariableDeclaration _ None | ImportDeclaration _ _ | Identifier _ =>
            fun c H => False_ind _ H
        | CallExpression e args => all (e :: args)
        | PropertyAccessExpression e _ => all [e]
        end).
End NodeInd.

(** *** Names: every identifier of a parsed file is free of [':'] *)

Definition name_ok (o : option string) : bool :=
  match o with Some x => Str.colon_free x | None => true end.

Fixpoint names_ok (n : TsNode) : bool :=
  match n with
  | FunctionDeclaration nm _ ch | FunctionExpression nm ch | MethodDeclaration nm ch
  | ClassDeclaration nm _ ch => name_ok nm && forallb names_ok ch
  | InterfaceDeclaration nm _ ch | TypeAliasDeclaration nm _ ch =>
      Str.colon_free nm && forallb names_ok ch
  | VariableStatement _ ch | ArrowFunction ch | OtherNode ch => forallb names_ok ch
  | VariableDeclaration nm init =>
      name_ok nm && match init with Some i => names_ok i | None => true end
  | ImportDeclaration _ _ => true
  | CallExpression e args => names_ok e && forallb names_ok args
  | PropertyAccessExpression e nm => names_ok e && Str.colon_free nm
  | Identifier t => Str.colon_free t
  end.

(** *** Invariants of the extractor state *)

Definition HasFun (st : PState) (f : string) : Prop :=
  exists s, In s (symbols st) /\ sym_name s = f /\ sym_kind s = SKfunction.

Definition CurOk (st : PState) : Prop :=
  forall f, currentFunction st = Some f -> HasFun st f.

Definition CallsOk (st : PState) : Prop :=
  forall c, In c (calls st) -> forall f, callerFunction c = Some f -> HasFun st f.

Definition Inv (st : PState) : Prop := CurOk st /\ CallsOk st.

Definition SymPrefix (st st' : PState) : Prop :=
  exists l, symbols st' = (symbols st ++ l)%list.

Lemma SymPrefix_refl st : SymPrefix st st.
Proof. exists []. now rewrite app_nil_r. Qed.

Lemma SymPrefix_trans a b c : SymPrefix a b -> SymPrefix b c -> SymPrefix a c.
Proof.
  intros [l1 H1] [l2 H2]. exists (l1 ++ l2)%list. now rewrite H2, H1, app_assoc.
Qed.

Lemma HasFun_mono st st' f : SymPrefix st st' -> HasFun st f -> HasFun st' f.
Proof.
  intros [l Hl] (s & Hin & Hn & Hk). exists s. rewrite Hl. split; auto.
  apply in_or_app; auto.
Qed.

Create HintDb parser.
#[local] Hint Resolve SymPrefix_refl SymPrefix_trans HasFun_mono : parser.

Lemma with_current_CallsOk st c : CallsOk st -> CallsOk (with_current st c).
Proof. intros H x Hx f Hf. exact (H x Hx f Hf). Qed.

Lemma with_current_Inv st c :
  CallsOk st -> (forall f, c = Some f -> HasFun st f) -> Inv (with_current st c).
Proof. intros H1 H2. split; [exact H2 | now apply with_current_CallsOk]. Qed.

Lemma add_prefix fp st k nm ex : SymPrefix st (add fp st k nm ex).
Proof. now exists [mkSymbol nm k fp ex]. Qed.

Lemma add_HasFun fp st nm ex : HasFun (add fp st SKfunction nm ex) nm.
Proof.
  exists (mkSymbol nm SKfunction fp ex). simpl. split; auto.
  apply in_or_app. simpl; auto.
Qed.

Lemma add_Inv fp st k nm ex : Inv st -> Inv (add fp st k nm ex).
Proof.
  intros [Hc Hk]. split.
  - intros f Hf. eapply HasFun_mono; [apply add_prefix | exact (Hc f Hf)].
  - intros c Hin f Hf. eapply HasFun_mono; [apply add_prefix | exact (Hk c Hin f Hf)].
Qed.

Lemma push_import_Inv fp st n mp d :
  Inv st -> Inv (push_import fp st n mp d) /\ SymPrefix st (push_import fp st n mp d).
Proof. intros H. split; [exact H|]. exists []. simpl. now rewrite app_nil_r. Qed.

Lemma push_call_Inv fp st callee : Inv st -> Inv (push_call fp st callee).
Proof.
  intros [Hc Hk]. split; [exact Hc|].
  intros c Hin f Hf. simpl in Hin. apply in_app_or in Hin as [Hin|[<-|[]]].
  - exact (Hk c Hin f Hf).
  - exact (Hc f Hf).
Qed.

Lemma var_decls_Inv fp ex ds : forall st,
  Inv st -> Inv (var_decls fp ex ds st) /\ SymPrefix st (var_decls fp ex ds st).
Proof.
  induction ds as [|d ds IH]; intros st Hi; simpl; [split; auto with parser|].
  destruct d as [| | | | | | nm init | | | | | | |];
    try (apply IH; exact Hi).
  destruct nm as [v|]; [|apply IH; exact Hi].
  set (st1 := add fp st _ v ex).
  assert (H1 : Inv st1 /\ SymPrefix st st1) by (split; [apply add_Inv; auto | apply add_prefix]).
  destruct (is_arrow init) eqn:Ea.
  - assert (H2 : Inv (with_current st1 (Some v))).
    { apply with_current_Inv; [apply H1|]. intros f [= <-]. apply add_HasFun. }
    destruct (IH _ H2) as [H3 H4]. split; [exact H3|]. eapply SymPrefix_trans; [apply H1|exact H4].
  - destruct (IH _ (proj1 H1)) as [H3 H4]. split; [exact H3|].
    eapply SymPrefix_trans; [apply H1|exact H4].
Qed.

Lemma fold_imports_Inv fp mp els : forall st,
  Inv st -> Inv (fold_left (fun s n => push_import fp s n mp false) els st) /\
            SymPrefix st (fold_left (fun s n => push_import fp s n mp false) els st).
Proof.
  induction els as [|x els IH]; intros st Hi; simpl; [split; auto with parser|].
  destruct (push_import_Inv fp st x mp false Hi) as [H1 H2].
  destruct (IH _ H1) as [H3 H4]. split; [exact H3 | exact (SymPrefix_trans _ _ _ H2 H4)].
Qed.

Lemma import_decl_Inv fp ms ic st :
  Inv st -> Inv (import_decl fp ms ic st) /\ SymPrefix st (import_decl fp ms ic st).
Proof.
  intros Hi. unfold import_decl. cbv zeta.
  destruct ms as [mp|]; [|split; auto with parser].
  destruct ic as [cl|]; [|split; auto with parser].
  set (st1 := match clause_name cl with Some n => push_import fp st n mp true | None => st end).
  assert (H1 : Inv st1 /\ SymPrefix st st1).
  { unfold st1. destruct (clause_name cl); [apply push_import_Inv; auto | split; auto with parser]. }
  destruct (namedBindings cl) as [[els|n]|]; [| |exact H1].
  - destruct (fold_imports_Inv fp mp els st1 (proj1 H1)) as [H3 H4].
    split; [exact H3 | eapply SymPrefix_trans; [apply H1 | exact H4]].
  - destruct (push_import_Inv fp st1 n mp false (proj1 H1)) as [H3 H4].
    split; [exact H3 | eapply SymPrefix_trans; [apply H1 | exact H4]].
Qed.

Definition VisitOk (fp : string) (n : TsNode) : Prop :=
  forall st, Inv st -> Inv (visit fp n st) /\ SymPrefix st (visit fp n st).

Lemma fold_visit_Ok fp l :
  (forall c, In c l -> VisitOk fp c) ->
  forall st, Inv st -> Inv (fold_left (fun s c => visit fp c s) l st) /\
                       SymPrefix st (fold_left (fun s c => visit fp c s) l st).
Proof.
  induction l as [|x l IH]; intros Hl st Hi; simpl; [split; auto with parser|].
  destruct (Hl x (or_introl eq_refl) st Hi) as [H1 H2].
  destruct (IH (fun c Hc => Hl c (or_intror Hc)) _ H1) as [H3 H4].
  split; [exact H3 | exact (SymPrefix_trans _ _ _ H2 H4)].
Qed.

Lemma finish_Ok fp l st0 st :
  (forall c, In c l -> VisitOk fp c) -> Inv st0 -> Inv st -> SymPrefix st0 st ->
  Inv (with_current (fold_left (fun s c => visit fp c s) l st) (currentFunction st0)) /\
  SymPrefix st0 (with_current (fold_left (fun s c => visit fp c s) l st) (currentFunction st0)).
Proof.
  intros Hl Hi0 Hi Hp. destruct (fold_visit_Ok fp l Hl st Hi) as [H1 H2].
  split.
  - apply with_current_Inv; [apply H1|]. intros f Hf.
    eapply HasFun_mono; [eapply SymPrefix_trans; [exact Hp|exact H2]|]. exact (proj1 Hi0 f Hf).
  - eapply SymPrefix_trans; [exact Hp|exact H2].
Qed.

Lemma fold_pres {A : Type} (Q : PState -> Prop) (F : PState -> A -> PState) (l : list A) :
  (forall x, In x l -> forall s, Q s -> Q (F s x) /\ SymPrefix s (F s x)) ->
  forall s, Q s -> Q (fold_left F l s) /\ SymPrefix s (fold_left F l s).
Proof.
  induction l as [|x l IH]; intros Hl s Hs; simpl; [split; auto with parser|].
  destruct (Hl x (or_introl eq_refl) s Hs) as [H1 H2].
  destruct (IH (fun y Hy => Hl y (or_intror Hy)) _ H1) as [H3 H4].
  split; [exact H3 | exact (SymPrefix_trans _ _ _ H2 H4)].
Qed.

Lemma visit_Ok fp : forall n, VisitOk fp n.
Proof.
  apply node_ind. intros n IH st Hi.
  destruct n as [nm ex ch|nm ex ch|nm ch|nm ex ch|nm ex ch|ex ch|nm [i|]|ch|nm ch|ms ic|e args|e nm|t|ch];
    simpl in IH; cbn -[fold_left with_current add var_decls import_decl push_call callee_of];
    try (apply finish_Ok; auto with parser; fail).
  - (* FunctionDeclaration *)
    destruct nm as [f|]; [|apply finish_Ok; auto with parser].
    apply finish_Ok; auto.
    + apply with_current_Inv; [apply add_Inv; auto|]. intros g [= <-]. apply add_HasFun.
    + apply add_prefix.
  - (* ClassDeclaration *)
    destruct nm as [c|]; [|apply finish_Ok; auto with parser].
    match goal with
    | |- context [fold_left ?F ch (add fp st SKclass c ex)] =>
        destruct (fold_pres (fun s => Inv s /\ forall f, currentFunction st = Some f -> HasFun s f)
                    F ch) with (s := add fp st SKclass c ex) as [[H1 H2] H3]
    end.
    + intros m Hm s [Hs Hp].
      destruct m as [| |[mname|] mch| | | | | | | | | | |]; cbn;
        try (split; [split; auto | apply SymPrefix_refl]; fail).
      set (s1 := with_current (add fp s SKfunction (c ++ "." ++ mname) false)
                              (Some (c ++ "." ++ mname))).
      assert (Hs1 : Inv s1).
      { apply with_current_Inv; [apply add_Inv; auto|]. intros g [= <-]. apply add_HasFun. }
      destruct (IH _ Hm s1 Hs1) as [[_ Hcalls] Hpre].
      assert (Hp1 : SymPrefix s (fold_left (fun s c => visit fp c s) mch s1)).
      { exact (SymPrefix_trans _ _ _ (add_prefix fp s SKfunction _ false) Hpre). }
      split; [split|exact Hp1].
      * apply with_current_Inv; [exact Hcalls|]. intros f Hf.
        exact (HasFun_mono _ _ _ Hp1 (Hp f Hf)).
      * intros f Hf. exact (HasFun_mono _ _ _ Hp1 (Hp f Hf)).
    + split; [apply add_Inv; auto|]. intros f Hf.
      exact (HasFun_mono _ _ _ (add_prefix _ _ _ _ _) (proj1 Hi f Hf)).
    + apply finish_Ok; auto. exact (SymPrefix_trans _ _ _ (add_prefix _ _ _ _ _) H3).
  - apply finish_Ok; auto using add_Inv, add_prefix.
  - apply finish_Ok; auto using add_Inv, add_prefix.
  - destruct (var_decls_Inv fp ex ch st Hi). apply finish_Ok; auto.
  - destruct (import_decl_Inv fp ms ic st Hi). apply finish_Ok; auto.
  - destruct (callee_of e) as [callee|]; [|apply finish_Ok; auto with parser].
    destruct (String.eqb callee ""); [apply finish_Ok; auto with parser|].
    apply finish_Ok; auto using push_call_Inv. exists []. simpl. now rewrite app_nil_r.
Qed.

Definition NamesOk (st : PState) : Prop :=
  (forall s, In s (symbols st) -> Str.colon_free (sym_name s) = true) /\
  (forall c, In c (calls st) -> Str.colon_free (calleeName c) = true).

Lemma fold_inv {S A : Type} (Q : S -> Prop) (F : S -> A -> S) (l : list A) :
  (forall x, In x l -> forall s, Q s -> Q (F s x)) -> forall s, Q s -> Q (fold_left F l s).
Proof.
  induction l as [|x l IH]; intros Hl s Hs; simpl; auto.
  apply IH; [intros y Hy; apply Hl; simpl; auto | apply Hl; simpl; auto].
Qed.

Lemma names_children n : names_ok n = true -> forall c, In c (node_children n) -> names_ok c = true.
Proof.
  intros H c Hc.
  destruct n as [nm ex ch|nm ex ch|nm ch|nm ex ch|nm ex ch|ex ch|nm [i|]|ch|nm ch|ms ic|e args|e nm|t|ch];
    simpl in H, Hc;
    repeat match goal with
           | H : _ && _ = true |- _ => apply andb_true_iff in H as [? ?]
           | H : forallb _ _ = true |- _ => rewrite forallb_forall in H
           end;
    try (now auto);
    try (destruct Hc as [<-|[]]; assumption).
  destruct Hc as [<-|Hc]; auto.
Qed.

Lemma add_names fp st k nm ex :
  NamesOk st -> Str.colon_free nm = true -> NamesOk (add fp st k nm ex).
Proof.
  intros [Hs Hc] Hn. split; [|exact Hc].
  intros s Hin. simpl in Hin. apply in_app_or in Hin as [Hin|[<-|[]]]; auto.
Qed.

Lemma var_decls_names fp ex ds : forall st,
  (forall d, In d ds -> names_ok d = true) -> NamesOk st -> NamesOk (var_decls fp ex ds st).
Proof.
  induction ds as [|d ds IH]; intros st Hd Hst; simpl; auto.
  assert (Hr : forall d, In d ds -> names_ok d = true) by (intros; apply Hd; simpl; auto).
  destruct d as [| | | | | | [v|] init | | | | | | |]; try (apply IH; auto; fail).
  assert (Hv : Str.colon_free v = true).
  { specialize (Hd _ (or_introl eq_refl)). simpl in Hd. now apply andb_true_iff in Hd as [? _]. }
  apply IH; auto. destruct (is_arrow init); apply add_names; auto.
Qed.

Lemma import_decl_names fp ms ic st : NamesOk st -> NamesOk (import_decl fp ms ic st).
Proof.
  intros H. unfold import_decl.
  destruct ms as [mp|]; [|exact H]. destruct ic as [cl|]; [|exact H]. cbv zeta.
  assert (H1 : NamesOk (match clause_name cl with
                        | Some n => push_import fp st n mp true | None => st end)).
  { destruct (clause_name cl); exact H. }
  destruct (namedBindings cl) as [[els|n]|]; [| exact H1 | exact H1].
  apply (fold_inv NamesOk); [|exact H1]. intros x _ s Hs. exact Hs.
Qed.

Lemma callee_of_names e callee :
  names_ok e = true -> callee_of e = Some callee -> Str.colon_free callee = true.
Proof.
  intros He Hc. destruct e as [| | | | | | | | | | |e' nm|t|]; simpl in Hc; try discriminate.
  - simpl in He. apply andb_true_iff in He as [He1 He2].
    destruct e'; injection Hc as <-; auto.
    simpl in He1. rewrite !Str.colon_free_app. simpl. now rewrite He1, He2.
  - injection Hc as <-. exact He.
Qed.

Lemma visit_names fp : forall n, names_ok n = true -> forall st, NamesOk st -> NamesOk (visit fp n st).
Proof.
  apply (node_ind (fun n => names_ok n = true -> forall st, NamesOk st -> NamesOk (visit fp n st))). intros n IH Hn st Hst.
  pose proof (names_children n Hn) as Hch.
  assert (Hfold : forall l s, (forall c, In c l -> In c (node_children n)) -> NamesOk s ->
            NamesOk (fold_left (fun s c => visit fp c s) l s)).
  { intros l s Hl Hs. apply (fold_inv NamesOk); [|exact Hs].
    intros c Hc s' Hs'. apply IH; auto. }
  destruct n as [nm ex ch|nm ex ch|nm ch|nm ex ch|nm ex ch|ex ch|nm [i|]|ch|nm ch|ms ic|e args|e nm|t|ch];
    cbn -[fold_left with_current add var_decls import_decl push_call callee_of];
    try (apply Hfold; auto; fail).
  - destruct nm as [f|]; apply Hfold; auto.
    apply add_names; auto. simpl in Hn. now apply andb_true_iff in Hn as [? _].
  - destruct nm as [c|]; apply Hfold; auto.
    assert (Hc : Str.colon_free c = true).
    { simpl in Hn. now apply andb_true_iff in Hn as [? _]. }
    apply (fold_inv NamesOk); [|apply add_names; auto].
    intros m Hm s Hs.
    destruct m as [| |[mname|] mch| | | | | | | | | | |]; cbn; auto.
    assert (Hmn : Str.colon_free mname = true).
    { specialize (Hch _ Hm). simpl in Hch. now apply andb_true_iff in Hch as [? _]. }
    refine (IH _ Hm (Hch _ Hm) _ _).
    apply add_names; auto. rewrite !Str.colon_free_app. simpl. now rewrite Hc, Hmn.
  - apply Hfold; auto. apply add_names; auto. simpl in Hn. now apply andb_true_iff in Hn as [? _].
  - apply Hfold; auto. apply add_names; auto. simpl in Hn. now apply andb_true_iff in Hn as [? _].
  - apply Hfold; auto. apply var_decls_names; auto.
  - apply Hfold; auto. apply import_decl_names; auto.
  - apply Hfold; auto.
    destruct (callee_of e) as [callee|] eqn:Ec; [|exact Hst].
    destruct (String.eqb callee ""); [exact Hst|].
    destruct Hst as [Hs Hk]. split; [exact Hs|].
    intros c Hin. simpl in Hin. apply in_app_or in Hin as [Hin|[<-|[]]]; auto.
    simpl. apply (callee_of_names e); auto. apply Hch. simpl; auto.
Qed.

Lemma parse_names fp n :
  names_ok n = true ->
  (forall s, In s (pr_symbols (parseFileComplete fp n)) -> Str.colon_free (sym_name s) = true) /\
  (forall c, In c (pr_calls (parseFileComplete fp n)) -> Str.colon_free (calleeName c) = true).
Proof.
  intros H. apply (visit_names fp n H). split; intros ? [].
Qed.

(** *** The symbols a variable statement adds *)

(** The declarations the variable loop extracts: those named by an identifier. *)
Fixpoint named_decls (ds : list TsNode) : list (string * option TsNode) :=
  match ds with
  | [] => []
  | VariableDeclaration (Some v) init :: r => (v, init) :: named_decls r
  | _ :: r => named_decls r
  end.

Lemma var_decls_symbols fp ex ds : forall st,
  symbols (var_decls fp ex ds st) =
  (symbols st ++
   map (fun d => mkSymbol (fst d) (if is_arrow (snd d) then SKfunction else SKvariable) fp ex)
       (named_decls ds))%list.
Proof.
  induction ds as [|d ds IH]; intros st; simpl; [now rewrite app_nil_r|].
  destruct d as [| | | | | | [v|] init| | | | | | |]; simpl; rewrite ?IH; auto.
  destruct (is_arrow init); simpl; rewrite <- app_assoc; reflexivity.
Qed.

Lemma import_decl_symbols fp ms ic st : symbols (import_decl fp ms ic st) = symbols st.
Proof.
  unfold import_decl.
  destruct ms as [mp|]; [|reflexivity]. destruct ic as [cl|]; [|reflexivity].
  assert (Hf : forall els s, symbols (fold_left (fun s n => push_import fp s n mp false) els s)
                             = symbols s).
  { induction els as [|x els IH]; intros s; simpl; [reflexivity|]. now rewrite IH. }
  destruct (clause_name cl); destruct (namedBindings cl) as [[els|n]|]; simpl;
    rewrite ?Hf; reflexivity.
Qed.

Lemma fold_prefix {A : Type} (F : PState -> A -> PState) (l : list A) :
  (forall x, In x l -> forall s, SymPrefix s (F s x)) ->
  forall s, SymPrefix s (fold_left F l s).
Proof.
  induction l as [|x l IH]; intros Hl s; simpl; [apply SymPrefix_refl|].
  eapply SymPrefix_trans; [apply Hl; simpl; auto|].
  apply IH. intros y Hy. apply Hl. simpl; auto.
Qed.

Lemma with_current_prefix a b c : SymPrefix a b -> SymPrefix a (with_current b c).
Proof. intros H. exact H. Qed.

Lemma visit_prefix fp : forall n st, SymPrefix st (visit fp n st).
Proof.
  apply (node_ind (fun n => forall st, SymPrefix st (visit fp n st))). intros n IH st.
  assert (Hfin : forall l s prev, (forall c, In c l -> In c (node_children n)) -> SymPrefix st s ->
            SymPrefix st (with_current (fold_left (fun s c => visit fp c s) l s) prev)).
  { intros l s prev Hl Hs. eapply SymPrefix_trans; [exact Hs|].
    apply fold_prefix. intros c Hc s'. apply IH; auto. }
  destruct n as [nm ex ch|nm ex ch|nm ch|nm ex ch|nm ex ch|ex ch|nm [i|]|ch|nm ch|ms ic|e args|e nm|t|ch];
    cbn -[fold_left with_current add var_decls import_decl push_call callee_of];
    try (apply Hfin; auto using SymPrefix_refl; fail).
  - destruct nm as [f|]; apply Hfin; auto using SymPrefix_refl, add_prefix, with_current_prefix.
  - destruct nm as [c|]; apply Hfin; auto using SymPrefix_refl.
    eapply SymPrefix_trans; [apply add_prefix|].
    apply fold_prefix. intros m Hm s.
    destruct m as [| |[mname|] mch| | | | | | | | | | |]; cbn; try apply SymPrefix_refl.
    apply with_current_prefix.
    eapply SymPrefix_trans; [|exact (IH _ Hm _)].
    exact (add_prefix fp s SKfunction (c ++ "." ++ mname) false).
  - apply Hfin; auto using add_prefix.
  - apply Hfin; auto using add_prefix.
  - apply Hfin; auto. exists (map (fun d => mkSymbol (fst d)
      (if is_arrow (snd d) then SKfunction else SKvariable) fp ex) (named_decls ch)).
    apply var_decls_symbols.
  - apply Hfin; auto. exists []. rewrite import_decl_symbols. now rewrite app_nil_r.
  - apply Hfin; auto. destruct (callee_of e); [destruct (String.eqb _ "")|];
      try apply SymPrefix_refl. exists []. simpl. now rewrite app_nil_r.
Qed.

(** *** Every record of a parse result carries the parsed file's path *)

Definition FpOk (fp : string) (st : PState) : Prop :=
  Forall (fun s => sym_filePath s = fp) (symbols st) /\
  Forall (fun i => imp_filePath i = fp) (imports st) /\
  Forall (fun c => call_filePath c = fp) (calls st).

Lemma add_fp fp st k nm ex : FpOk fp st -> FpOk fp (add fp st k nm ex).
Proof.
  intros (Hs & Hi & Hc). split; [|split; assumption].
  cbn [add symbols]. apply Forall_app. split; [exact Hs|constructor; [reflexivity|constructor]].
Qed.

Lemma push_import_fp fp st n mp d : FpOk fp st -> FpOk fp (push_import fp st n mp d).
Proof.
  intros (Hs & Hi & Hc). split; [exact Hs|split; [|exact Hc]].
  cbn [push_import imports]. apply Forall_app. split; [exact Hi|constructor; [reflexivity|constructor]].
Qed.

Lemma push_call_fp fp st callee : FpOk fp st -> FpOk fp (push_call fp st callee).
Proof.
  intros (Hs & Hi & Hc). split; [exact Hs|split; [exact Hi|]].
  cbn [push_call calls]. apply Forall_app. split; [exact Hc|constructor; [reflexivity|constructor]].
Qed.

Lemma var_decls_fp fp ex ds : forall st, FpOk fp st -> FpOk fp (var_decls fp ex ds st).
Proof.
  induction ds as [|d ds IH]; intros st Hst; simpl; auto.
  destruct d as [| | | | | | [v|] init | | | | | | |]; try (apply IH; auto; fail).
  apply IH. destruct (is_arrow init); apply add_fp; exact Hst.
Qed.

Lemma import_decl_fp fp ms ic st : FpOk fp st -> FpOk fp (import_decl fp ms ic st).
Proof.
  intros Hst. unfold import_decl.
  destruct ms as [mp|]; [|exact Hst]. destruct ic as [cl|]; [|exact Hst].
  assert (H1 : FpOk fp (match clause_name cl with
                        | Some n => push_import fp st n mp true
                        | None => st end)).
  { destruct (clause_name cl); [apply push_import_fp|]; exact Hst. }
  destruct (namedBindings cl) as [[els|n]|]; [| apply push_import_fp; exact H1 | exact H1].
  apply (fold_inv (FpOk fp)); [|exact H1]. intros x _ s' Hs'. apply push_import_fp. exact Hs'.
Qed.

Lemma visit_fp fp : forall n st, FpOk fp st -> FpOk fp (visit fp n st).
Proof.
  apply (node_ind (fun n => forall st, FpOk fp st -> FpOk fp (visit fp n st))).
  intros n IH st Hst.
  assert (Hfold : forall l s, (forall c, In c l -> In c (node_children n)) -> FpOk fp s ->
            FpOk fp (fold_left (fun s c => visit fp c s) l s)).
  { intros l s Hl Hs. apply (fold_inv (FpOk fp)); [|exact Hs].
    intros c Hc s' Hs'. apply IH; auto. }
  destruct n as [nm ex ch|nm ex ch|nm ch|nm ex ch|nm ex ch|ex ch|nm [i|]|ch|nm ch|ms ic|e args|e nm|t|ch];
    cbn -[fold_left with_current add var_decls import_decl push_call callee_of];
    try (apply Hfold; auto; fail).
  - destruct nm as [f|]; apply Hfold; auto. apply add_fp. exact Hst.
  - destruct nm as [c|]; apply Hfold; auto.
    apply (fold_inv (FpOk fp)); [|apply add_fp; exact Hst].
    intros m Hm s Hs.
    destruct m as [| |[mname|] mch| | | | | | | | | | |]; cbn; auto.
    refine (IH _ Hm _ _). apply add_fp. exact Hs.
  - apply Hfold; auto. apply add_fp. exact Hst.
  - apply Hfold; auto. apply add_fp. exact Hst.
  - apply Hfold; auto. apply var_decls_fp. exact Hst.
  - apply Hfold; auto. apply import_decl_fp. exact Hst.
  - apply Hfold; auto.
    destruct (callee_of e) as [callee|]; [|exact Hst].
    destruct (String.eqb callee ""); [exact Hst|]. apply push_call_fp. exact Hst.
Qed.

End TsParser.


(** ** [GraphBuilder] (src/src/parser/fileIndexer.ts). *)
Module Graph.
Import TsParser.

(** [GraphNodeType]; a symbol node gets [symbol.kind as GraphNodeType],
    i.e. the kind's string, so the type is kept as a string. *)
Record GraphNode := mkNode {
  id : string; label : string; ntype : string; path : option string; exported : option bool }.

Inductive EdgeType := Eimports | Ecalls | Econtains.

Definition EdgeType_eqb (a b : EdgeType) : bool :=
  match a, b with
  | Eimports, Eimports | Ecalls, Ecalls | Econtains, Econtains => true
  | _, _ => false
  end.

Record GraphEdge := mkEdge { source : string; target : string; etype : EdgeType }.

Record CodeGraph := mkGraph { nodes : list GraphNode; edges : list GraphEdge }.

(** The three private fields of a [GraphBuilder]. *)
Record Builder := mkBuilder {
  b_nodes : JsMap.t GraphNode;
  b_edges : list GraphEdge;
  fileParseResults : JsMap.t ParseResult }.

Definition empty_builder : Builder := mkBuilder [] [] [].

Definition file_id (filePath : string) : string := "file:" ++ filePath.

Definition symbol_id (filePath : string) (s : ParsedSymbol) : string :=
  kind_str (sym_kind s) ++ ":" ++ filePath ++ ":" ++ sym_name s.

Section Builder.

(** The environment: [exists]/[readFile] on a resolved path ([None] when
    the file is absent or unreadable), [node:path]'s [resolve], [dirname]
    and [relative], and [ts.createSourceFile]. *)
Variable readFile : string -> option string.
Variable path_resolve : string -> string.
Variable path_resolve2 : string -> string -> string.
Variable path_dirname : string -> string.
Variable path_relative : string -> string -> string.
Variable createSourceFile : string -> string -> TsNode.

(** The symbol loop of [parseAndIndexFile]. *)
Definition index_symbol (filePath : string) (b : Builder) (symbol : ParsedSymbol) : Builder :=
  let fileId := file_id filePath in
  let symbolId := symbol_id filePath symbol in
  mkBuilder
    (JsMap.set symbolId
       (mkNode symbolId (sym_name symbol) (kind_str (sym_kind symbol)) (Some filePath)
               (Some (sym_exported symbol)))
       (b_nodes b))
    (b_edges b ++ [mkEdge fileId symbolId Econtains])
    (fileParseResults b).

Definition parseAndIndexFile (b : Builder) (filePath : string) : Builder :=
  if Str.is_blank filePath then b else
  match readFile (path_resolve filePath) with
  | None => b
  | Some content =>
      if Str.is_blank content then b else
      let parseResult := parseFileComplete filePath (createSourceFile filePath content) in
      let fileId := file_id filePath in
      let b1 := mkBuilder
                  (JsMap.set fileId
                     (mkNode fileId (Str.last_segment filePath) "file" (Some filePath) None)
                     (b_nodes b))
                  (b_edges b)
                  (JsMap.set filePath parseResult (fileParseResults b)) in
      fold_left (index_symbol filePath) (pr_symbols parseResult) b1
  end.

Definition extensions : list string :=
  [".ts"; ".tsx"; ".js"; ".jsx"; "/index.ts"; "/index.tsx"].

Definition resolveImportPath (known : JsMap.t ParseResult)
  (importPath fromFile projectRoot : string) : option string :=
  if String.prefix "." importPath then
    let fromDir := path_dirname (path_resolve fromFile) in
    let resolved := path_resolve2 fromDir importPath in
    let fix probe (exts : list string) : option string :=
      match exts with
      | [] => Some (path_relative projectRoot resolved)
      | ext :: r =>
          let withExt := resolved ++ ext in
          let relPath := path_relative projectRoot withExt in
          if JsMap.has relPath known || JsMap.has withExt known
          then Some (if String.prefix "." relPath then withExt else relPath)
          else probe r
      end in
    probe extensions
  else None.

Definition findCallTarget (calleeName filePath : string) (nodes : JsMap.t GraphNode)
  : option string :=
  let functionId := "function:" ++ filePath ++ ":" ++ calleeName in
  let fallback := if JsMap.has functionId nodes then Some functionId else None in
  if Str.has_char "." calleeName then
    let parts := Str.split "." calleeName in
    let className := hd "" parts in
    let methodName := Str.join "." (tl parts) in
    let methodId := "function:" ++ filePath ++ ":" ++ className ++ "." ++ methodName in
    if JsMap.has methodId nodes then Some methodId else fallback
  else fallback.

Definition import_edge (filePath projectRoot : string) (b : Builder) (imp : ImportInfo)
  : Builder :=
  match resolveImportPath (fileParseResults b) (modulePath imp) filePath projectRoot with
  | Some resolvedPath =>
      let sourceFileId := file_id filePath in
      let targetFileId := file_id resolvedPath in
      if JsMap.has targetFileId (b_nodes b)
      then mkBuilder (b_nodes b) (b_edges b ++ [mkEdge sourceFileId targetFileId Eimports])
                     (fileParseResults b)
      else b
  | None => b
  end.

Definition call_edge (filePath : string) (b : Builder) (call : FunctionCall) : Builder :=
  let sourceId := match callerFunction call with
                  | Some f => if String.eqb f "" then file_id filePath
                              else "function:" ++ filePath ++ ":" ++ f
                  | None => file_id filePath
                  end in
  match findCallTarget (calleeName call) filePath (b_nodes b) with
  | Some targetId =>
      if JsMap.has targetId (b_nodes b)
      then mkBuilder (b_nodes b) (b_edges b ++ [mkEdge sourceId targetId Ecalls])
                     (fileParseResults b)
      else b
  | None => b
  end.

Definition build_file_edges (projectRoot : string) (b : Builder)
  (entry : string * ParseResult) : Builder :=
  let '(filePath, parseResult) := entry in
  let b1 := fold_left (import_edge filePath projectRoot) (pr_imports parseResult) b in
  fold_left (call_edge filePath) (pr_calls parseResult) b1.

Definition buildEdges (projectRoot : string) (b : Builder) : Builder :=
  fold_left (build_file_edges projectRoot) (fileParseResults b) b.

(** [Array.from(new Set(xs))]: first occurrences, in order. *)
Fixpoint dedup_aux (seen : list string) (xs : list string) : list string :=
  match xs with
  | [] => []
  | x :: r => if existsb (String.eqb x) seen then dedup_aux seen r
              else x :: dedup_aux (seen ++ [x]) r
  end.

Definition dedup (xs : list string) : list string := dedup_aux [] xs.

(** [symbolFiles]: the [filePath] fields read from [symbols.json]. The
    returned graph is the one written to [graph.json]. *)
Definition buildCompleteGraph (projectRoot : string) (symbolFiles : list string) : CodeGraph :=
  let files := dedup symbolFiles in
  let b1 := fold_left parseAndIndexFile files empty_builder in
  let b2 := buildEdges projectRoot b1 in
  mkGraph (JsMap.values (b_nodes b2)) (b_edges b2).

(** *** Invariants of the builder state *)

Definition EdgesOk (b : Builder) : Prop :=
  forall e, In e (b_edges b) ->
    JsMap.has (source e) (b_nodes b) = true /\ JsMap.has (target e) (b_nodes b) = true.

Definition BaseInv (b : Builder) : Prop :=
  NoDup (JsMap.keys (b_nodes b)) /\
  Forall (fun e => id (snd e) = fst e) (b_nodes b) /\ EdgesOk b.

Definition CallsOkPR (pr : ParseResult) : Prop :=
  forall c, In c (pr_calls pr) -> forall f, callerFunction c = Some f ->
    exists s, In s (pr_symbols pr) /\ sym_name s = f /\ sym_kind s = SKfunction.

Definition EntryOk (nodes : JsMap.t GraphNode) (fp : string) (pr : ParseResult) : Prop :=
  JsMap.has (file_id fp) nodes = true /\
  (forall s, In s (pr_symbols pr) -> JsMap.has (symbol_id fp s) nodes = true) /\
  CallsOkPR pr.

Definition FprOk (b : Builder) : Prop :=
  forall fp pr, In (fp, pr) (fileParseResults b) -> EntryOk (b_nodes b) fp pr.

Definition NodesMono (b b' : Builder) : Prop :=
  forall k, JsMap.has k (b_nodes b) = true -> JsMap.has k (b_nodes b') = true.

Lemma NodesMono_refl b : NodesMono b b.
Proof. intros k H; exact H. Qed.

Lemma NodesMono_trans a b c : NodesMono a b -> NodesMono b c -> NodesMono a c.
Proof. intros H1 H2 k H. auto. Qed.

Lemma EntryOk_mono (n n' : JsMap.t GraphNode) fp pr :
  (forall k, JsMap.has k n = true -> JsMap.has k n' = true) -> EntryOk n fp pr -> EntryOk n' fp pr.
Proof. intros Hm (H1 & H2 & H3). repeat split; auto. Qed.

Lemma parse_CallsOkPR fp n : CallsOkPR (parseFileComplete fp n).
Proof.
  intros c Hc f Hf.
  assert (H0 : Inv (mkPState [] [] [] None)) by (split; [intros g [=] | intros x []]).
  destruct (visit_Ok fp n _ H0) as [[_ Hk] _].
  exact (Hk c Hc f Hf).
Qed.

Lemma has_set_same (m : JsMap.t GraphNode) k v : JsMap.has k (JsMap.set k v m) = true.
Proof. rewrite JsMap.has_set, String.eqb_refl. reflexivity. Qed.

Lemma has_set_mono (m : JsMap.t GraphNode) k k' v :
  JsMap.has k m = true -> JsMap.has k (JsMap.set k' v m) = true.
Proof. intros H. rewrite JsMap.has_set, H, orb_true_r. reflexivity. Qed.

Lemma index_symbol_ok fp b s :
  BaseInv b -> JsMap.has (file_id fp) (b_nodes b) = true ->
  BaseInv (index_symbol fp b s) /\ NodesMono b (index_symbol fp b s) /\
  JsMap.has (symbol_id fp s) (b_nodes (index_symbol fp b s)) = true /\
  fileParseResults (index_symbol fp b s) = fileParseResults b.
Proof.
  intros (Hnd & Hid & He) Hf. unfold index_symbol; simpl.
  split; [|split; [intros k Hk; simpl; now apply has_set_mono|split; [apply has_set_same|reflexivity]]].
  split; [now apply JsMap.NoDup_keys_set|split].
  - apply (JsMap.Forall_set (fun k n => id n = k)); [reflexivity|exact Hid].
  - intros e Hin. simpl in Hin. apply in_app_or in Hin as [Hin|[<-|[]]].
    + destruct (He e Hin). split; now apply has_set_mono.
    + simpl. split; [now apply has_set_mono | apply has_set_same].
Qed.

Lemma fold_index_ok fp l : forall b,
  BaseInv b -> JsMap.has (file_id fp) (b_nodes b) = true ->
  BaseInv (fold_left (index_symbol fp) l b) /\ NodesMono b (fold_left (index_symbol fp) l b) /\
  (forall s, In s l -> JsMap.has (symbol_id fp s) (b_nodes (fold_left (index_symbol fp) l b)) = true) /\
  fileParseResults (fold_left (index_symbol fp) l b) = fileParseResults b.
Proof.
  induction l as [|x l IH]; intros b Hb Hf; simpl.
  - split; [exact Hb|split; [apply NodesMono_refl|split; [intros s []|reflexivity]]].
  - destruct (index_symbol_ok fp b x Hb Hf) as (H1 & H2 & H3 & H4).
    destruct (IH _ H1 (H2 _ Hf)) as (H5 & H6 & H7 & H8).
    split; [exact H5|split; [exact (NodesMono_trans _ _ _ H2 H6)|split]].
    + intros s [<-|Hs]; [exact (H6 _ H3)|exact (H7 s Hs)].
    + now rewrite H8, H4.
Qed.

Lemma parseAndIndexFile_ok b fp :
  BaseInv b -> FprOk b -> BaseInv (parseAndIndexFile b fp) /\ FprOk (parseAndIndexFile b fp).
Proof.
  intros Hb Hfpr. unfold parseAndIndexFile.
  destruct (Str.is_blank fp); [auto|].
  destruct (readFile (path_resolve fp)) as [content|]; [|auto].
  destruct (Str.is_blank content); [auto|]. cbv zeta.
  set (pr := parseFileComplete fp (createSourceFile fp content)).
  set (b1 := mkBuilder _ _ _).
  destruct Hb as (Hnd & Hid & He).
  assert (Hb1 : BaseInv b1).
  { split; [now apply JsMap.NoDup_keys_set|split].
    - apply (JsMap.Forall_set (fun k n => id n = k)); [reflexivity|exact Hid].
    - intros e Hin. destruct (He e Hin). split; now apply has_set_mono. }
  assert (Hf1 : JsMap.has (file_id fp) (b_nodes b1) = true) by apply has_set_same.
  destruct (fold_index_ok fp (pr_symbols pr) b1 Hb1 Hf1) as (H1 & H2 & H3 & H4).
  split; [exact H1|].
  intros fp' pr' Hin. rewrite H4 in Hin. simpl in Hin.
  destruct (JsMap.In_set _ _ _ _ _ Hin) as [[-> ->]|Hold].
  - split; [exact (H2 _ Hf1)|split; [exact H3|apply parse_CallsOkPR]].
  - apply (EntryOk_mono (b_nodes b)); [|exact (Hfpr _ _ Hold)].
    intros k Hk. apply H2. simpl. now apply has_set_mono.
Qed.

Lemma fold_parse_ok files : forall b,
  BaseInv b -> FprOk b ->
  BaseInv (fold_left parseAndIndexFile files b) /\ FprOk (fold_left parseAndIndexFile files b).
Proof.
  induction files as [|x files IH]; intros b H1 H2; simpl; [auto|].
  destruct (parseAndIndexFile_ok b x H1 H2). apply IH; auto.
Qed.

(** Phase 2 adds edges only: the node map and the parse results stay. *)
Definition Phase2 (N : JsMap.t GraphNode) (F : JsMap.t ParseResult) (b : Builder) : Prop :=
  BaseInv b /\ b_nodes b = N /\ fileParseResults b = F.

Lemma import_edge_ok N F fp root b imp :
  JsMap.has (file_id fp) N = true -> Phase2 N F b -> Phase2 N F (import_edge fp root b imp).
Proof.
  intros Hf (Hb & HN & HF). unfold import_edge.
  destruct (resolveImportPath _ _ _ _) as [rp|]; [|split; auto].
  destruct (JsMap.has (file_id rp) (b_nodes b)) eqn:Ht; [|split; auto].
  destruct Hb as (Hnd & Hid & He).
  split; [|split; [exact HN|exact HF]]. split; [exact Hnd|split; [exact Hid|]].
  intros e Hin. simpl in Hin |- *. apply in_app_or in Hin as [Hin|[<-|[]]]; [now apply He|].
  simpl. rewrite HN. split; [exact Hf|now rewrite <- HN].
Qed.

Lemma call_edge_ok N F fp pr b c :
  EntryOk N fp pr -> In c (pr_calls pr) -> Phase2 N F b -> Phase2 N F (call_edge fp b c).
Proof.
  intros (Hf & Hs & Hc) Hin0 (Hb & HN & HF). unfold call_edge.
  destruct (findCallTarget _ _ _) as [t|]; [|split; auto].
  destruct (JsMap.has t (b_nodes b)) eqn:Ht; [|split; auto].
  destruct Hb as (Hnd & Hid & He).
  split; [|split; [exact HN|exact HF]]. split; [exact Hnd|split; [exact Hid|]].
  intros e Hin. simpl in Hin |- *. apply in_app_or in Hin as [Hin|[<-|[]]]; [now apply He|].
  simpl. split; [|exact Ht]. rewrite HN.
  destruct (callerFunction c) as [f|] eqn:Ec; [|exact Hf].
  destruct (String.eqb f ""); [exact Hf|].
  destruct (Hc c Hin0 f Ec) as (s & Hsin & Hn & Hk).
  specialize (Hs s Hsin). unfold symbol_id in Hs. rewrite Hn, Hk in Hs. exact Hs.
Qed.

Lemma build_file_edges_ok N F root b fp pr :
  EntryOk N fp pr -> Phase2 N F b -> Phase2 N F (build_file_edges root b (fp, pr)).
Proof.
  intros He Hp. unfold build_file_edges.
  assert (H1 : forall l b, Phase2 N F b -> Phase2 N F (fold_left (import_edge fp root) l b)).
  { induction l as [|x l IH]; intros b' H; simpl; auto.
    apply IH. apply import_edge_ok; auto. apply He. }
  assert (H2 : forall l b, (forall c, In c l -> In c (pr_calls pr)) ->
                 Phase2 N F b -> Phase2 N F (fold_left (call_edge fp) l b)).
  { induction l as [|x l IH]; intros b' Hl H; simpl; auto.
    apply IH; [intros c Hc; apply Hl; simpl; auto|].
    apply (call_edge_ok N F fp pr); auto. apply Hl; simpl; auto. }
  apply H2; auto.
Qed.

Lemma buildEdges_ok root b :
  BaseInv b -> FprOk b -> BaseInv (buildEdges root b).
Proof.
  intros Hb Hf. unfold buildEdges.
  assert (H : forall l b', (forall e, In e l -> In e (fileParseResults b)) ->
                Phase2 (b_nodes b) (fileParseResults b) b' ->
                Phase2 (b_nodes b) (fileParseResults b) (fold_left (build_file_edges root) l b')).
  { induction l as [|[fp pr] l IH]; intros b' Hl Hp; simpl; auto.
    apply IH; [intros e He; apply Hl; simpl; auto|].
    apply build_file_edges_ok; auto. apply Hf. apply Hl. simpl; auto. }
  refine (proj1 (H _ b _ _)); [auto|split; auto].
Qed.

Lemma keys_values_ids (m : JsMap.t GraphNode) :
  Forall (fun e => id (snd e) = fst e) m -> map id (JsMap.values m) = JsMap.keys m.
Proof.
  induction m as [|[k v] m IH]; intros H; [reflexivity|].
  inversion H as [|? ? Hk Hm]; subst. simpl in *. unfold JsMap.values, JsMap.keys in *.
  simpl. rewrite Hk, (IH Hm). reflexivity.
Qed.

(** *** Call targets stay in the calling file *)

Lemma findCallTarget_eq callee fp (nodes : JsMap.t GraphNode) :
  findCallTarget callee fp nodes =
  if JsMap.has ("function:" ++ fp ++ ":" ++ callee) nodes
  then Some ("function:" ++ fp ++ ":" ++ callee) else None.
Proof.
  unfold findCallTarget. cbv zeta.
  destruct (Str.has_char "." callee) eqn:Hd; [|reflexivity].
  rewrite (Str.split_head_join "." callee Hd).
  destruct (JsMap.has _ nodes); reflexivity.
Qed.

Definition NodeShape (nodes : JsMap.t GraphNode) : Prop :=
  Forall (fun e => exists P, path (snd e) = Some P /\
            (fst e = file_id P \/
             exists s, fst e = symbol_id P s /\ Str.colon_free (sym_name s) = true)) nodes.

Definition CallsShape (b : Builder) : Prop :=
  forall e, In e (b_edges b) -> etype e = Ecalls ->
    exists F callee, Str.colon_free callee = true /\
      target e = "function:" ++ F ++ ":" ++ callee /\
      (source e = file_id F \/
       exists f, Str.colon_free f = true /\ source e = "function:" ++ F ++ ":" ++ f).

Definition FprNames (b : Builder) : Prop :=
  forall fp pr, In (fp, pr) (fileParseResults b) ->
    (forall s, In s (pr_symbols pr) -> Str.colon_free (sym_name s) = true) /\
    (forall c, In c (pr_calls pr) -> Str.colon_free (calleeName c) = true) /\
    CallsOkPR pr.

Definition ShapeInv (b : Builder) : Prop := NodeShape (b_nodes b) /\ CallsShape b /\ FprNames b.

Lemma kind_str_colon_free k : Str.colon_free (kind_str k) = true.
Proof. destruct k; reflexivity. Qed.

Lemma index_symbol_shape fp b s :
  Str.colon_free (sym_name s) = true -> ShapeInv b -> ShapeInv (index_symbol fp b s).
Proof.
  intros Hs (Hn & Hc & Hf). split; [|split].
  - apply (JsMap.Forall_set (fun k n => exists P, path n = Some P /\
            (k = file_id P \/ exists s, k = symbol_id P s /\ Str.colon_free (sym_name s) = true)));
      [|exact Hn].
    exists fp. split; [reflexivity|]. right. exists s. auto.
  - intros e Hin He. simpl in Hin. apply in_app_or in Hin as [Hin|[<-|[]]]; [auto|discriminate].
  - exact Hf.
Qed.

Lemma parseAndIndexFile_shape b fp :
  (forall f c, names_ok (createSourceFile f c) = true) ->
  ShapeInv b -> ShapeInv (parseAndIndexFile b fp).
Proof.
  intros Hwf Hb. unfold parseAndIndexFile.
  destruct (Str.is_blank fp); [auto|].
  destruct (readFile (path_resolve fp)) as [content|]; [|auto].
  destruct (Str.is_blank content); [auto|]. cbv zeta.
  set (pr := parseFileComplete fp (createSourceFile fp content)).
  destruct (parse_names fp (createSourceFile fp content) (Hwf fp content)) as [Hs Hk].
  apply (fold_inv ShapeInv); [intros x Hx b' Hb'; apply index_symbol_shape; [exact (Hs x Hx)|exact Hb']|].
  destruct Hb as (Hn & Hc & Hf). split; [|split].
  - apply (JsMap.Forall_set (fun k n => exists P, path n = Some P /\
            (k = file_id P \/ exists s, k = symbol_id P s /\ Str.colon_free (sym_name s) = true)));
      [|exact Hn].
    exists fp. split; [reflexivity|left; reflexivity].
  - exact Hc.
  - intros fp' pr' Hin. simpl in Hin.
    destruct (JsMap.In_set _ _ _ _ _ Hin) as [[-> ->]|Hold]; [|exact (Hf _ _ Hold)].
    split; [exact Hs|split; [exact Hk|apply parse_CallsOkPR]].
Qed.

(** Phase 2 keeps the node map and the parse results: only [b_edges] grows. *)
Definition Phase2S (N : JsMap.t GraphNode) (F : JsMap.t ParseResult) (b : Builder) : Prop :=
  ShapeInv b /\ b_nodes b = N /\ fileParseResults b = F.

Lemma import_edge_shape N F fp root b imp :
  Phase2S N F b -> Phase2S N F (import_edge fp root b imp).
Proof.
  intros Hb. unfold import_edge.
  destruct (resolveImportPath _ _ _ _); [|exact Hb].
  destruct (JsMap.has _ _); [|exact Hb].
  destruct Hb as ((Hn & Hc & Hf) & HN & HF).
  split; [split; [exact Hn|split; [|exact Hf]]|auto].
  intros e Hin He. simpl in Hin. apply in_app_or in Hin as [Hin|[<-|[]]]; [auto|discriminate].
Qed.

Lemma call_edge_shape N F fp pr b c :
  In (fp, pr) F -> In c (pr_calls pr) -> Phase2S N F b ->
  Phase2S N F (call_edge fp b c).
Proof.
  intros Hpr Hcin Hb. unfold call_edge.
  rewrite findCallTarget_eq.
  destruct (JsMap.has _ (b_nodes b)) eqn:Ht; [|exact Hb].
  rewrite Ht.
  destruct Hb as ((Hn & Hcs & Hf) & HN & HF).
  subst F. destruct (Hf fp pr Hpr) as (Hsn & Hcn & Hok).
  split; [split; [exact Hn|split; [|exact Hf]]|auto].
  intros e Hin He. simpl in Hin. apply in_app_or in Hin as [Hin|[<-|[]]]; [auto|].
  exists fp, (calleeName c). split; [apply Hcn; auto|split; [reflexivity|]].
  simpl. destruct (callerFunction c) as [f|] eqn:Ecf; [|now left].
  destruct (String.eqb f ""); [now left|right].
  destruct (Hok c Hcin f Ecf) as (s & Hsin & <- & _).
  exists (sym_name s). split; [apply Hsn; auto|reflexivity].
Qed.

Lemma build_file_edges_shape N F root b fp pr :
  In (fp, pr) F -> Phase2S N F b -> Phase2S N F (build_file_edges root b (fp, pr)).
Proof.
  intros Hpr Hb. unfold build_file_edges.
  apply (fold_inv (Phase2S N F)); [intros c Hc b' Hb'; eapply call_edge_shape; eauto|].
  apply (fold_inv (Phase2S N F)); [intros i _ b' Hb'; apply import_edge_shape; auto|exact Hb].
Qed.

Lemma buildEdges_shape root b :
  ShapeInv b -> ShapeInv (buildEdges root b).
Proof.
  intros Hb. unfold buildEdges.
  refine (proj1 (fold_inv (Phase2S (b_nodes b) (fileParseResults b)) _ _ _ b _));
    [|split; auto].
  intros [fp pr] Hin b' Hb'. apply build_file_edges_shape; auto.
Qed.

Lemma app_prefix_inj (a x y : string) : a ++ x = a ++ y -> x = y.
Proof. induction a as [|c a IH]; simpl; [auto|]. intros H. injection H. auto. Qed.

Lemma shape_function_path (nodes : JsMap.t GraphNode) k n F x :
  NodeShape nodes -> In (k, n) nodes -> Str.colon_free x = true ->
  k = "function:" ++ F ++ ":" ++ x -> path n = Some F.
Proof.
  intros Hs Hin Hx ->. unfold NodeShape in Hs. rewrite Forall_forall in Hs.
  destruct (Hs _ Hin) as (P & Hp & [Hk|(s & Hk & Hn)]); simpl in Hk.
  - discriminate Hk.
  - unfold symbol_id in Hk.
    change ("function" ++ ":" ++ (F ++ ":" ++ x) =
            kind_str (sym_kind s) ++ ":" ++ (P ++ ":" ++ sym_name s)) in Hk.
    apply Str.colon_prefix_inj in Hk as [_ Hk]; [|reflexivity|apply kind_str_colon_free].
    apply Str.colon_suffix_inj in Hk as [-> _]; auto.
Qed.

Lemma shape_file_path (nodes : JsMap.t GraphNode) k n F :
  NodeShape nodes -> In (k, n) nodes -> k = file_id F -> path n = Some F.
Proof.
  intros Hs Hin ->. unfold NodeShape in Hs. rewrite Forall_forall in Hs.
  destruct (Hs _ Hin) as (P & Hp & [Hk|(s & Hk & Hn)]); simpl in Hk.
  - unfold file_id in Hk. apply (app_prefix_inj "file:") in Hk. now subst.
  - unfold symbol_id, file_id in Hk.
    change ("file" ++ ":" ++ F = kind_str (sym_kind s) ++ ":" ++ (P ++ ":" ++ sym_name s)) in Hk.
    apply Str.colon_prefix_inj in Hk as [Hk _]; [|reflexivity|apply kind_str_colon_free].
    destruct (sym_kind s); discriminate Hk.
Qed.

Lemma buildCompleteGraph_calls_same_file (projectRoot : string) (symbolFiles : list string) :
  (forall f c, names_ok (createSourceFile f c) = true) ->
  let g := buildCompleteGraph projectRoot symbolFiles in
  forall e, In e (edges g) -> etype e = Ecalls ->
    exists F, forall n, In n (nodes g) -> (id n = source e \/ id n = target e) -> path n = Some F.
Proof.
  intros Hwf. cbv zeta. unfold buildCompleteGraph. cbv zeta. simpl.
  assert (H0 : BaseInv empty_builder /\ FprOk empty_builder).
  { split; [split; [constructor|split; [constructor|intros e []]]|intros fp pr []]. }
  destruct (fold_parse_ok (dedup symbolFiles) empty_builder (proj1 H0) (proj2 H0)) as [H1 H2].
  destruct (buildEdges_ok projectRoot _ H1 H2) as (_ & Hid & _).
  assert (Hs0 : ShapeInv empty_builder).
  { split; [constructor|split; [intros e []|intros fp pr []]]. }
  assert (Hs1 := fold_inv ShapeInv parseAndIndexFile (dedup symbolFiles)
                   (fun x _ b Hb => parseAndIndexFile_shape b x Hwf Hb) _ Hs0).
  destruct (buildEdges_shape projectRoot _ Hs1) as (Hn & Hc & _).
  intros e He Ht. destruct (Hc e He Ht) as (F & callee & Hcf & Htg & Hsrc).
  exists F. intros n Hin Hid'.
  unfold JsMap.values in Hin. apply in_map_iff in Hin as [[k n'] [Hk Hkn]]. simpl in Hk. subst n'.
  assert (Hkid : id n = k).
  { rewrite Forall_forall in Hid. exact (Hid _ Hkn). }
  destruct Hid' as [Hs|Ht'].
  - destruct Hsrc as [Hf|(f & Hf & Hsf)].
    + apply (shape_file_path _ k n F Hn Hkn). congruence.
    + apply (shape_function_path _ k n F f Hn Hkn Hf). congruence.
  - apply (shape_function_path _ k n F callee Hn Hkn Hcf). congruence.
Qed.

Lemma buildCompleteGraph_wf (projectRoot : string) (symbolFiles : list string) :
  let g := buildCompleteGraph projectRoot symbolFiles in
  NoDup (map id (nodes g)) /\
  forall e, In e (edges g) -> In (source e) (map id (nodes g)) /\ In (target e) (map id (nodes g)).
Proof.
  cbv zeta. unfold buildCompleteGraph. cbv zeta. simpl.
  assert (H0 : BaseInv empty_builder /\ FprOk empty_builder).
  { split; [split; [constructor|split; [constructor|intros e []]]|intros fp pr []]. }
  destruct (fold_parse_ok (dedup symbolFiles) empty_builder (proj1 H0) (proj2 H0)) as [H1 H2].
  destruct (buildEdges_ok projectRoot _ H1 H2) as (Hnd & Hid & He).
  rewrite keys_values_ids by exact Hid.
  split; [exact Hnd|].
  intros e Hin. destruct (He e Hin) as [Hs Ht].
  split; apply JsMap.has_In; assumption.
Qed.

End Builder.

(** *** [loadGraph] and the query methods *)

(** The loop shared by [getCallersOf], [getCalleesOf], [getImportsOf] and
    [getImportersOf]: for each edge of type [t] whose end [sel] is [x], the
    node at its end [other], when the node map holds one. *)
Definition edge_query (t : EdgeType) (sel other : GraphEdge -> string) (b : Builder) (x : string)
  : list GraphNode :=
  fold_left (fun acc e =>
      if String.eqb (sel e) x && EdgeType_eqb (etype e) t then
        match JsMap.get (other e) (b_nodes b) with
        | Some node => (acc ++ [node])%list
        | None => acc
        end
      else acc) (b_edges b) [].

Definition getCallersOf (b : Builder) (symbolId : string) : list GraphNode :=
  edge_query Ecalls target source b symbolId.

Definition getCalleesOf (b : Builder) (symbolId : string) : list GraphNode :=
  edge_query Ecalls source target b symbolId.

Definition getImportsOf (b : Builder) (fileId : string) : list GraphNode :=
  edge_query Eimports source target b fileId.

Definition getImportersOf (b : Builder) (fileId : string) : list GraphNode :=
  edge_query Eimports target source b fileId.

(** [graph] is what [readJson] yields for [graph.json]: [None] for [null]
    (a missing file) and for a read or parse error, which is caught before
    any field is touched. *)
Definition loadGraph (b : Builder) (graph : option CodeGraph) : Builder * option CodeGraph :=
  match graph with
  | Some g =>
      (mkBuilder (fold_left (fun m node => JsMap.set (id node) node m) (nodes g) [])
                 (edges g) (fileParseResults b), Some g)
  | None => (b, None)
  end.

Lemma find_app_graph {A : Type} (f : A -> bool) l1 l2 :
  find f (l1 ++ l2)%list = match find f l1 with Some x => Some x | None => find f l2 end.
Proof.
  induction l1 as [|x l1 IH]; cbn; [reflexivity|]. destruct (f x); [reflexivity|exact IH].
Qed.

Lemma get_load_nodes ns : forall (m : JsMap.t GraphNode) k,
  JsMap.get k (fold_left (fun m node => JsMap.set (id node) node m) ns m) =
  match find (fun n => String.eqb (id n) k) (rev ns) with
  | Some n => Some n
  | None => JsMap.get k m
  end.
Proof.
  induction ns as [|n ns IH]; intros m k; [reflexivity|].
  cbn [fold_left rev]. rewrite IH, find_app_graph, JsMap.get_set.
  destruct (find _ (rev ns)); [reflexivity|]. cbn.
  destruct (String.eqb_spec k (id n)), (String.eqb_spec (id n) k); congruence.
Qed.

Lemma edge_query_spec t sel other b x :
  (forall e, In e (b_edges b) -> sel e = x -> etype e = t ->
     exists n, JsMap.get (other e) (b_nodes b) = Some n /\ id n = other e) ->
  map id (edge_query t sel other b x) =
  map other (filter (fun e => String.eqb (sel e) x && EdgeType_eqb (etype e) t) (b_edges b)).
Proof.
  unfold edge_query. intros H.
  assert (G : forall es (acc : list GraphNode), (forall e, In e es -> In e (b_edges b)) ->
    map id (fold_left (fun acc e =>
      if String.eqb (sel e) x && EdgeType_eqb (etype e) t then
        match JsMap.get (other e) (b_nodes b) with
        | Some node => (acc ++ [node])%list
        | None => acc
        end
      else acc) es acc) =
    (map id acc ++ map other (filter (fun e => String.eqb (sel e) x && EdgeType_eqb (etype e) t) es))%list).
  { induction es as [|e es IH]; intros acc Hes; cbn [fold_left filter map].
    - symmetry. apply app_nil_r.
    - destruct (String.eqb_spec (sel e) x) as [Hs|]; cbn [andb];
        [|apply IH; intros e' He'; apply Hes; right; exact He'].
      destruct (EdgeType_eqb (etype e) t) eqn:Et;
        [|apply IH; intros e' He'; apply Hes; right; exact He'].
      assert (Ht : etype e = t) by (destruct (etype e), t; try discriminate; reflexivity).
      destruct (H e (Hes e (or_introl eq_refl)) Hs Ht) as (n & Hn & Hid).
      rewrite Hn, IH by (intros e' He'; apply Hes; right; exact He').
      rewrite map_app, <- app_assoc. cbn. rewrite Hid. reflexivity. }
  rewrite G by auto. reflexivity.
Qed.

(** After [loadGraph] of a graph whose edge ends are all node ids, every
    end has its node in the map. *)
Lemma loadGraph_ends b g e :
  (forall e, In e (edges g) -> In (source e) (map id (nodes g)) /\ In (target e) (map id (nodes g))) ->
  In e (b_edges (fst (loadGraph b (Some g)))) ->
  forall end_, (end_ = source e \/ end_ = target e) ->
  exists n, JsMap.get end_ (b_nodes (fst (loadGraph b (Some g)))) = Some n /\ id n = end_ /\
            In n (nodes g).
Proof.
  intros Hg He end_ Hend. cbn [loadGraph fst b_nodes b_edges] in *.
  rewrite get_load_nodes.
  assert (Hin : In end_ (map id (nodes g))) by (destruct (Hg e He), Hend; subst; assumption).
  destruct (find (fun n => String.eqb (id n) end_) (rev (nodes g))) as [n|] eqn:Ef.
  - apply find_some in Ef as [Hn Hid]. apply String.eqb_eq in Hid.
    exists n. split; [reflexivity|split; [exact Hid|apply in_rev; exact Hn]].
  - exfalso. apply in_map_iff in Hin as (n & Hid & Hn).
    assert (Hn' : In n (rev (nodes g))) by (rewrite <- in_rev; exact Hn).
    apply (find_none _ _ Ef n) in Hn'.
    rewrite Hid, String.eqb_refl in Hn'. discriminate.
Qed.

End Graph.

(** ** A two-file project: [a.ts] calls [helper], defined only in [b.ts] *)
Module GraphExample.
Import TsParser Graph.

Definition a_src : string :=
  "import { helper } from './b'; export function main() { helper(); }".
Definition b_src : string :=
  "function fmt() {} export function helper() { fmt(); console.log(1); }".

(** The ASTs [ts.createSourceFile] yields for the two sources. *)
Definition a_ast : TsNode :=
  OtherNode
    [ ImportDeclaration (Some "./b") (Some (mkClause None (Some (NamedImports ["helper"]))));
      FunctionDeclaration (Some "main") true
        [OtherNode [CallExpression (Identifier "helper") []]] ].

Definition b_ast : TsNode :=
  OtherNode
    [ FunctionDeclaration (Some "fmt") false [];
      FunctionDeclaration (Some "helper") true
        [ OtherNode [CallExpression (Identifier "fmt") []];
          OtherNode [CallExpression (PropertyAccessExpression (Identifier "console") "log") []] ] ].

Definition ex_createSourceFile (_ content : string) : TsNode :=
  if String.eqb content a_src then a_ast
  else if String.eqb content b_src then b_ast
  else OtherNode [].

Definition ex_readFile (p : string) : option string :=
  if String.eqb p "a.ts" then Some a_src
  else if String.eqb p "b.ts" then Some b_src
  else None.

(** [node:path] with the project root as working directory and both files at the root. *)
Definition ex_resolve (p : string) : string := p.
Definition ex_dirname (_ : string) : string := "".
Definition ex_resolve2 (_ p : string) : string :=
  if String.prefix "./" p then substring 2 (String.length p - 2) p else p.
Definition ex_relative (_ p : string) : string := p.

Definition ex_graph : CodeGraph :=
  buildCompleteGraph ex_readFile ex_resolve ex_resolve2 ex_dirname ex_relative
    ex_createSourceFile "" ["a.ts"; "b.ts"].

Definition has_edge (g : CodeGraph) (src tgt : string) (t : EdgeType) : bool :=
  existsb (fun e => String.eqb (source e) src && String.eqb (target e) tgt &&
                    EdgeType_eqb (etype e) t) (edges g).

Lemma ex_createSourceFile_names f c : names_ok (ex_createSourceFile f c) = true.
Proof.
  unfold ex_createSourceFile.
  destruct (String.eqb c a_src); [reflexivity|].
  destruct (String.eqb c b_src); reflexivity.
Qed.

End GraphExample.

(** ** JS arrays: [arr.slice(0, k)] for an integer [k]. A negative end counts
    from the end of the array; an end past the length stops at the length. *)
Module JsArray.

Definition slice0 {A : Type} (l : list A) (k : Z) : list A :=
  firstn (Z.to_nat (if (k <? 0)%Z then Z.max 0 (Z.of_nat (length l) + k) else k)) l.

Lemma slice0_nonneg {A : Type} (l : list A) (k : Z) :
  (0 <= k)%Z -> slice0 l k = firstn (Z.to_nat k) l.
Proof. intros Hk. unfold slice0. destruct (Z.ltb_spec k 0); [lia|reflexivity]. Qed.

Lemma slice0_length {A : Type} (l : list A) (k : Z) :
  length (slice0 l k) =
  Nat.min (Z.to_nat (if (k <? 0)%Z then Z.max 0 (Z.of_nat (length l) + k) else k)) (length l).
Proof. unfold slice0. apply length_firstn. Qed.

End JsArray.

(** ** [cosineSim] and [InMemoryVectorStore] (src/src/rag/ragEngine.ts) *)
Module Vectors.
Local Open Scope R_scope.

Record VectorRecord := mkRecord { rec_id : string; rec_text : string; vector : list R }.

(** [Document] of ragEngine.ts; [metadata] is copied through and left out. *)
Record Document := mkDocument { doc_id : string; doc_text : string }.

(** JS [x / y]. [None] where JS would give a non-finite number. *)
Definition js_div (x y : R) : option R :=
  if Req_dec_T y 0 then None else Some (x / y).

(** One iteration of the loop of [cosineSim]: [a[i]] and [b[i]] are read
    with a bounds check; [None] marks a read past the end (an [undefined]
    that would turn the sums into [NaN]). *)
Definition cos_step (a b : list R) (acc : option (R * R * R)) (i : nat) : option (R * R * R) :=
  match acc, nth_error a i, nth_error b i with
  | Some (dot, na, nb), Some x, Some y => Some (dot + x * y, na + x * x, nb + y * y)
  | _, _, _ => None
  end.

Definition cosineSim (a b : list R) : option R :=
  let min := Nat.min (length a) (length b) in
  match fold_left (cos_step a b) (seq 0 min) (Some (0, 0, 0)) with
  | Some (dot, na, nb) => js_div dot (sqrt na * sqrt nb + 1e-9)
  | None => None
  end.

(** [scored.sort((a, b) => b.score - a.score)]: a stable sort (ES2019),
    highest score first, ties in their original order. *)
Fixpoint insert_desc {A : Type} (x : A * R) (l : list (A * R)) : list (A * R) :=
  match l with
  | [] => [x]
  | y :: r => if Rlt_dec (snd y) (snd x) then x :: l else y :: insert_desc x r
  end.

Definition sort_desc {A : Type} (l : list (A * R)) : list (A * R) :=
  fold_left (fun acc x => insert_desc x acc) l [].

Fixpoint all_some {A : Type} (l : list (option A)) : option (list A) :=
  match l with
  | [] => Some []
  | None :: _ => None
  | Some x :: r => match all_some r with Some xs => Some (x :: xs) | None => None end
  end.

(** [InMemoryVectorStore.query]. *)
Definition query (records : list VectorRecord) (v : list R) (k : Z)
  : option (list VectorRecord) :=
  match all_some (map (fun r => match cosineSim v (vector r) with
                                | Some s => Some (r, s)
                                | None => None
                                end) records) with
  | Some scored => Some (map fst (JsArray.slice0 (sort_desc scored) k))
  | None => None
  end.

Definition to_document (r : VectorRecord) : Document := mkDocument (rec_id r) (rec_text r).

Section Engine.

(** The embedder: [embed] threads the state of its source of randomness or
    of its server connection. *)
Variable ES : Type.
Variable embed : ES -> list string -> ES * list (list R).

(** [RagEngine.search] over a store holding [records]. An embedder that
    returns no vector leaves [qv] undefined, and [cosineSim] then throws:
    [None]. *)
Definition search (records : list VectorRecord) (q : string) (k : Z) (es : ES)
  : ES * option (list Document) :=
  let '(es', vs) := embed es [q] in
  match vs with
  | qv :: _ => (es', option_map (map to_document) (query records qv k))
  | [] => (es', None)
  end.

End Engine.

(** *** Totality of [cosineSim] *)

Lemma cos_fold_some a b start len : forall t,
  (start + len <= length a)%nat -> (start + len <= length b)%nat ->
  exists t', fold_left (cos_step a b) (seq start len) (Some t) = Some t'.
Proof.
  revert start. induction len as [|len IH]; intros start t Ha Hb; cbn [seq fold_left]; [eauto|].
  destruct (nth_error a start) as [x|] eqn:Ex;
    [|apply nth_error_None in Ex; lia].
  destruct (nth_error b start) as [y|] eqn:Ey;
    [|apply nth_error_None in Ey; lia].
  destruct t as [[dot na] nb]. unfold cos_step at 2. rewrite Ex, Ey.
  apply IH; lia.
Qed.

Lemma cosine_denominator_pos na nb : 0 < sqrt na * sqrt nb + 1e-9.
Proof.
  pose proof (sqrt_pos na). pose proof (sqrt_pos nb).
  pose proof (Rmult_le_pos _ _ H H0). lra.
Qed.

Lemma cosineSim_value a b :
  exists dot na nb,
    fold_left (cos_step a b) (seq 0 (Nat.min (length a) (length b))) (Some (0, 0, 0))
      = Some (dot, na, nb) /\
    cosineSim a b = Some (dot / (sqrt na * sqrt nb + 1e-9)).
Proof.
  destruct (cos_fold_some a b 0 (Nat.min (length a) (length b)) (0, 0, 0)) as [[[dot na] nb] H];
    [lia|lia|].
  exists dot, na, nb. split; [exact H|].
  unfold cosineSim. cbv zeta. rewrite H. unfold js_div.
  destruct (Req_dec_T _ 0) as [E|_]; [|reflexivity].
  pose proof (cosine_denominator_pos na nb). lra.
Qed.

Lemma cos_fold_ext a b a' b' start len : forall acc,
  (forall i, (start <= i < start + len)%nat ->
     nth_error a i = nth_error a' i /\ nth_error b i = nth_error b' i) ->
  fold_left (cos_step a b) (seq start len) acc = fold_left (cos_step a' b') (seq start len) acc.
Proof.
  revert start. induction len as [|len IH]; intros start acc H; cbn [seq fold_left]; [reflexivity|].
  destruct (H start) as [Ha Hb]; [lia|].
  unfold cos_step at 2 4. rewrite Ha, Hb.
  apply IH. intros i Hi. apply H. lia.
Qed.

Lemma cosineSim_firstn a b :
  let m := Nat.min (length a) (length b) in
  cosineSim a b = cosineSim (firstn m a) (firstn m b).
Proof.
  cbv zeta. unfold cosineSim. cbv zeta.
  rewrite !length_firstn.
  replace (Nat.min (Nat.min (Nat.min (length a) (length b)) (length a))
                   (Nat.min (Nat.min (length a) (length b)) (length b)))
    with (Nat.min (length a) (length b)) by lia.
  rewrite (cos_fold_ext a b (firstn (Nat.min (length a) (length b)) a)
                            (firstn (Nat.min (length a) (length b)) b)); [reflexivity|].
  intros i Hi. rewrite !nth_error_firstn.
  destruct (Nat.ltb_spec i (Nat.min (length a) (length b))); [auto|lia].
Qed.

Lemma cos_fold_none a b l : fold_left (cos_step a b) l None = None.
Proof. induction l as [|i l IH]; simpl; auto. Qed.

Lemma cos_fold_zero a b start len : forall na nb,
  Forall (fun x => x = 0) a ->
  exists na' nb',
    fold_left (cos_step a b) (seq start len) (Some (0, na, nb)) = Some (0, na', nb') \/
    fold_left (cos_step a b) (seq start len) (Some (0, na, nb)) = None.
Proof.
  revert start. induction len as [|len IH]; intros start na nb Hz; cbn [seq fold_left]; [eauto|].
  unfold cos_step at 2 4.
  destruct (nth_error a start) as [x|] eqn:Ex; [|exists 0, 0; right; apply cos_fold_none].
  destruct (nth_error b start) as [y|] eqn:Ey; [|exists 0, 0; right; apply cos_fold_none].
  assert (x = 0) as ->.
  { rewrite Forall_forall in Hz. apply Hz. eapply nth_error_In. exact Ex. }
  replace (0 + 0 * y) with 0 by ring. apply IH. exact Hz.
Qed.

Lemma cosineSim_zero_l a b : Forall (fun x => x = 0) a -> cosineSim a b = Some 0.
Proof.
  intros Hz. destruct (cosineSim_value a b) as (dot & na & nb & Hf & ->).
  destruct (cos_fold_zero a b 0 (Nat.min (length a) (length b)) 0 0 Hz) as (na' & nb' & [H|H]);
    rewrite Hf in H; [|discriminate].
  injection H as -> _ _. f_equal. unfold Rdiv. ring.
Qed.

Lemma cos_step_swap a b : forall l dot na nb,
  fold_left (cos_step a b) l (Some (dot, na, nb)) =
  option_map (fun t => let '(d, x, y) := t in (d, y, x))
    (fold_left (cos_step b a) l (Some (dot, nb, na))).
Proof.
  induction l as [|i l IH]; intros dot na nb; cbn [fold_left]; [reflexivity|].
  unfold cos_step at 2 4.
  destruct (nth_error a i) as [x|]; destruct (nth_error b i) as [y|]; simpl;
    rewrite ?cos_fold_none; try reflexivity.
  rewrite IH. replace (dot + y * x) with (dot + x * y) by ring. reflexivity.
Qed.

Lemma cosineSim_zero_r a b : Forall (fun x => x = 0) b -> cosineSim a b = Some 0.
Proof.
  intros Hz. destruct (cosineSim_value a b) as (dot & na & nb & Hf & ->).
  rewrite cos_step_swap, Nat.min_comm in Hf.
  destruct (cos_fold_zero b a 0 (Nat.min (length b) (length a)) 0 0 Hz) as (na' & nb' & [H|H]);
    rewrite H in Hf; simpl in Hf; [|discriminate].
  injection Hf as <- _ _. f_equal. unfold Rdiv. ring.
Qed.

Lemma all_some_map {A B : Type} (f : A -> option B) (l : list A) :
  (forall x, In x l -> exists y, f x = Some y) ->
  exists ys, all_some (map f l) = Some ys /\ length ys = length l.
Proof.
  induction l as [|x l IH]; intros H; simpl; [exists []; auto|].
  destruct (H x (or_introl eq_refl)) as [y ->].
  destruct IH as [ys [-> Hl]]; [intros z Hz; apply H; simpl; auto|].
  exists (y :: ys). simpl. auto.
Qed.

Lemma query_some records v k :
  exists scored, length scored = length records /\
    query records v k = Some (map fst (JsArray.slice0 (sort_desc scored) k)).
Proof.
  unfold query.
  destruct (all_some_map (fun r => match cosineSim v (vector r) with
                                   | Some s => Some (r, s) | None => None end) records)
    as [ys [-> Hl]].
  - intros r _. destruct (cosineSim_value v (vector r)) as (? & ? & ? & _ & ->). eauto.
  - exists ys. auto.
Qed.

Lemma insert_desc_length {A : Type} (x : A * R) l : length (insert_desc x l) = S (length l).
Proof.
  induction l as [|y l IH]; simpl; [reflexivity|].
  destruct (Rlt_dec _ _); simpl; auto.
Qed.

Lemma sort_desc_length {A : Type} (l : list (A * R)) : length (sort_desc l) = length l.
Proof.
  unfold sort_desc.
  assert (H : forall (l : list (A * R)) acc,
            length (fold_left (fun acc x => insert_desc x acc) l acc) = (length l + length acc)%nat).
  { clear l. intros l. induction l as [|x l IH]; intros acc; simpl; [reflexivity|].
    rewrite IH, insert_desc_length. lia. }
  rewrite H. simpl. lia.
Qed.

(** *** [InMemoryVectorStore.upsertMany] *)

(** [Array.prototype.findIndex]: the index of the first element satisfying
    [p], or [-1]. *)
Fixpoint findIndex {A : Type} (p : A -> bool) (l : list A) : Z :=
  match l with
  | [] => (-1)%Z
  | x :: r =>
      if p x then 0%Z
      else let i := findIndex p r in if (i <? 0)%Z then (-1)%Z else (i + 1)%Z
  end.

(** [this.records[idx] = rec]; [idx] comes from [findIndex] and is in range. *)
Fixpoint set_nth {A : Type} (n : nat) (x : A) (l : list A) : list A :=
  match n, l with
  | _, [] => []
  | O, _ :: r => x :: r
  | S n', y :: r => y :: set_nth n' x r
  end.

(** One iteration of the loop of [upsertMany]: replace the first record
    with the same id, or push. *)
Definition upsert_one (records : list VectorRecord) (rec : VectorRecord) : list VectorRecord :=
  let idx := findIndex (fun r => String.eqb (rec_id r) (rec_id rec)) records in
  if (idx >=? 0)%Z then set_nth (Z.to_nat idx) rec records else (records ++ [rec])%list.

Definition upsertMany (records batch : list VectorRecord) : list VectorRecord :=
  fold_left upsert_one batch records.

Lemma findIndex_cases {A : Type} (p : A -> bool) l :
  (findIndex p l = (-1)%Z /\ forallb (fun y => negb (p y)) l = true) \/
  (exists pre x post, l = (pre ++ x :: post)%list /\ forallb (fun y => negb (p y)) pre = true /\
     p x = true /\ findIndex p l = Z.of_nat (length pre)).
Proof.
  induction l as [|y l IH]; cbn [findIndex forallb]; [left; auto|].
  destruct (p y) eqn:Py.
  - right. exists [], y, l. auto.
  - destruct IH as [[-> Hf]|(pre & x & post & -> & Hf & Px & ->)].
    + left. rewrite Hf. auto.
    + right. exists (y :: pre), x, post. cbn [forallb length]. rewrite Py, Hf.
      destruct (Z.ltb_spec (Z.of_nat (length pre)) 0); [lia|]. repeat split; auto. lia.
Qed.

Lemma set_nth_app {A : Type} (pre post : list A) (x y : A) :
  set_nth (length pre) y (pre ++ x :: post)%list = (pre ++ y :: post)%list.
Proof. induction pre as [|z pre IH]; cbn; [reflexivity|]. rewrite IH. reflexivity. Qed.

Lemma upsert_one_cases l rec :
  (forallb (fun r => negb (String.eqb (rec_id r) (rec_id rec))) l = true /\
   upsert_one l rec = (l ++ [rec])%list) \/
  (exists pre x post, l = (pre ++ x :: post)%list /\
     forallb (fun r => negb (String.eqb (rec_id r) (rec_id rec))) pre = true /\
     rec_id x = rec_id rec /\ upsert_one l rec = (pre ++ rec :: post)%list).
Proof.
  unfold upsert_one.
  destruct (findIndex_cases (fun r => String.eqb (rec_id r) (rec_id rec)) l)
    as [[-> Hf]|(pre & x & post & -> & Hf & Px & ->)].
  - left. split; [exact Hf|reflexivity].
  - right. exists pre, x, post. apply String.eqb_eq in Px. repeat split; auto.
    destruct (Z.geb_spec (Z.of_nat (length pre)) 0); [|lia].
    rewrite Nat2Z.id. apply set_nth_app.
Qed.

Lemma find_app_l {A : Type} (f : A -> bool) l1 l2 :
  find f (l1 ++ l2)%list = match find f l1 with Some x => Some x | None => find f l2 end.
Proof.
  induction l1 as [|x l1 IH]; cbn; [reflexivity|]. destruct (f x); [reflexivity|exact IH].
Qed.

Lemma find_id_none l i :
  forallb (fun r => negb (String.eqb (rec_id r) i)) l = true ->
  find (fun r => String.eqb (rec_id r) i) l = None.
Proof.
  induction l as [|r l IH]; cbn; [reflexivity|].
  destruct (String.eqb (rec_id r) i); cbn; [discriminate|exact IH].
Qed.

Lemma upsert_one_find l rec i :
  find (fun r => String.eqb (rec_id r) i) (upsert_one l rec) =
  if String.eqb (rec_id rec) i then Some rec else find (fun r => String.eqb (rec_id r) i) l.
Proof.
  destruct (upsert_one_cases l rec) as [[Hf ->]|(pre & x & post & -> & Hf & Hx & ->)];
    rewrite !find_app_l; destruct (String.eqb_spec (rec_id rec) i) as [<-|Hne].
  - rewrite (find_id_none _ _ Hf). cbn. rewrite String.eqb_refl. reflexivity.
  - destruct (find _ l); [reflexivity|]. cbn.
    destruct (String.eqb_spec (rec_id rec) i); [contradiction|reflexivity].
  - rewrite (find_id_none _ _ Hf). cbn. rewrite String.eqb_refl. reflexivity.
  - destruct (find _ pre); [reflexivity|]. cbn. rewrite Hx.
    destruct (String.eqb_spec (rec_id rec) i); [contradiction|reflexivity].
Qed.

Lemma upsertMany_find batch : forall records i,
  find (fun r => String.eqb (rec_id r) i) (upsertMany records batch) =
  match find (fun r => String.eqb (rec_id r) i) (rev batch) with
  | Some r => Some r
  | None => find (fun r => String.eqb (rec_id r) i) records
  end.
Proof.
  unfold upsertMany.
  induction batch as [|b batch IH]; intros records i; [reflexivity|].
  cbn [fold_left rev]. rewrite IH, upsert_one_find, find_app_l.
  destruct (find _ (rev batch)); [reflexivity|]. cbn.
  destruct (String.eqb (rec_id b) i); reflexivity.
Qed.

Lemma upsert_one_ids l rec :
  NoDup (map rec_id l) ->
  NoDup (map rec_id (upsert_one l rec)) /\
  (map rec_id (upsert_one l rec) = map rec_id l \/
   map rec_id (upsert_one l rec) = (map rec_id l ++ [rec_id rec])%list).
Proof.
  intros Hnd.
  destruct (upsert_one_cases l rec) as [[Hf ->]|(pre & x & post & -> & Hf & Hx & ->)].
  - rewrite map_app. cbn [map]. split; [|right; reflexivity].
    apply (Permutation_NoDup (Permutation_cons_append _ _)). constructor; [|exact Hnd].
    intros Hin. apply in_map_iff in Hin as (r & Hr & Hin).
    rewrite forallb_forall in Hf. specialize (Hf r Hin).
    rewrite Hr, String.eqb_refl in Hf. discriminate.
  - rewrite !map_app. cbn [map]. rewrite map_app in Hnd. cbn [map] in Hnd. rewrite Hx in Hnd.
    split; [exact Hnd|left; rewrite Hx; reflexivity].
Qed.

Lemma upsertMany_ids batch : forall records,
  NoDup (map rec_id records) ->
  NoDup (map rec_id (upsertMany records batch)) /\
  exists added, map rec_id (upsertMany records batch) = (map rec_id records ++ added)%list.
Proof.
  unfold upsertMany.
  induction batch as [|b batch IH]; intros records Hnd; cbn [fold_left].
  - split; [exact Hnd|exists []; symmetry; apply app_nil_r].
  - destruct (upsert_one_ids records b Hnd) as [Hnd' Hpre].
    destruct (IH _ Hnd') as [H1 [added H2]]. split; [exact H1|].
    destruct Hpre as [E|E]; rewrite E in H2.
    + exists added. exact H2.
    + exists (rec_id b :: added). rewrite H2, <- app_assoc. reflexivity.
Qed.

Lemma strongly_app {A : Type} (Rel : A -> A -> Prop) l1 l2 :
  StronglySorted Rel (l1 ++ l2)%list ->
  StronglySorted Rel l1 /\ forall x y, In x l1 -> In y l2 -> Rel x y.
Proof.
  induction l1 as [|z l1 IH]; cbn [app]; intros Hs.
  - split; [constructor|intros x y []].
  - apply StronglySorted_inv in Hs as [Hs Hf]. destruct (IH Hs) as [H1 H2].
    apply Forall_app in Hf as [Hf1 Hf2]. split; [constructor; assumption|].
    intros x y [<-|Hx] Hy; [|auto]. rewrite Forall_forall in Hf2. auto.
Qed.

End Vectors.

(** ** [cosineSim] on binary64 numbers

    JavaScript numbers are IEEE 754 binary64 values; this module models
    [cosineSim] with Rocq's primitive floats, whose operations are specified
    by [SpecFloat] (round to nearest, ties to even). *)
Module VectorsF.
Import Floats.

(** Binary64 values [>= +0]: [+0], positive finite numbers and [+Infinity]. *)
Definition nonneg_sf (f : spec_float) : Prop :=
  f = S754_zero false \/ f = S754_infinity false \/ exists m e, f = S754_finite false m e.

Lemma shr_1_div2 mrs : (0 <= shr_m mrs)%Z -> shr_m (shr_1 mrs) = Z.div2 (shr_m mrs).
Proof. destruct mrs as [[|[p|p|]|p] r s]; cbn; intros H; try reflexivity; lia. Qed.

Lemma pow2_xO p : (2 ^ Zpos (xO p) = 2 ^ Zpos p * 2 ^ Zpos p)%Z.
Proof. rewrite <- Z.pow_add_r by lia. f_equal. lia. Qed.

Lemma pow2_xI p : (2 ^ Zpos (xI p) = 2 * (2 ^ Zpos p * 2 ^ Zpos p))%Z.
Proof. rewrite <- Z.pow_add_r, <- Z.pow_succ_r by lia. f_equal. lia. Qed.

Lemma iter_shr_1 p : forall mrs, (0 <= shr_m mrs)%Z ->
  shr_m (iter_pos shr_1 p mrs) = (shr_m mrs / 2 ^ Zpos p)%Z.
Proof.
  induction p as [p IH|p IH|]; intros mrs H; cbn [iter_pos].
  - assert (H1 : (0 <= shr_m (shr_1 mrs))%Z) by (rewrite shr_1_div2, Z.div2_div; [apply Z.div_pos|]; lia).
    assert (H2 : (0 <= shr_m (iter_pos shr_1 p (shr_1 mrs)))%Z)
      by (rewrite IH by exact H1; apply Z.div_pos; [exact H1|apply Z.pow_pos_nonneg; lia]).
    rewrite IH by exact H2. rewrite IH by exact H1. rewrite shr_1_div2, Z.div2_div by exact H.
    rewrite !Z.div_div by (try apply Z.pow_pos_nonneg; lia).
    f_equal. rewrite pow2_xI. ring.
  - assert (H2 : (0 <= shr_m (iter_pos shr_1 p mrs))%Z)
      by (rewrite IH by exact H; apply Z.div_pos; [exact H|apply Z.pow_pos_nonneg; lia]).
    rewrite IH by exact H2. rewrite IH by exact H.
    rewrite !Z.div_div by (try apply Z.pow_pos_nonneg; lia).
    f_equal. rewrite pow2_xO. reflexivity.
  - rewrite shr_1_div2, Z.div2_div by exact H. reflexivity.
Qed.

Lemma shr_spec mrs e n : (0 <= shr_m mrs)%Z ->
  shr_m (fst (shr mrs e n)) = (shr_m mrs / 2 ^ Z.max 0 n)%Z /\ snd (shr mrs e n) = Z.max e (e + n).
Proof.
  intros H. destruct n as [|p|p]; cbn [shr fst snd].
  - split; [rewrite Z.div_1_r; reflexivity|lia].
  - rewrite iter_shr_1 by exact H. split; [reflexivity|lia].
  - split; [rewrite Z.div_1_r; reflexivity|lia].
Qed.

Lemma shr_record_of_loc_m m l : shr_m (shr_record_of_loc m l) = m.
Proof. destruct l as [|[]]; reflexivity. Qed.

Lemma round_nearest_even_le mx lx : (0 <= mx)%Z ->
  (mx <= round_nearest_even mx lx <= mx + 1)%Z.
Proof. intros H. destruct lx as [|[]]; cbn; try lia. destruct (Z.even mx); lia. Qed.

Lemma digits2_pos_bounds p :
  (2 ^ (Zpos (digits2_pos p) - 1) <= Zpos p < 2 ^ Zpos (digits2_pos p))%Z.
Proof.
  induction p as [p IH|p IH|]; cbn [digits2_pos]; [| |cbn; lia];
    rewrite Pos2Z.inj_succ;
    replace (Z.succ (Zpos (digits2_pos p)) - 1)%Z with (Zpos (digits2_pos p)) by lia;
    rewrite Z.pow_succ_r by lia;
    assert (E : (2 ^ Zpos (digits2_pos p) = 2 * 2 ^ (Zpos (digits2_pos p) - 1))%Z)
      by (rewrite <- Z.pow_succ_r by lia; f_equal; lia);
    lia.
Qed.

Lemma Zdigits2_lt z : (0 <= z)%Z -> (z < 2 ^ Zdigits2 z)%Z.
Proof. destruct z as [|p|p]; intros H; cbn [Zdigits2]; [cbn; lia|apply digits2_pos_bounds|lia]. Qed.

Lemma Zdigits2_le z k : (0 <= z)%Z -> (0 <= k)%Z -> (z < 2 ^ k)%Z -> (Zdigits2 z <= k)%Z.
Proof.
  destruct z as [|p|p]; intros H Hk Hz; cbn [Zdigits2]; [lia| |lia].
  destruct (Z.le_gt_cases (Zpos (digits2_pos p)) k) as [|Hgt]; [assumption|].
  pose proof (digits2_pos_bounds p) as [Hlo _].
  assert (2 ^ k <= 2 ^ (Zpos (digits2_pos p) - 1))%Z by (apply Z.pow_le_mono_r; lia). lia.
Qed.

Lemma Zdigits2_nonneg z : (0 <= Zdigits2 z)%Z.
Proof. destruct z; cbn; lia. Qed.

Section Round.
Variables prec emax : Z.
Hypothesis Hprec : (0 < prec)%Z.

Lemma fexp_mono x y : (x <= y)%Z -> (SpecFloat.fexp prec emax x <= SpecFloat.fexp prec emax y)%Z.
Proof. unfold SpecFloat.fexp. lia. Qed.

(** Rounding a non-negative mantissa: the result is [>= +0] and its
    exponent is at most [max ex (digits + ex + 1 - prec) emin]. *)
Lemma shr_fexp_spec m e l : (0 <= m)%Z ->
  let r := shr_fexp prec emax m e l in
  (0 <= shr_m (fst r))%Z /\
  snd r = Z.max e (SpecFloat.fexp prec emax (Zdigits2 m + e)) /\
  (shr_m (fst r) = m /\ snd r = e \/
   (e < snd r)%Z /\ shr_m (fst r) = (m / 2 ^ (snd r - e))%Z).
Proof.
  intros Hm. cbv zeta. unfold shr_fexp.
  set (n := (SpecFloat.fexp prec emax (Zdigits2 m + e) - e)%Z).
  assert (H0 : (0 <= shr_m (shr_record_of_loc m l))%Z) by (rewrite shr_record_of_loc_m; exact Hm).
  destruct (shr_spec (shr_record_of_loc m l) e n H0) as [E1 E2].
  rewrite shr_record_of_loc_m in E1. rewrite E1, E2.
  split; [apply Z.div_pos; [exact Hm|apply Z.pow_pos_nonneg; lia]|].
  split; [unfold n; lia|].
  destruct (Z.le_gt_cases n 0) as [Hn|Hn].
  - left. rewrite Z.max_l by lia. rewrite Z.div_1_r. split; [reflexivity|lia].
  - right. rewrite Z.max_r by lia. split; [lia|]. f_equal. f_equal. lia.
Qed.

Lemma binary_round_aux_spec sx mx ex lx : (0 <= mx)%Z ->
  binary_round_aux prec emax sx mx ex lx = S754_zero sx \/
  (exists m e, binary_round_aux prec emax sx mx ex lx = S754_finite sx m e) \/
  (binary_round_aux prec emax sx mx ex lx = S754_infinity sx /\
   (emax - prec < Z.max (Z.max ex (Zdigits2 mx + ex + 1 - prec)) (SpecFloat.emin prec emax))%Z).
Proof.
  intros Hm. unfold binary_round_aux.
  pose proof (shr_fexp_spec mx ex lx Hm) as (Hp1 & He1 & Hc1). cbv zeta in Hp1, He1, Hc1.
  destruct (shr_fexp prec emax mx ex lx) as [mrs1 e1] eqn:E1. cbn [fst snd] in *.
  set (m2 := round_nearest_even (shr_m mrs1) (loc_of_shr_record mrs1)).
  pose proof (round_nearest_even_le (shr_m mrs1) (loc_of_shr_record mrs1) Hp1) as Hr. fold m2 in Hr.
  assert (Hm2 : (0 <= m2)%Z) by lia.
  pose proof (shr_fexp_spec m2 e1 loc_Exact Hm2) as (Hp2 & He2 & _). cbv zeta in Hp2, He2.
  destruct (shr_fexp prec emax m2 e1 loc_Exact) as [mrs2 e2] eqn:E2. cbn [fst snd] in *.
  destruct (shr_m mrs2) as [|p|p] eqn:Em; [left; reflexivity| |lia].
  destruct (Z.leb_spec e2 (emax - prec)) as [Hle|Hgt]; [right; left; eauto|right; right; split; [reflexivity|]].
  (* bound on the exponent *)
  enough (e2 <= Z.max (Z.max ex (Zdigits2 mx + ex + 1 - prec)) (SpecFloat.emin prec emax))%Z by lia.
  rewrite He2. apply Z.max_lub.
  - rewrite He1. apply Z.max_lub; [lia|unfold SpecFloat.fexp; lia].
  - pose proof (Zdigits2_nonneg mx) as Hd0.
    assert (Hd : (Zdigits2 m2 + e1 <= Zdigits2 mx + ex + 1)%Z \/ e1 = SpecFloat.emin prec emax /\ (Zdigits2 m2 <= 1)%Z).
    { destruct Hc1 as [[Hm1 He]|[Hlt Hm1]].
      - left. rewrite He. enough (Zdigits2 m2 <= Zdigits2 mx + 1)%Z by lia.
        apply Zdigits2_le; [lia|lia|]. pose proof (Zdigits2_lt mx Hm).
        rewrite Z.pow_add_r by lia. lia.
      - set (n := (e1 - ex)%Z) in *.
        destruct (Z.le_gt_cases n (Zdigits2 mx)) as [Hnd|Hnd].
        + left. enough (Zdigits2 m2 <= Zdigits2 mx - n + 1)%Z by (unfold n in *; lia).
          apply Zdigits2_le; [lia|lia|].
          assert (Hq : (mx / 2 ^ n < 2 ^ (Zdigits2 mx - n))%Z).
          { apply Z.div_lt_upper_bound; [apply Z.pow_pos_nonneg; lia|].
            rewrite <- Z.pow_add_r by lia. replace (n + (Zdigits2 mx - n))%Z with (Zdigits2 mx) by lia.
            apply Zdigits2_lt; exact Hm. }
          rewrite Z.pow_add_r by lia. lia.
        + right. split.
          * rewrite He1 in Hlt |- *. unfold SpecFloat.fexp in *. lia.
          * apply Zdigits2_le; [lia|lia|]. rewrite Z.div_small in Hm1.
            -- cbn. lia.
            -- split; [exact Hm|]. pose proof (Zdigits2_lt mx Hm).
               assert (2 ^ Zdigits2 mx <= 2 ^ n)%Z by (apply Z.pow_le_mono_r; lia). lia. }
    unfold SpecFloat.fexp in *. destruct Hd as [Hd|[He Hd]]; lia.
Qed.

End Round.

Lemma sqrt_finite m e :
  SpecFloat.valid_binary prec emax (S754_finite false m e) = true ->
  SF64sqrt (S754_finite false m e) = S754_zero false \/
  exists m' e', SF64sqrt (S754_finite false m e) = S754_finite false m' e'.
Proof.
  intros Hv. cbn [SpecFloat.valid_binary] in Hv. unfold bounded, canonical_mantissa in Hv.
  apply andb_true_iff in Hv as [Hc He]. apply Z.eqb_eq in Hc. apply Z.leb_le in He.
  pose proof (digits2_pos_bounds m) as [Hlo Hhi].
  change (Zpos (digits2_pos m)) with (Zdigits2 (Zpos m)) in Hc, Hlo, Hhi.
  pose proof (Zdigits2_nonneg (Zpos m)) as Hd0.
  set (d := Zdigits2 (Zpos m)) in *.
  assert (Hd : (d <= 53)%Z) by (unfold SpecFloat.fexp, prec in Hc; lia).
  unfold SF64sqrt, SFsqrt, SFsqrt_core_binary. fold d.
  set (e' := Z.min (SpecFloat.fexp prec emax (Z.div2 (d + e + 1))) (Z.div2 e)).
  assert (He' : (2 * e' <= e)%Z).
  { assert (e' <= Z.div2 e)%Z by apply Z.le_min_r.
    rewrite Z.div2_div in H. pose proof (Z.mul_div_le e 2 ltac:(lia)). lia. }
  set (s0 := (e - 2 * e')%Z).
  set (m2 := match s0 with Zpos _ => Z.shiftl (Zpos m) s0 | Z0 => Zpos m | Zneg _ => 0%Z end).
  assert (Hm2 : (0 <= m2 < 2 ^ (d + s0))%Z).
  { unfold m2. destruct s0 as [|p|p] eqn:Es; [rewrite Z.add_0_r; lia| |lia].
    rewrite Z.shiftl_mul_pow2 by lia. rewrite Z.pow_add_r by lia.
    split; [apply Z.mul_nonneg_nonneg; [lia|apply Z.pow_nonneg; lia]|].
    apply Z.mul_lt_mono_pos_r; [apply Z.pow_pos_nonneg; lia|exact Hhi]. }
  clearbody m2.
  pose proof (Z.sqrtrem_sqrt m2) as Esq.
  destruct (Z.sqrtrem m2) as [q r]. cbn [fst] in Esq. subst q.
  pose proof (Z.sqrt_spec m2 ltac:(lia)) as [Hsq _].
  pose proof (Z.sqrt_nonneg m2) as Hq0.
  set (q := Z.sqrt m2) in *. clearbody q.
  set (k := ((d + s0 + 1) / 2)%Z).
  assert (Hk : (0 <= k /\ d + s0 <= 2 * k)%Z).
  { unfold k. pose proof (Z.div_mod (d + s0 + 1) 2 ltac:(lia)).
    pose proof (Z.mod_pos_bound (d + s0 + 1) 2 ltac:(lia)). lia. }
  assert (Hqk : (q < 2 ^ k)%Z).
  { destruct (Z.lt_ge_cases q (2 ^ k)) as [|Hge]; [assumption|exfalso].
    assert (2 ^ (d + s0) <= 2 ^ k * 2 ^ k)%Z
      by (rewrite <- Z.pow_add_r by lia; apply Z.pow_le_mono_r; lia).
    pose proof (Z.pow_nonneg 2 k ltac:(lia)). nia. }
  pose proof (Zdigits2_le q k Hq0 (proj1 Hk) Hqk) as Hdq.
  destruct (binary_round_aux_spec prec emax ltac:(unfold prec; lia) false q e'
              (if (r =? 0)%Z then loc_Exact else loc_Inexact (if (r <=? q)%Z then Lt else Gt)) Hq0)
    as [H|[H|[_ Hb]]]; [left; exact H|right; exact H|exfalso].
  pose proof (Z.div_mod (d + s0 + 1) 2 ltac:(lia)).
  pose proof (Z.mod_pos_bound (d + s0 + 1) 2 ltac:(lia)).
  unfold SpecFloat.emin, prec, emax in *. unfold k, s0 in *. lia.
Qed.


Local Open Scope float_scope.

(** [a[i]]: past the end JavaScript reads [undefined], which the
    arithmetic turns into NaN. *)
Definition read (a : list float) (i : nat) : float :=
  match nth_error a i with Some x => x | None => nan end.

(** One iteration of the loop of [cosineSim], on binary64 numbers. *)
Definition cos_step (a b : list float) (acc : float * float * float) (i : nat)
  : float * float * float :=
  let '(dot, na, nb) := acc in
  (dot + read a i * read b i, na + read a i * read a i, nb + read b i * read b i).

(** [cosineSim(a, b)] with IEEE 754 binary64 arithmetic, as JavaScript
    computes it. *)
Definition cosineSim (a b : list float) : float :=
  let min := Nat.min (length a) (length b) in
  let '(dot, na, nb) := fold_left (cos_step a b) (seq 0 min) (0, 0, 0) in
  dot / (sqrt na * sqrt nb + 1e-9).

(** The same loop over the pairs of components. *)
Definition pair_step (acc : float * float * float) (p : float * float) : float * float * float :=
  let '(dot, na, nb) := acc in
  let '(x, y) := p in
  (dot + x * y, na + x * x, nb + y * y).

(** The returned expression. *)
Definition cos_of (acc : float * float * float) : float :=
  let '(dot, na, nb) := acc in dot / (sqrt na * sqrt nb + 1e-9).

(** The sum of squares the loop accumulates in [nb]. *)
Definition sq_norm (ys : list float) : float := fold_left (fun s y => s + y * y) ys 0.

Definition finite (x : float) : bool :=
  match Prim2SF x with S754_zero _ | S754_finite _ _ _ => true | _ => false end.

Definition is_zero (x : float) : Prop := exists s, Prim2SF x = S754_zero s.

Lemma fold_shift x y a b : forall n k acc,
  fold_left (cos_step (x :: a) (y :: b)) (seq (S k) n) acc = fold_left (cos_step a b) (seq k n) acc.
Proof.
  induction n as [|n IH]; intros k acc; [reflexivity|].
  cbn [seq fold_left].
  replace (cos_step (x :: a) (y :: b) acc (S k)) with (cos_step a b acc k) by reflexivity.
  apply IH.
Qed.

Lemma fold_combine a : forall b acc,
  fold_left (cos_step a b) (seq 0 (Nat.min (length a) (length b))) acc =
  fold_left pair_step (combine a b) acc.
Proof.
  induction a as [|x a IH]; intros [|y b] acc; try reflexivity.
  cbn [length Nat.min seq fold_left combine].
  rewrite fold_shift. rewrite <- IH.
  replace (cos_step (x :: a) (y :: b) acc 0) with (pair_step acc (x, y)) by reflexivity.
  reflexivity.
Qed.

Lemma cosineSim_pairs a b :
  cosineSim a b = cos_of (fold_left pair_step (combine a b) (0, 0, 0)).
Proof. unfold cosineSim. cbv zeta. rewrite fold_combine. reflexivity. Qed.

Lemma combine_firstn_min {A B : Type} (a : list A) : forall (b : list B),
  combine (firstn (Nat.min (length a) (length b)) a) (firstn (Nat.min (length a) (length b)) b) =
  combine a b.
Proof.
  induction a as [|x a IH]; intros [|y b]; try reflexivity.
  cbn [length Nat.min firstn combine]. rewrite IH. reflexivity.
Qed.

Lemma length_firstn_min {A B : Type} (a : list A) (b : list B) :
  Nat.min (length (firstn (Nat.min (length a) (length b)) a))
          (length (firstn (Nat.min (length a) (length b)) b)) = Nat.min (length a) (length b).
Proof. rewrite !length_firstn. lia. Qed.

Lemma map_snd_combine {A B : Type} (a : list A) : forall (b : list B),
  map snd (combine a b) = firstn (Nat.min (length a) (length b)) b.
Proof.
  induction a as [|x a IH]; intros [|y b]; try reflexivity.
  cbn [length Nat.min firstn combine map snd]. rewrite IH. reflexivity.
Qed.

(** *** Floating-point facts *)

Lemma SFmul_comm p e x y : SFmul p e x y = SFmul p e y x.
Proof.
  destruct x as [sx|sx| |sx mx ex], y as [sy|sy| |sy my ey]; unfold SFmul;
    rewrite ?(xorb_comm sx sy); try reflexivity.
  rewrite Pos.mul_comm, Z.add_comm. reflexivity.
Qed.

Lemma mul_comm_f (x y : float) : x * y = y * x.
Proof. apply Prim2SF_inj. rewrite !mul_spec. apply SFmul_comm. Qed.

Lemma fold_pair_swap a : forall b d na nb,
  fold_left pair_step (combine b a) (d, nb, na) =
  let '(d', na', nb') := fold_left pair_step (combine a b) (d, na, nb) in (d', nb', na').
Proof.
  induction a as [|x a IH]; intros [|y b] d na nb; try reflexivity.
  cbn [combine fold_left].
  change (pair_step (d, nb, na) (y, x)) with (d + y * x, nb + y * y, na + x * x).
  change (pair_step (d, na, nb) (x, y)) with (d + x * y, na + x * x, nb + y * y).
  rewrite (mul_comm_f y x). apply IH.
Qed.

Lemma cosineSim_comm a b : cosineSim a b = cosineSim b a.
Proof.
  rewrite !cosineSim_pairs. rewrite (fold_pair_swap a b 0 0 0).
  destruct (fold_left pair_step (combine a b) (0, 0, 0)) as [[d na] nb].
  cbv [cos_of]. rewrite (mul_comm_f (sqrt nb)). reflexivity.
Qed.

Lemma mul_self_nonneg (y : float) : finite y = true -> nonneg_sf (Prim2SF (y * y)).
Proof.
  unfold finite. rewrite mul_spec. unfold SF64mul.
  destruct (Prim2SF y) as [s|s| |s m e]; intros H; try discriminate H.
  - left. cbn. rewrite xorb_nilpotent. reflexivity.
  - unfold SFmul. rewrite xorb_nilpotent.
    destruct (binary_round_aux_spec prec emax ltac:(unfold prec; lia) false (Zpos (m * m)) (e + e) loc_Exact
                ltac:(lia)) as [H1|[(m' & e' & H1)|[H1 _]]]; rewrite H1; unfold nonneg_sf; eauto.
Qed.

Lemma add_nonneg (x y : float) :
  nonneg_sf (Prim2SF x) -> nonneg_sf (Prim2SF y) -> nonneg_sf (Prim2SF (x + y)).
Proof.
  rewrite add_spec. unfold SF64add.
  intros [Hx|[Hx|(mx & ex & Hx)]] [Hy|[Hy|(my & ey & Hy)]]; rewrite Hx, Hy; cbn [SFadd];
    unfold nonneg_sf; eauto.
  unfold binary_normalize, cond_Zopp.
  destruct (shl_align mx ex (Z.min ex ey)) as [mx' ex'].
  destruct (shl_align my ey (Z.min ex ey)) as [my' ey'].
  cbn [fst Z.add]. unfold binary_round.
  destruct (shl_align (mx' + my') (Z.min ex ey) _) as [mz ez].
  destruct (binary_round_aux_spec prec emax ltac:(unfold prec; lia) false (Zpos mz) ez loc_Exact
              ltac:(lia)) as [H1|[(m' & e' & H1)|[H1 _]]]; rewrite H1; eauto.
Qed.

Lemma sq_norm_nonneg ys : forall s, nonneg_sf (Prim2SF s) -> forallb finite ys = true ->
  nonneg_sf (Prim2SF (fold_left (fun s y => s + y * y) ys s)).
Proof.
  induction ys as [|y ys IH]; intros s Hs Hf; cbn [fold_left]; [exact Hs|].
  cbn [forallb] in Hf. apply andb_true_iff in Hf as [Hy Hf].
  apply IH; [apply add_nonneg; [exact Hs|apply mul_self_nonneg; exact Hy]|exact Hf].
Qed.

Lemma fold_zero l : forall d na nb,
  Forall (fun p => is_zero (fst p)) l ->
  Prim2SF na = S754_zero false ->
  Prim2SF d = S754_zero false \/ Prim2SF d = S754_nan ->
  let r := fold_left pair_step l (d, na, nb) in
  (Prim2SF (fst (fst r)) = S754_zero false <->
     Prim2SF d = S754_zero false /\ forallb finite (map snd l) = true) /\
  (Prim2SF (fst (fst r)) = S754_zero false \/ Prim2SF (fst (fst r)) = S754_nan) /\
  Prim2SF (snd (fst r)) = S754_zero false /\
  snd r = fold_left (fun s y => s + y * y) (map snd l) nb.
Proof.
  induction l as [|[x y] l IH]; intros d na nb Hz Hna Hd; cbv zeta.
  - cbn [fold_left fst snd map forallb].
    split; [split; [intros H; split; [exact H|reflexivity]|intros [H _]; exact H]|].
    split; [exact Hd|split; [exact Hna|reflexivity]].
  - apply Forall_cons_iff in Hz as [[s Hx] Hz]. cbn [fst] in Hx.
    cbn [fold_left map forallb].
    change (pair_step (d, na, nb) (x, y)) with (d + x * y, na + x * x, nb + y * y).
    assert (Hna' : Prim2SF (na + x * x) = S754_zero false).
    { rewrite add_spec, mul_spec, Hna, Hx. cbn. destruct s; reflexivity. }
    assert (Hd' : (Prim2SF (d + x * y) = S754_zero false <->
                   Prim2SF d = S754_zero false /\ finite y = true) /\
                  (Prim2SF (d + x * y) = S754_zero false \/ Prim2SF (d + x * y) = S754_nan)).
    { rewrite add_spec, mul_spec, Hx. unfold finite.
      destruct Hd as [Hd|Hd]; rewrite Hd;
        destruct (Prim2SF y) as [t|t| |t m e]; cbn; destruct s; try destruct t; cbn;
        intuition discriminate. }
    destruct Hd' as [Hd1 Hd2].
    pose proof (IH (d + x * y) (na + x * x) (nb + y * y) Hz Hna' Hd2) as (H1 & H2 & H3 & H4).
    cbv zeta in H1, H2, H3, H4. split; [|split; [exact H2|split; [exact H3|exact H4]]].
    rewrite H1, Hd1. rewrite andb_true_iff. tauto.
Qed.

Lemma Prim2SF_tiny : Prim2SF 1e-9 = S754_finite false 4835703278458517 (-82).
Proof. vm_compute. reflexivity. Qed.

Lemma cosineSimF_zero_l a b :
  Forall is_zero a ->
  let ys := firstn (Nat.min (length a) (length b)) b in
  (Prim2SF (cosineSim a b) = S754_zero false <->
     forallb finite ys = true /\ Prim2SF (sq_norm ys) <> S754_infinity false) /\
  (Prim2SF (cosineSim a b) = S754_zero false \/ Prim2SF (cosineSim a b) = S754_nan).
Proof.
  intros Hz. cbv zeta. rewrite cosineSim_pairs.
  assert (Hz' : Forall (fun p => is_zero (fst p)) (combine a b)).
  { apply Forall_forall. intros [x y] Hin. apply in_combine_l in Hin.
    rewrite Forall_forall in Hz. exact (Hz x Hin). }
  pose proof (fold_zero (combine a b) 0 0 0 Hz' eq_refl (or_introl eq_refl)) as (H1 & H2 & H3 & H4).
  cbv zeta in H1, H2, H3, H4. rewrite map_snd_combine in H1, H4.
  set (ys := firstn (Nat.min (length a) (length b)) b) in *.
  destruct (fold_left pair_step (combine a b) (0, 0, 0)) as [[d na] nb].
  cbn [fst snd] in H1, H2, H3, H4. subst nb. fold (sq_norm ys).
  cbv [cos_of]. rewrite div_spec, add_spec, mul_spec, !sqrt_spec, Prim2SF_tiny, H3.
  destruct H2 as [Hd|Hd]; rewrite Hd.
  - assert (Hf : forallb finite ys = true) by (apply H1; exact Hd).
    pose proof (sq_norm_nonneg ys 0 (or_introl eq_refl) Hf) as Hn. fold (sq_norm ys) in Hn.
    pose proof (Prim2SF_valid (sq_norm ys)) as Hv.
    destruct Hn as [Hn|[Hn|(m & e & Hn)]]; rewrite Hn.
    + cbn. split; [split; [intros _; split; [exact Hf|discriminate]|intros _; reflexivity]|left; reflexivity].
    + cbn. split; [split; [discriminate|intros [_ H]; exfalso; apply H; reflexivity]|right; reflexivity].
    + rewrite Hn in Hv. destruct (sqrt_finite m e Hv) as [Hs|(m' & e' & Hs)]; rewrite Hs; cbn;
        (split; [split; [intros _; split; [exact Hf|discriminate]|intros _; reflexivity]|left; reflexivity]).
  - assert (Hnf : ~ (forallb finite ys = true)).
    { intros Hf. assert (Prim2SF d = S754_zero false) as E by (apply H1; split; [reflexivity|exact Hf]).
      congruence. }
    cbn. split; [split; [discriminate|tauto]|right; reflexivity].
Qed.

End VectorsF.

(** ** [HybridRetriever] (src/unnamed/part_002) *)
Module Hybrid.
Import Graph.

(** *** [extractFilePath] *)

(** [\s] and the characters [String.prototype.trim] strips, on ASCII text. *)
Definition is_ws (c : ascii) : bool :=
  Ascii.eqb c " " || Ascii.eqb c (ascii_of_nat 9) || Ascii.eqb c (ascii_of_nat 10) ||
  Ascii.eqb c (ascii_of_nat 11) || Ascii.eqb c (ascii_of_nat 12) ||
  Ascii.eqb c (ascii_of_nat 13).

(** The line terminators [.] does not match. *)
Definition is_line_terminator (c : ascii) : bool :=
  Ascii.eqb c (ascii_of_nat 10) || Ascii.eqb c (ascii_of_nat 13).

Definition ascii_lower (c : ascii) : ascii :=
  let n := nat_of_ascii c in
  if Nat.leb 65 n && Nat.leb n 90 then ascii_of_nat (n + 32) else c.

(** The rest of [s] after the prefix [p], letters compared case-insensitively. *)
Fixpoint strip_prefix_ci (p s : string) : option string :=
  match p, s with
  | EmptyString, _ => Some s
  | String c p', String d s' =>
      if Ascii.eqb (ascii_lower c) (ascii_lower d) then strip_prefix_ci p' s' else None
  | _, _ => None
  end.

Fixpoint take_while (f : ascii -> bool) (s : string) : string :=
  match s with
  | String c r => if f c then String c (take_while f r) else EmptyString
  | EmptyString => EmptyString
  end.

Fixpoint drop_while (f : ascii -> bool) (s : string) : string :=
  match s with
  | String c r => if f c then drop_while f r else s
  | EmptyString => EmptyString
  end.

Definition drop (n : nat) (s : string) : string := substring n (String.length s - n) s.

Definition trim (s : string) : string :=
  let t := drop_while is_ws s in
  string_of_list_ascii (rev (list_ascii_of_string
    (drop_while is_ws (string_of_list_ascii (rev (list_ascii_of_string t)))))).

(** [(.+?)(?:\n|$)] at the start of [r]: the shortest non-empty run of
    non-terminators followed by a newline or by the end of the text. *)
Definition group_at (r : string) : option string :=
  let t := take_while (fun c => negb (is_line_terminator c)) r in
  if String.eqb t "" then None
  else match drop (String.length t) r with
       | EmptyString => Some t
       | String c _ => if Ascii.eqb c (ascii_of_nat 10) then Some t else None
       end.

(** [\s*] is greedy: the group is tried after [i] whitespace characters, for
    [i] from the longest whitespace run down to [0]. *)
Fixpoint try_from (i : nat) (rest : string) : option string :=
  match group_at (drop i rest) with
  | Some g => Some g
  | None => match i with O => None | S i' => try_from i' rest end
  end.

(** [content.match(/^(?:File|Path):\s*(.+?)(?:\n|$)/i)], group 1. *)
Definition file_match (content : string) : option string :=
  let rest := match strip_prefix_ci "file:" content with
              | Some r => Some r
              | None => strip_prefix_ci "path:" content
              end in
  match rest with
  | Some r => try_from (String.length (take_while is_ws r)) r
  | None => None
  end.

Lemma substring_0_len s : substring 0 (String.length s) s = s.
Proof. induction s as [|c s IH]; cbn; [reflexivity|]. rewrite IH. reflexivity. Qed.

Lemma drop_app a b : drop (String.length a) (a ++ b) = b.
Proof.
  unfold drop. induction a as [|c a IH]; cbn [String.length String.append].
  - rewrite Nat.sub_0_r. apply substring_0_len.
  - exact IH.
Qed.

Lemma take_while_app (f : ascii -> bool) a b :
  forallb f (list_ascii_of_string a) = true -> take_while f (a ++ b) = a ++ take_while f b.
Proof.
  induction a as [|c a IH]; cbn; [reflexivity|].
  destruct (f c); cbn; [|discriminate]. intros H. rewrite IH by exact H. reflexivity.
Qed.

Lemma append_empty (a : string) : a ++ "" = a.
Proof. induction a as [|c a IH]; cbn; [reflexivity|]. rewrite IH. reflexivity. Qed.

(** A content that starts with the line [File: <path>], the path starting
    with a non-blank character. *)
Lemma file_match_header c p rest :
  is_ws c = false ->
  forallb (fun x => negb (is_line_terminator x)) (list_ascii_of_string (String c p)) = true ->
  file_match ("File: " ++ String c p ++ String (ascii_of_nat 10) rest) = Some (String c p).
Proof.
  intros Hc Hp. set (X := (String c p ++ String (ascii_of_nat 10) rest)%string).
  assert (E : strip_prefix_ci "file:" ("File: " ++ X) = Some (String " " X)) by reflexivity.
  unfold file_match. rewrite E. cbn [take_while].
  replace (is_ws " ") with true by reflexivity.
  assert (Ew : take_while is_ws X = EmptyString) by (unfold X; cbn; rewrite Hc; reflexivity).
  rewrite Ew. cbn [String.length]. unfold try_from.
  change (drop 1 (String " " X)) with (drop 0 X).
  replace (drop 0 X) with X by (symmetry; exact (drop_app "" X)).
  unfold X.
  unfold group_at. rewrite (take_while_app _ _ _ Hp). cbn [take_while].
  replace (negb (is_line_terminator (ascii_of_nat 10))) with false by reflexivity.
  rewrite append_empty. cbn [String.eqb]. rewrite drop_app. reflexivity.
Qed.

Section Retriever.

(** The second pattern, [/```\w*\s*\/\/\s*(.+\.(?:ts|js|tsx|jsx))/], group 1;
    it is only tried on text the first pattern does not match. *)
Variable codeBlockMatch : string -> option string.

Definition extractFilePath (content : string) : option string :=
  match file_match content with
  | Some g => Some (trim g)
  | None => option_map trim (codeBlockMatch content)
  end.

(** [const x = this.extractFilePath(c); if (!x) continue;]: no path, or the empty one. *)
Definition file_path_of (content : string) : option string :=
  match extractFilePath content with
  | Some p => if String.eqb p "" then None else Some p
  | None => None
  end.

(** *** [buildFileConnectionMap] *)

Record Conn := mkConn { imports : nat; importedBy : nat; calls : nat; calledBy : nat }.

Definition conn_zero : Conn := mkConn 0 0 0 0.

(** [if (conn) conn.f++]: the entry object is updated in place. *)
Definition bump (f : Conn -> Conn) (k : string) (m : JsMap.t Conn) : JsMap.t Conn :=
  match JsMap.get k m with
  | Some c => JsMap.set k (f c) m
  | None => m
  end.

Definition incr_imports c := mkConn (S (imports c)) (importedBy c) (calls c) (calledBy c).
Definition incr_importedBy c := mkConn (imports c) (S (importedBy c)) (calls c) (calledBy c).
Definition incr_calls c := mkConn (imports c) (importedBy c) (S (calls c)) (calledBy c).
Definition incr_calledBy c := mkConn (imports c) (importedBy c) (calls c) (S (calledBy c)).

Definition count_edge (m : JsMap.t Conn) (e : GraphEdge) : JsMap.t Conn :=
  match etype e with
  | Eimports => bump incr_importedBy (target e) (bump incr_imports (source e) m)
  | Ecalls => bump incr_calledBy (target e) (bump incr_calls (source e) m)
  | Econtains => m
  end.

Definition buildFileConnectionMap (g : CodeGraph) : JsMap.t Conn :=
  let m := fold_left (fun m n => if String.eqb (ntype n) "file" then JsMap.set (id n) conn_zero m
                                 else m) (nodes g) [] in
  fold_left count_edge (edges g) m.

(** *** [countRelatedDocuments] *)

(** [Set.prototype.add] on a set of strings kept in insertion order. *)
Definition set_add (x : string) (s : list string) : list string :=
  if existsb (String.eqb x) s then s else (s ++ [x])%list.

Definition connected_ids (g : CodeGraph) (fileId : string) : list string :=
  fold_left (fun s e =>
      let s1 := if String.eqb (source e) fileId && EdgeType_eqb (etype e) Eimports
                then set_add (target e) s else s in
      if String.eqb (target e) fileId && EdgeType_eqb (etype e) Eimports
      then set_add (source e) s1 else s1)
    (edges g) [].

(** *** What [buildFileConnectionMap] and [connected_ids] compute *)

(** The number of edges of type [t] whose end [sel] is [k]. *)
Definition ecount (t : EdgeType) (sel : GraphEdge -> string) (es : list GraphEdge) (k : string)
  : nat :=
  length (filter (fun e => EdgeType_eqb (etype e) t && String.eqb (sel e) k) es).

Definition conn_plus (c : Conn) (es : list GraphEdge) (k : string) : Conn :=
  mkConn (imports c + ecount Eimports source es k) (importedBy c + ecount Eimports target es k)
         (calls c + ecount Ecalls source es k) (calledBy c + ecount Ecalls target es k).

Ltac eqb_cases :=
  repeat match goal with
         | |- context [String.eqb ?a ?b] => destruct (String.eqb_spec a b)
         end.

Lemma get_bump f k k' (m : JsMap.t Conn) :
  JsMap.get k (bump f k' m) = if String.eqb k k' then option_map f (JsMap.get k m) else JsMap.get k m.
Proof.
  unfold bump. destruct (JsMap.get k' m) as [c|] eqn:E.
  - rewrite JsMap.get_set. destruct (String.eqb_spec k k') as [->|]; [now rewrite E|reflexivity].
  - destruct (String.eqb_spec k k') as [->|]; [now rewrite E|reflexivity].
Qed.

Lemma get_count_edge k m e :
  JsMap.get k (count_edge m e) = option_map (fun c => conn_plus c [e] k) (JsMap.get k m).
Proof.
  unfold count_edge, conn_plus, ecount.
  destruct (etype e) eqn:Et; rewrite ?get_bump; simpl; rewrite Et; simpl;
    destruct (JsMap.get k m) as [c|]; simpl; eqb_cases; subst; simpl; try congruence;
    destruct c; unfold incr_imports, incr_importedBy, incr_calls, incr_calledBy; simpl;
    repeat f_equal; lia.
Qed.

Lemma get_fold_count_edge k es : forall m,
  JsMap.get k (fold_left count_edge es m) = option_map (fun c => conn_plus c es k) (JsMap.get k m).
Proof.
  induction es as [|e es IH]; intros m; simpl.
  - destruct (JsMap.get k m) as [[]|]; simpl; [|reflexivity].
    unfold conn_plus, ecount. simpl. f_equal. f_equal; lia.
  - rewrite IH, get_count_edge. destruct (JsMap.get k m) as [c|]; simpl; [|reflexivity].
    f_equal. unfold conn_plus, ecount. simpl. destruct c; simpl.
    destruct (_ && _), (_ && _), (_ && _), (_ && _); simpl; f_equal; lia.
Qed.

Lemma get_init k ns : forall m,
  JsMap.get k (fold_left (fun m n => if String.eqb (ntype n) "file" then JsMap.set (id n) conn_zero m
                                     else m) ns m) =
  if existsb (fun n => String.eqb (ntype n) "file" && String.eqb (id n) k) ns
  then Some conn_zero else JsMap.get k m.
Proof.
  induction ns as [|n ns IH]; intros m; simpl; [reflexivity|].
  rewrite IH. destruct (String.eqb (ntype n) "file"); simpl; [|reflexivity].
  destruct (existsb _ ns); [|rewrite orb_false_r]; rewrite ?orb_true_r; [reflexivity|].
  rewrite JsMap.get_set. destruct (String.eqb_spec k (id n)), (String.eqb_spec (id n) k);
    congruence.
Qed.

Lemma buildFileConnectionMap_get g k :
  JsMap.get k (buildFileConnectionMap g) =
  if existsb (fun n => String.eqb (ntype n) "file" && String.eqb (id n) k) (nodes g)
  then Some (conn_plus conn_zero (edges g) k) else None.
Proof.
  unfold buildFileConnectionMap. cbv zeta.
  rewrite get_fold_count_edge, get_init. destruct (existsb _ _); reflexivity.
Qed.

Lemma existsb_set_add x y s :
  existsb (String.eqb x) (set_add y s) = String.eqb x y || existsb (String.eqb x) s.
Proof.
  unfold set_add. destruct (existsb (String.eqb y) s) eqn:E.
  - destruct (String.eqb_spec x y) as [->|]; simpl; [now rewrite E|reflexivity].
  - rewrite existsb_app. simpl. rewrite orb_false_r, orb_comm. reflexivity.
Qed.

Lemma connected_ids_spec g fileId x :
  existsb (String.eqb x) (connected_ids g fileId) =
  existsb (fun e => EdgeType_eqb (etype e) Eimports &&
                    ((String.eqb (source e) fileId && String.eqb (target e) x) ||
                     (String.eqb (target e) fileId && String.eqb (source e) x))) (edges g).
Proof.
  unfold connected_ids.
  assert (H : forall es acc,
    existsb (String.eqb x) (fold_left (fun s e =>
      let s1 := if String.eqb (source e) fileId && EdgeType_eqb (etype e) Eimports
                then set_add (target e) s else s in
      if String.eqb (target e) fileId && EdgeType_eqb (etype e) Eimports
      then set_add (source e) s1 else s1) es acc) =
    existsb (String.eqb x) acc ||
    existsb (fun e => EdgeType_eqb (etype e) Eimports &&
                      ((String.eqb (source e) fileId && String.eqb (target e) x) ||
                       (String.eqb (target e) fileId && String.eqb (source e) x))) es).
  { induction es as [|e es IH]; intros acc; simpl; [now rewrite orb_false_r|].
    rewrite IH.
    destruct (EdgeType_eqb (etype e) Eimports); rewrite ?andb_false_r; simpl;
      [|rewrite ?orb_false_l; reflexivity].
    rewrite !andb_true_r.
    destruct (String.eqb (source e) fileId), (String.eqb (target e) fileId);
      simpl; rewrite ?existsb_set_add;
      destruct (String.eqb_spec x (target e)), (String.eqb_spec (target e) x),
               (String.eqb_spec x (source e)), (String.eqb_spec (source e) x);
      try congruence; simpl; rewrite ?orb_true_r, ?orb_false_r; try reflexivity;
      destruct (existsb (String.eqb x) acc); reflexivity. }
  rewrite H. reflexivity.
Qed.

Section Docs.

Variable Doc : Type.
Variable content : Doc -> string.

Definition countRelatedDocuments (g : CodeGraph) (fileId : string) (documents : list (Doc * Q))
  : nat :=
  let connected := connected_ids g fileId in
  length (filter (fun d =>
            match file_path_of (content (fst d)) with
            | Some p => let docFileId := "file:" ++ p in
                        negb (String.eqb docFileId fileId) &&
                        existsb (String.eqb docFileId) connected
            | None => false
            end) documents).

(** *** [scoreWithGraphBoost] *)

Definition initial_score (index : nat) : Q := 1 / inject_Z (Z.of_nat (S index)).

Fixpoint with_scores (i : nat) (docs : list Doc) : list (Doc * Q) :=
  match docs with
  | [] => []
  | d :: r => (d, initial_score i) :: with_scores (S i) r
  end.

(** [arr[i] = v] for an index inside the array. *)
Fixpoint update_nth {A : Type} (i : nat) (v : A) (l : list A) : list A :=
  match l, i with
  | [], _ => []
  | _ :: r, O => v :: r
  | x :: r, S i' => x :: update_nth i' v r
  end.

Definition boost_multiplier (c : Conn) (relatedCount : nat) : Q :=
  let b0 := 1 in
  let b1 := if Nat.ltb 2 (importedBy c) then b0 + (3 # 10) else b0 in
  let b2 := if Nat.ltb 3 (imports c) then b1 + (2 # 10) else b1 in
  if Nat.ltb 0 relatedCount then b2 + (4 # 10) * inject_Z (Z.of_nat relatedCount) else b2.

(** One iteration of the [for (const doc of scoredDocs)] loop: it reads
    every document's content and multiplies [doc.score] in place. *)
Definition boost_step (g : CodeGraph) (conn : JsMap.t Conn) (sd : list (Doc * Q)) (i : nat)
  : list (Doc * Q) :=
  match nth_error sd i with
  | None => sd
  | Some (doc, score) =>
      match file_path_of (content doc) with
      | None => sd
      | Some filePath =>
          let fileId := "file:" ++ filePath in
          match JsMap.get fileId conn with
          | None => sd
          | Some c =>
              let relatedCount := countRelatedDocuments g fileId sd in
              update_nth i (doc, score * boost_multiplier c relatedCount) sd
          end
      end
  end.

Definition scoreWithGraphBoost (g : CodeGraph) (documents : list Doc) : list (Doc * Q) :=
  let scoredDocs := with_scores 0 documents in
  let fileConnectionMap := buildFileConnectionMap g in
  fold_left (boost_step g fileConnectionMap) (seq 0 (length scoredDocs)) scoredDocs.

(** [scoredResults.sort((a, b) => b.score - a.score)], stable. *)
Fixpoint insert_desc (x : Doc * Q) (l : list (Doc * Q)) : list (Doc * Q) :=
  match l with
  | [] => [x]
  | y :: r => if Qle_bool (snd x) (snd y) then y :: insert_desc x r else x :: l
  end.

Definition sort_desc (l : list (Doc * Q)) : list (Doc * Q) :=
  fold_left (fun acc x => insert_desc x acc) l [].

(** *** [search] *)

Variable ES : Type.
(** [this.rag.search(query, k)], threading the state of its embedder. *)
Variable rag_search : string -> Z -> ES -> ES * option (list Doc).

(** The graph branch returns the scored documents; the score fields are
    dropped here, as in the declared [Document[]] result. *)
Definition search (graph : option CodeGraph) (query : string) (k : Z) (es : ES)
  : ES * option (list Doc) :=
  let '(es', r) := rag_search query (k * 3) es in
  (es', option_map (fun initialResults =>
          match graph with
          | Some g =>
              match nodes g with
              | [] => JsArray.slice0 initialResults k
              | _ :: _ => map fst (JsArray.slice0 (sort_desc (scoreWithGraphBoost g initialResults)) k)
              end
          | None => JsArray.slice0 initialResults k
          end) r).


(** *** The scores [scoreWithGraphBoost] assigns *)

Lemma update_nth_length {A : Type} i (v : A) l : length (update_nth i v l) = length l.
Proof. revert i. induction l as [|x l IH]; intros [|i]; simpl; auto. Qed.

Lemma nth_error_update_nth_same {A : Type} i (v : A) l :
  (i < length l)%nat -> nth_error (update_nth i v l) i = Some v.
Proof.
  revert i. induction l as [|x l IH]; intros [|i] H; simpl in *; try lia; auto.
  apply IH. lia.
Qed.

Lemma nth_error_update_nth_other {A : Type} i k (v : A) l :
  k <> i -> nth_error (update_nth i v l) k = nth_error l k.
Proof.
  revert i k. induction l as [|x l IH]; intros [|i] [|k] H; simpl; auto; try lia.
Qed.

Lemma map_fst_update_nth {A B : Type} i (a : A) (b b' : B) l :
  nth_error l i = Some (a, b) -> map fst (update_nth i (a, b') l) = map fst l.
Proof.
  revert i. induction l as [|x l IH]; intros [|i] H; simpl in *; try discriminate.
  - injection H as ->. reflexivity.
  - f_equal. auto.
Qed.

(** [countRelatedDocuments] reads the documents' contents only. *)
Definition related_docs (g : CodeGraph) (fileId : string) (docs : list Doc) : nat :=
  length (filter (fun d =>
            match file_path_of (content d) with
            | Some p => let docFileId := "file:" ++ p in
                        negb (String.eqb docFileId fileId) &&
                        existsb (String.eqb docFileId) (connected_ids g fileId)
            | None => false
            end) docs).

Lemma countRelatedDocuments_contents g fileId sd :
  countRelatedDocuments g fileId sd = related_docs g fileId (map fst sd).
Proof.
  unfold countRelatedDocuments, related_docs. cbv zeta.
  induction sd as [|[d s] sd IH]; simpl; [reflexivity|].
  destruct (file_path_of (content d)); simpl; [|exact IH].
  destruct (_ && _); simpl; auto.
Qed.

Definition boosted_score (g : CodeGraph) (conn : JsMap.t Conn) (docs : list Doc) (k : nat)
  (d : Doc) : Q :=
  match file_path_of (content d) with
  | None => initial_score k
  | Some p =>
      match JsMap.get ("file:" ++ p) conn with
      | None => initial_score k
      | Some c => initial_score k * boost_multiplier c (related_docs g ("file:" ++ p) docs)
      end
  end.

Definition BoostInv (g : CodeGraph) (conn : JsMap.t Conn) (docs : list Doc) (j : nat)
  (sd : list (Doc * Q)) : Prop :=
  map fst sd = docs /\
  forall k, nth_error sd k =
    option_map (fun d => (d, if (k <? j)%nat then boosted_score g conn docs k d
                             else initial_score k)) (nth_error docs k).

Lemma with_scores_nth i docs : forall k,
  nth_error (with_scores i docs) k = option_map (fun d => (d, initial_score (i + k))) (nth_error docs k).
Proof.
  revert i. induction docs as [|d docs IH]; intros i [|k]; simpl; auto.
  - now rewrite Nat.add_0_r.
  - rewrite IH. now replace (S i + k)%nat with (i + S k)%nat by lia.
Qed.

Lemma with_scores_fst i docs : map fst (with_scores i docs) = docs.
Proof. revert i. induction docs as [|d docs IH]; intros i; simpl; [reflexivity|]. now rewrite IH. Qed.

Lemma with_scores_length i docs : length (with_scores i docs) = length docs.
Proof. revert i. induction docs as [|d docs IH]; intros i; simpl; auto. Qed.

Lemma boost_step_inv g conn docs j sd :
  (j < length docs)%nat -> BoostInv g conn docs j sd -> BoostInv g conn docs (S j) (boost_step g conn sd j).
Proof.
  intros Hj [Hf Hn].
  destruct (nth_error docs j) as [d|] eqn:Ed; [|apply nth_error_None in Ed; lia].
  assert (Hsj : nth_error sd j = Some (d, initial_score j)).
  { rewrite Hn, Ed. simpl. now rewrite Nat.ltb_irrefl. }
  assert (Hlen : length sd = length docs) by (rewrite <- Hf; symmetry; apply length_map).
  assert (Hother : forall sd', map fst sd' = docs ->
            (forall k, k <> j -> nth_error sd' k = nth_error sd k) ->
            nth_error sd' j = Some (d, boosted_score g conn docs j d) ->
            BoostInv g conn docs (S j) sd').
  { intros sd' Hf' Hk Hjj. split; [exact Hf'|]. intros k.
    destruct (Nat.eq_dec k j) as [->|Hne].
    - rewrite Hjj, Ed. cbn [option_map]. destruct (Nat.ltb_spec j (S j)); [reflexivity|lia].
    - rewrite Hk by exact Hne. rewrite Hn.
      destruct (Nat.ltb_spec k j), (Nat.ltb_spec k (S j)); try lia; reflexivity. }
  unfold boost_step. rewrite Hsj.
  unfold boosted_score in Hother.
  destruct (file_path_of (content d)) as [p|] eqn:Ep;
    [|apply Hother; auto].
  destruct (JsMap.get ("file:" ++ p) conn) as [c|] eqn:Ec;
    [|apply Hother; auto].
  apply Hother.
  - rewrite (map_fst_update_nth _ _ _ _ _ Hsj). exact Hf.
  - intros k Hk. apply nth_error_update_nth_other. exact Hk.
  - rewrite nth_error_update_nth_same by lia.
    rewrite countRelatedDocuments_contents, Hf. reflexivity.
Qed.

Lemma scoreWithGraphBoost_nth g docs k :
  nth_error (scoreWithGraphBoost g docs) k =
  option_map (fun d => (d, boosted_score g (buildFileConnectionMap g) docs k d)) (nth_error docs k).
Proof.
  unfold scoreWithGraphBoost. cbv zeta. rewrite with_scores_length.
  set (conn := buildFileConnectionMap g).
  assert (H : forall j, (j <= length docs)%nat ->
            BoostInv g conn docs j (fold_left (boost_step g conn) (seq 0 j) (with_scores 0 docs))).
  { induction j as [|j IH]; intros Hj.
    - cbn [seq fold_left]. split; [apply with_scores_fst|]. intros k'.
      rewrite with_scores_nth. reflexivity.
    - rewrite seq_S, fold_left_app. simpl. apply boost_step_inv; [lia|]. apply IH. lia. }
  destruct (H (length docs) (le_n _)) as [_ Hn]. rewrite Hn.
  destruct (nth_error docs k) as [d|] eqn:Ed; [|reflexivity]. simpl.
  assert (Hk : (k < length docs)%nat) by (apply nth_error_Some; congruence).
  apply Nat.ltb_lt in Hk. now rewrite Hk.
Qed.

(** *** Ranking of [search] and bounds of the boosted scores *)

Lemma qinsert_desc_perm x l : Permutation (insert_desc x l) (x :: l).
Proof.
  induction l as [|y l IH]; cbn; [reflexivity|].
  destruct (Qle_bool _ _); [|reflexivity].
  etransitivity; [apply perm_skip; exact IH|apply perm_swap].
Qed.

Lemma qsort_desc_perm l : Permutation (sort_desc l) l.
Proof.
  unfold sort_desc.
  assert (H : forall (l acc : list (Doc * Q)),
            Permutation (fold_left (fun acc x => insert_desc x acc) l acc) (l ++ acc)%list).
  { clear l. intros l. induction l as [|x l IH]; intros acc; cbn [fold_left app]; [reflexivity|].
    rewrite IH, qinsert_desc_perm. apply Permutation_sym, Permutation_middle. }
  rewrite H, app_nil_r. reflexivity.
Qed.

Definition qscore_ge (p q : Doc * Q) : Prop := (snd q <= snd p)%Q.

Lemma qinsert_desc_sorted x l : Sorted qscore_ge l -> Sorted qscore_ge (insert_desc x l).
Proof.
  induction l as [|y l IH]; intros Hs; cbn; [repeat constructor|].
  destruct (Qle_bool (snd x) (snd y)) eqn:E.
  - apply Qle_bool_iff in E. apply Sorted_inv in Hs as [Hs Hhd].
    constructor; [exact (IH Hs)|].
    destruct l as [|z l]; cbn; [constructor; exact E|].
    destruct (Qle_bool (snd x) (snd z)); constructor; [inversion Hhd; assumption|exact E].
  - constructor; [exact Hs|constructor]. unfold qscore_ge.
    apply Qlt_le_weak, Qnot_le_lt. intros H. apply Qle_bool_iff in H. congruence.
Qed.

Lemma qsort_desc_sorted l : Sorted qscore_ge (sort_desc l).
Proof.
  unfold sort_desc.
  assert (H : forall (l acc : list (Doc * Q)), Sorted qscore_ge acc ->
            Sorted qscore_ge (fold_left (fun acc x => insert_desc x acc) l acc)).
  { clear l. intros l. induction l as [|x l IH]; intros acc Hs; cbn [fold_left]; [exact Hs|].
    apply IH, qinsert_desc_sorted, Hs. }
  apply H. constructor.
Qed.

Lemma qscore_strongly l : Sorted qscore_ge l -> StronglySorted qscore_ge l.
Proof. apply Sorted_StronglySorted. intros p q r H1 H2. unfold qscore_ge in *. eapply Qle_trans; eauto. Qed.

Lemma Qle_plus_nonneg x y : (0 <= y)%Q -> (x <= x + y)%Q.
Proof.
  intros Hy. rewrite <- (Qplus_0_r x) at 1. apply Qplus_le_compat; [apply Qle_refl|exact Hy].
Qed.

Lemma boost_multiplier_ge_1 c n : (1 <= boost_multiplier c n)%Q.
Proof.
  unfold boost_multiplier. cbv zeta.
  set (b1 := if Nat.ltb 2 (importedBy c) then (1 + (3 # 10))%Q else 1%Q).
  set (b2 := if Nat.ltb 3 (imports c) then (b1 + (2 # 10))%Q else b1).
  assert (H1 : (1 <= b1)%Q).
  { unfold b1. destruct (Nat.ltb 2 (importedBy c)); [apply Qle_plus_nonneg; unfold Qle; simpl; lia|apply Qle_refl]. }
  assert (H2 : (b1 <= b2)%Q).
  { unfold b2. destruct (Nat.ltb 3 (imports c)); [apply Qle_plus_nonneg; unfold Qle; simpl; lia|apply Qle_refl]. }
  apply (Qle_trans _ _ _ (Qle_trans _ _ _ H1 H2)).
  destruct (Nat.ltb 0 n); [|apply Qle_refl].
  apply Qle_plus_nonneg. apply Qmult_le_0_compat; unfold Qle; cbn [Qnum Qden inject_Z]; lia.
Qed.

Lemma initial_score_pos k : (0 < initial_score k)%Q.
Proof.
  unfold initial_score. apply Qlt_shift_div_l; [unfold Qlt; simpl; lia|].
  unfold Qlt; simpl; lia.
Qed.

Lemma boosted_score_ge g conn docs k d : (initial_score k <= boosted_score g conn docs k d)%Q.
Proof.
  unfold boosted_score.
  destruct (file_path_of (content d)) as [p|]; [|apply Qle_refl].
  destruct (JsMap.get _ conn) as [c|]; [|apply Qle_refl].
  apply Qle_trans with (initial_score k * 1)%Q; [rewrite Qmult_1_r; apply Qle_refl|].
  rewrite (Qmult_comm (initial_score k) 1), (Qmult_comm (initial_score k)).
  apply Qmult_le_compat_r; [apply boost_multiplier_ge_1|apply Qlt_le_weak, initial_score_pos].
Qed.

Lemma scoreWithGraphBoost_fst g docs : map fst (scoreWithGraphBoost g docs) = docs.
Proof.
  apply nth_error_ext. intros k. rewrite nth_error_map, scoreWithGraphBoost_nth.
  destruct (nth_error docs k); reflexivity.
Qed.

End Docs.
End Retriever.
End Hybrid.

(** ** [SemanticCache] and [EmbeddingCache] (src/src/utils/cache.ts).
    [Date.now()] is an argument [now] of each operation; persistence
    ([load], [save]) and statistics are left out. *)
Module Cache.

(** The two read-only options of a cache. *)
Record Config := mkConfig { maxSize : Z; ttlMs : Z }.

Record CacheEntry (T : Type) := mkEntry { key : string; value : T; timestamp : Z; accessCount : nat }.
Arguments mkEntry {T}.
Arguments key {T}.
Arguments value {T}.
Arguments timestamp {T}.
Arguments accessCount {T}.

Section Semantic.
Context {T : Type}.

(** [get(key)]: the entry object is updated in place. *)
Definition get (self : Config) (k : string) (now : Z) (m : JsMap.t (CacheEntry T)) : option T * JsMap.t (CacheEntry T) :=
  match JsMap.get k m with
  | None => (None, m)
  | Some e =>
      if (ttlMs self <? now - timestamp e)%Z then (None, JsMap.delete k m)
      else (Some (value e),
            JsMap.set k (mkEntry (key e) (value e) now (S (accessCount e))) m)
  end.

(** The loop of [evictLRU]: the first entry of smallest timestamp. *)
Definition oldest (m : JsMap.t (CacheEntry T)) : option (CacheEntry T) * option string :=
  fold_left (fun acc ke =>
      match fst acc with
      | None => (Some (snd ke), Some (fst ke))
      | Some o => if (timestamp (snd ke) <? timestamp o)%Z then (Some (snd ke), Some (fst ke))
                  else acc
      end) m (None, None).

(** [if (oldestKey) this.cache.delete(oldestKey)]: the empty key is falsy. *)
Definition evictLRU (m : JsMap.t (CacheEntry T)) : JsMap.t (CacheEntry T) :=
  match snd (oldest m) with
  | Some k => if String.eqb k "" then m else JsMap.delete k m
  | None => m
  end.

Definition set (self : Config) (k : string) (v : T) (now : Z) (m : JsMap.t (CacheEntry T)) : JsMap.t (CacheEntry T) :=
  let m1 := if (maxSize self <=? Z.of_nat (JsMap.size m))%Z && negb (JsMap.has k m)
            then evictLRU m else m in
  JsMap.set k (mkEntry k v now 0) m1.

(** A round of use: some [get]s (key, time), then one [set] (key, value, time). *)
Definition run_round (self : Config) (m : JsMap.t (CacheEntry T)) (r : list (string * Z) * (string * T * Z)) : JsMap.t (CacheEntry T) :=
  let m1 := fold_left (fun m kt => snd (get self (fst kt) (snd kt) m)) (fst r) m in
  let '(k, v, now) := snd r in
  set self k v now m1.

Definition set_key (r : list (string * Z) * (string * T * Z)) : string := fst (fst (snd r)).

End Semantic.

(** *** Eviction and refresh *)

Section Facts.
Context {T : Type}.
Local Open Scope list_scope.

Lemma jsmap_get_In k (m : JsMap.t (CacheEntry T)) e : JsMap.get k m = Some e -> In (k, e) m.
Proof.
  induction m as [|[k' e'] m IH]; simpl; [discriminate|].
  destruct (String.eqb_spec k k') as [->|]; [intros [= ->]; left; reflexivity|].
  intros H. right. exact (IH H).
Qed.

Lemma jsmap_set_absent k v (m : JsMap.t (CacheEntry T)) :
  JsMap.has k m = false -> JsMap.set k v m = (m ++ [(k, v)])%list.
Proof.
  induction m as [|[k' e'] m IH]; simpl; [reflexivity|].
  rewrite JsMap.has_cons. destruct (String.eqb k k'); simpl; [discriminate|].
  intros H. f_equal. exact (IH H).
Qed.

Lemma jsmap_set_Forall (P : string * CacheEntry T -> Prop) k v (m : JsMap.t (CacheEntry T)) :
  Forall P m -> P (k, v) -> Forall P (JsMap.set k v m).
Proof.
  induction m as [|[k' e'] m IH]; simpl; intros Hm Hk; [constructor; auto|].
  inversion Hm as [|? ? Hx Hr]; subst.
  destruct (String.eqb_spec k k') as [<-|]; constructor; auto.
Qed.

Lemma oldest_spec (pre post : JsMap.t (CacheEntry T)) k e :
  Forall (fun x => (timestamp e < timestamp (snd x))%Z) pre ->
  Forall (fun x => (timestamp e <= timestamp (snd x))%Z) post ->
  oldest (pre ++ (k, e) :: post) = (Some e, Some k).
Proof.
  intros Hpre Hpost. unfold oldest. rewrite fold_left_app.
  set (F := fun (acc : option (CacheEntry T) * option string) (ke : string * CacheEntry T) =>
              match fst acc with
              | None => (Some (snd ke), Some (fst ke))
              | Some o => if (timestamp (snd ke) <? timestamp o)%Z then (Some (snd ke), Some (fst ke))
                          else acc
              end).
  assert (Hinv : match fst (fold_left F pre (None, None)) with
                 | None => True
                 | Some o => (timestamp e < timestamp o)%Z
                 end).
  { apply (TsParser.fold_inv (fun acc : option (CacheEntry T) * option string =>
                                match fst acc with
                                | None => True
                                | Some o => (timestamp e < timestamp o)%Z
                                end) F pre); [|exact I].
    rewrite Forall_forall in Hpre.
    intros x Hx [[o'|] ko'] Hs; unfold F; cbn [fst snd].
    - destruct (Z.ltb_spec (timestamp (snd x)) (timestamp o')); cbn [fst]; [|exact Hs].
      exact (Hpre x Hx).
    - exact (Hpre x Hx). }
  destruct (fold_left F pre (None, None)) as [[o|] ko]; cbn [fst] in Hinv.
  - rename Hinv into Ho.
    cbn [fold_left]. unfold F at 2. cbn [fst snd].
    destruct (Z.ltb_spec (timestamp e) (timestamp o)); [|lia].
    induction post as [|x post IH]; [reflexivity|].
    inversion Hpost as [|? ? Hx Hr]; subst. cbn [fold_left]. unfold F at 2. cbn [fst snd].
    destruct (Z.ltb_spec (timestamp (snd x)) (timestamp e)); [lia|]. exact (IH Hr).
  - cbn [fold_left]. unfold F at 2. cbn [fst snd].
    induction post as [|x post IH]; [reflexivity|].
    inversion Hpost as [|? ? Hx Hr]; subst. cbn [fold_left]. unfold F at 2. cbn [fst snd].
    destruct (Z.ltb_spec (timestamp (snd x)) (timestamp e)); [lia|]. exact (IH Hr).
Qed.

Lemma set_at_capacity (self : Config) (pre post : JsMap.t (CacheEntry T)) k' e k v now :
  let m := (pre ++ (k', e) :: post)%list in
  Forall (fun x => (timestamp e < timestamp (snd x))%Z) pre ->
  Forall (fun x => (timestamp e <= timestamp (snd x))%Z) post ->
  k' <> "" ->
  (maxSize self <= Z.of_nat (JsMap.size m))%Z -> JsMap.has k m = false ->
  set self k v now m = JsMap.set k (mkEntry k v now 0) (JsMap.delete k' m).
Proof.
  cbv zeta. intros Hpre Hpost Hk' Hsize Hnew. unfold set.
  rewrite (proj2 (Z.leb_le _ _) Hsize), Hnew. cbn [negb andb].
  unfold evictLRU. rewrite (oldest_spec pre post k' e Hpre Hpost). cbn [snd].
  destruct (String.eqb_spec k' ""); [contradiction|reflexivity].
Qed.

Lemma get_refresh (self : Config) k now (m : JsMap.t (CacheEntry T)) v m' :
  get self k now m = (Some v, m') ->
  exists e, JsMap.get k m' = Some e /\ timestamp e = now /\ value e = v.
Proof.
  unfold get. destruct (JsMap.get k m) as [e|]; [|discriminate].
  destruct (_ <? _)%Z; [discriminate|]. intros [= <- <-].
  eexists. rewrite JsMap.get_set, String.eqb_refl. split; [reflexivity|split; reflexivity].
Qed.

Lemma gets_empty (self : Config) (gs : list (string * Z)) :
  fold_left (fun m kt => snd (get self (fst kt) (snd kt) m)) gs ([] : JsMap.t (CacheEntry T)) = [].
Proof. induction gs as [|g gs IH]; [reflexivity|]. exact IH. Qed.

(** *** A first key nobody reads, while nothing expires *)

Section Trace.
Variables (self : Config) (k0 : string) (v0 : T) (t0 : Z).

Definition in_window (t : Z) : Prop := (t0 <= t <= t0 + ttlMs self)%Z.

Definition TraceInv (m : JsMap.t (CacheEntry T)) (ks : list string) : Prop :=
  exists post, m = (k0, mkEntry k0 v0 t0 0) :: post /\ JsMap.keys post = ks /\
               Forall (fun x => in_window (timestamp (snd x))) post.

Lemma get_trace_inv k t m ks :
  k <> k0 -> in_window t -> TraceInv m ks -> TraceInv (snd (get self k t m)) ks.
Proof.
  intros Hk Ht [post (-> & Hkeys & Hw)]. unfold get. cbn [JsMap.get].
  rewrite (proj2 (String.eqb_neq k k0) Hk).
  destruct (JsMap.get k post) as [e|] eqn:E; [|exists post; auto].
  assert (He : in_window (timestamp e)).
  { rewrite Forall_forall in Hw. exact (Hw (k, e) (jsmap_get_In _ _ _ E)). }
  unfold in_window in *.
  destruct (Z.ltb_spec (ttlMs self) (t - timestamp e)); [lia|]. cbn [snd JsMap.set].
  rewrite (proj2 (String.eqb_neq k k0) Hk).
  eexists. split; [reflexivity|split].
  - rewrite JsMap.keys_set. unfold JsMap.has. rewrite E. exact Hkeys.
  - apply jsmap_set_Forall; [exact Hw|]. cbn [snd timestamp]. exact Ht.
Qed.

Lemma gets_trace_inv (gs : list (string * Z)) m ks :
  (forall kt, In kt gs -> fst kt <> k0 /\ in_window (snd kt)) ->
  TraceInv m ks ->
  TraceInv (fold_left (fun m kt => snd (get self (fst kt) (snd kt) m)) gs m) ks.
Proof.
  intros Hgs. apply (TsParser.fold_inv (fun m => TraceInv m ks)).
  intros kt Hin m' Hm'. destruct (Hgs kt Hin) as [H1 H2]. exact (get_trace_inv _ _ _ _ H1 H2 Hm').
Qed.

Lemma set_new_trace_inv k v t m ks :
  k <> k0 -> ~ In k ks -> in_window t -> (Z.of_nat (S (length ks)) < maxSize self)%Z ->
  TraceInv m ks -> TraceInv (set self k v t m) (ks ++ [k]).
Proof.
  intros Hk Hks Ht Hsz [post (-> & Hkeys & Hw)]. unfold set.
  assert (Hl : JsMap.size ((k0, mkEntry k0 v0 t0 0) :: post) = S (length ks)).
  { unfold JsMap.size. cbn [length]. rewrite <- Hkeys. unfold JsMap.keys. now rewrite length_map. }
  rewrite Hl. destruct (Z.leb_spec (maxSize self) (Z.of_nat (S (length ks)))); [lia|].
  cbn [andb JsMap.set]. rewrite (proj2 (String.eqb_neq k k0) Hk).
  assert (Hn : JsMap.has k post = false).
  { destruct (JsMap.has k post) eqn:E; [|reflexivity].
    apply JsMap.has_In in E. rewrite Hkeys in E. contradiction. }
  rewrite (jsmap_set_absent _ _ _ Hn).
  eexists. split; [reflexivity|split].
  - unfold JsMap.keys in *. rewrite map_app, Hkeys. reflexivity.
  - apply Forall_app. split; [exact Hw|]. constructor; [exact Ht|constructor].
Qed.

Lemma set_evict_trace k v t m ks :
  k <> k0 -> ~ In k ks -> k0 <> "" -> (maxSize self <= Z.of_nat (S (length ks)))%Z ->
  TraceInv m ks -> JsMap.keys (set self k v t m) = (ks ++ [k])%list.
Proof.
  intros Hk Hks Hk0 Hsz [post (-> & Hkeys & Hw)].
  assert (Hn : JsMap.has k post = false).
  { destruct (JsMap.has k post) eqn:E; [|reflexivity].
    apply JsMap.has_In in E. rewrite Hkeys in E. contradiction. }
  assert (Hl : JsMap.size ((k0, mkEntry k0 v0 t0 0) :: post) = S (length ks)).
  { unfold JsMap.size. cbn [length]. rewrite <- Hkeys. unfold JsMap.keys. now rewrite length_map. }
  change ((k0, mkEntry k0 v0 t0 0) :: post) with ([] ++ (k0, mkEntry k0 v0 t0 0) :: post).
  rewrite (set_at_capacity self [] post k0 (mkEntry k0 v0 t0 0) k v t).
  - cbn [app JsMap.delete]. rewrite String.eqb_refl, (jsmap_set_absent _ _ _ Hn).
    unfold JsMap.keys in *. rewrite map_app, Hkeys. reflexivity.
  - constructor.
  - eapply Forall_impl; [|exact Hw]. intros x Hx. cbn [timestamp]. unfold in_window in Hx. lia.
  - exact Hk0.
  - cbn [app]. rewrite Hl. exact Hsz.
  - cbn [app]. rewrite JsMap.has_cons, (proj2 (String.eqb_neq k k0) Hk), Hn. reflexivity.
Qed.

Definition round_ok (r : list (string * Z) * (string * T * Z)) : Prop :=
  (forall kt, In kt (fst r) -> fst kt <> k0 /\ in_window (snd kt)) /\ in_window (snd (snd r)).

Lemma rounds_trace_inv l : forall m ks,
  TraceInv m ks -> NoDup (k0 :: ks ++ map set_key l) ->
  (Z.of_nat (S (length ks + length l)) <= maxSize self)%Z ->
  (forall r, In r l -> round_ok r) ->
  TraceInv (fold_left (run_round self) l m) (ks ++ map set_key l).
Proof.
  induction l as [|r l IH]; intros m ks Hm Hnd Hsz Hr; cbn [fold_left map].
  - now rewrite app_nil_r.
  - destruct r as [gs [[k v] t]]. destruct (Hr _ (or_introl eq_refl)) as [Hgs Ht].
    cbn [fst snd] in Hgs, Ht.
    cbn [map] in Hnd. change (set_key (gs, (k, v, t))) with k in Hnd |- *.
    assert (Hk : k <> k0).
    { intros ->. inversion Hnd as [|? ? Hn _]. apply Hn. apply in_or_app. right. left. reflexivity. }
    assert (Hks : ~ In k ks).
    { inversion Hnd as [|? ? _ Hnd']. intros Hin. apply NoDup_remove_2 in Hnd'.
      apply Hnd'. apply in_or_app. left. exact Hin. }
    replace (ks ++ k :: map set_key l)%list with ((ks ++ [k]) ++ map set_key l)%list
      by (rewrite <- app_assoc; reflexivity).
    apply IH.
    + unfold run_round. cbn [fst snd]. apply set_new_trace_inv; auto.
      * cbn [length] in Hsz. lia.
      * apply gets_trace_inv; assumption.
    + rewrite <- app_assoc. exact Hnd.
    + rewrite length_app. cbn [length] in *. lia.
    + intros r' Hr'. apply Hr. right. exact Hr'.
Qed.

End Trace.
End Facts.

(** *** [EmbeddingCache] *)

(** [x | 0], [x & x] and the like: ToInt32. *)
Definition toInt32 (z : Z) : Z :=
  let r := (z mod 2 ^ 32)%Z in if (2 ^ 31 <=? r)%Z then (r - 2 ^ 32)%Z else r.

(** [hash = (hash << 5) - hash + char; hash = hash & hash;] *)
Definition hash_step (hash : Z) (c : ascii) : Z :=
  toInt32 (toInt32 (hash * 32) - hash + Z.of_nat (nat_of_ascii c)).

Definition digit36 (d : Z) : ascii :=
  ascii_of_nat (Z.to_nat (if (d <? 10)%Z then 48 + d else 87 + d)).

(** The base-36 digits of [n >= 0], most significant first. *)
Fixpoint digits36 (fuel : nat) (n : Z) (acc : string) : string :=
  match fuel with
  | O => acc
  | S f => let acc' := String (digit36 (n mod 36)) acc in
           if (n <? 36)%Z then acc' else digits36 f (n / 36) acc'
  end.

(** [n.toString(36)] for a 32-bit integer [n] (at most 7 digits). *)
Definition toString36 (n : Z) : string :=
  if (n <? 0)%Z then "-" ++ digits36 8 (- n) "" else digits36 8 n "".

(** [EmbeddingCache.createKey], over the text's UTF-16 code units (here ASCII). *)
Definition createKey (text : string) : string :=
  "emb_" ++ toString36 (fold_left hash_step (list_ascii_of_string text) 0%Z).

Section Embedding.
Context {V : Type}.

(** [getOrCompute(text, computeFn)]: [computed] is the vector [computeFn]
    resolves to, used only when it is invoked (the returned flag). A cached
    [number[]] is an object, hence truthy. *)
Definition getOrCompute (self : Config) (text : string) (computed : V) (now : Z)
  (m : JsMap.t (CacheEntry V)) : V * JsMap.t (CacheEntry V) * bool :=
  let k := createKey text in
  let '(cached, m1) := get self k now m in
  match cached with
  | Some v => (v, m1, false)
  | None => (computed, set self k computed now m1, true)
  end.

(** A call of [getOrCompute]: the text, [computeFn]'s vector, [Date.now()]. *)
Definition text_of (c : string * V * Z) : string := fst (fst c).
Definition val_of (c : string * V * Z) : V := snd (fst c).
Definition now_of (c : string * V * Z) : Z := snd c.

(** Runs calls in order on one cache; collects the texts whose [computeFn]
    was invoked and the vectors returned. *)
Definition goc_step (self : Config) (acc : JsMap.t (CacheEntry V) * list string * list V)
  (c : string * V * Z) : JsMap.t (CacheEntry V) * list string * list V :=
  let '(m, computedTexts, results) := acc in
  let '(r, m', invoked) := getOrCompute self (text_of c) (val_of c) (now_of c) m in
  (m', if invoked then (computedTexts ++ [text_of c])%list else computedTexts,
   (results ++ [r])%list).

Definition run_calls (self : Config) (calls : list (string * V * Z))
  : JsMap.t (CacheEntry V) * list string * list V :=
  fold_left (goc_step self) calls ([], [], []).

(** The vector of the first call whose text has the key [k]. *)
Definition first_value (calls : list (string * V * Z)) (k : string) : option V :=
  option_map val_of (find (fun c => String.eqb (createKey (text_of c)) k) calls).

End Embedding.

(** *** [getOrCompute] while nothing is evicted or expires *)

Section EmbeddingFacts.
Context {V : Type}.
Local Open Scope list_scope.
Variables (self : Config) (t0 : Z) (ks : list string).

Lemma first_value_app (P : list (string * V * Z)) c k :
  first_value (P ++ [c]) k =
  match first_value P k with
  | Some v => Some v
  | None => if String.eqb (createKey (text_of c)) k then Some (val_of c) else None
  end.
Proof.
  unfold first_value. induction P as [|c' P IH]; cbn [app find].
  - destruct (String.eqb _ k); reflexivity.
  - destruct (String.eqb (createKey (text_of c')) k); [reflexivity|exact IH].
Qed.

Lemma jsmap_get_app_single k k' e (m : JsMap.t (CacheEntry V)) :
  JsMap.get k (m ++ [(k', e)]) =
  match JsMap.get k m with Some x => Some x | None => if String.eqb k k' then Some e else None end.
Proof.
  induction m as [|[k1 e1] m IH]; cbn [app JsMap.get]; [reflexivity|].
  destruct (String.eqb k k1); [reflexivity|exact IH].
Qed.

Definition EInv (P : list (string * V * Z)) (acc : JsMap.t (CacheEntry V) * list string * list V)
  : Prop :=
  let m := fst (fst acc) in
  NoDup (JsMap.keys m) /\ map createKey (snd (fst acc)) = JsMap.keys m /\ incl (JsMap.keys m) ks /\
  (forall k e, JsMap.get k m = Some e ->
     in_window self t0 (timestamp e) /\ first_value P k = Some (value e)) /\
  (forall k, JsMap.get k m = None -> first_value P k = None) /\
  Forall2 (fun c r => first_value P (createKey (text_of c)) = Some r) P (snd acc).

Lemma first_value_app_some (P : list (string * V * Z)) c k v :
  first_value P k = Some v -> first_value (P ++ [c]) k = Some v.
Proof. intros H. rewrite first_value_app, H. reflexivity. Qed.

Lemma forall2_first_value_app (P : list (string * V * Z)) c rs :
  Forall2 (fun c r => first_value P (createKey (text_of c)) = Some r) P rs ->
  Forall2 (fun c' r => first_value (P ++ [c]) (createKey (text_of c')) = Some r) P rs.
Proof. apply Forall2_impl. intros c' r H. exact (first_value_app_some P c _ r H). Qed.

Lemma goc_step_inv P acc c :
  (Z.of_nat (length ks) <= maxSize self)%Z ->
  In (createKey (text_of c)) ks -> in_window self t0 (now_of c) ->
  EInv P acc -> EInv (P ++ [c]) (goc_step self acc c).
Proof.
  intros Hks Hk Hnow. destruct acc as [[m comp] res].
  intros (Hnd & Hcomp & Hincl & Hget & Hnone & Hres). cbn [fst snd] in *.
  unfold goc_step, getOrCompute.
  set (k := createKey (text_of c)) in *.
  unfold get. destruct (JsMap.get k m) as [e|] eqn:E.
  - destruct (Hget k e E) as [Hwe Hfe]. unfold in_window in *.
    destruct (Z.ltb_spec (ttlMs self) (now_of c - timestamp e)); [lia|].
    assert (Hhas : JsMap.has k m = true) by (unfold JsMap.has; rewrite E; reflexivity).
    unfold EInv. cbn [fst snd]. rewrite JsMap.keys_set, Hhas.
    split; [exact Hnd|split; [exact Hcomp|split; [exact Hincl|split; [|split]]]].
    + intros k' e'. rewrite JsMap.get_set. destruct (String.eqb_spec k' k) as [->|Hne].
      * intros [= <-]. cbn [timestamp value]. split; [unfold in_window; lia|].
        exact (first_value_app_some P c k _ Hfe).
      * intros He'. destruct (Hget k' e' He') as [H1 H2]. split; [exact H1|].
        exact (first_value_app_some P c k' _ H2).
    + intros k'. rewrite JsMap.get_set. destruct (String.eqb_spec k' k) as [->|Hne]; [discriminate|].
      intros Hn. rewrite first_value_app, (Hnone k' Hn).
      fold k. destruct (String.eqb_spec k k'); [congruence|reflexivity].
    + apply Forall2_app; [exact (forall2_first_value_app P c res Hres)|].
      constructor; [|constructor]. fold k. exact (first_value_app_some P c k _ Hfe).
  - assert (Hhas : JsMap.has k m = false) by (unfold JsMap.has; rewrite E; reflexivity).
    assert (Hnin : ~ In k (JsMap.keys m)).
    { intros Hin. apply JsMap.has_In in Hin. congruence. }
    assert (Hlen : (S (length (JsMap.keys m)) <= length ks)%nat).
    { change (S (length (JsMap.keys m))) with (length (k :: JsMap.keys m)).
      apply NoDup_incl_length; [constructor; assumption|].
      intros x [<-|Hx]; [exact Hk|exact (Hincl x Hx)]. }
    assert (Hsz : (Z.of_nat (JsMap.size m) < maxSize self)%Z).
    { unfold JsMap.size. unfold JsMap.keys in Hlen. rewrite length_map in Hlen. lia. }
    cbn [fst snd]. unfold set.
    destruct (Z.leb_spec (maxSize self) (Z.of_nat (JsMap.size m))); [lia|].
    cbn [andb]. rewrite (jsmap_set_absent _ _ _ Hhas).
    unfold EInv. cbn [fst snd].
    assert (Hkeys : JsMap.keys (m ++ [(k, mkEntry k (val_of c) (now_of c) 0)]) = JsMap.keys m ++ [k]).
    { unfold JsMap.keys. rewrite map_app. reflexivity. }
    rewrite Hkeys.
    assert (Hfk : first_value (P ++ [c]) k = Some (val_of c)).
    { rewrite first_value_app, (Hnone k E). fold k. rewrite String.eqb_refl. reflexivity. }
    split; [|split; [|split; [|split; [|split]]]].
    + apply NoDup_app; [exact Hnd|constructor; [intros []|constructor]|].
      intros x Hx [<-|[]]. exact (Hnin Hx).
    + rewrite map_app, Hcomp. reflexivity.
    + intros x Hx. apply in_app_or in Hx. destruct Hx as [Hx|[<-|[]]]; [exact (Hincl x Hx)|exact Hk].
    + intros k' e'. rewrite jsmap_get_app_single.
      destruct (JsMap.get k' m) as [x|] eqn:E'.
      * intros [= <-]. destruct (Hget k' x E') as [H1 H2]. split; [exact H1|].
        exact (first_value_app_some P c k' _ H2).
      * destruct (String.eqb_spec k' k) as [->|]; [|discriminate]. intros [= <-].
        cbn [timestamp value]. split; [exact Hnow|exact Hfk].
    + intros k'. rewrite jsmap_get_app_single.
      destruct (JsMap.get k' m) eqn:E'; [discriminate|].
      destruct (String.eqb_spec k' k) as [->|Hne]; [discriminate|]. intros _.
      rewrite first_value_app, (Hnone k' E'). fold k.
      destruct (String.eqb_spec k k'); [congruence|reflexivity].
    + apply Forall2_app; [exact (forall2_first_value_app P c res Hres)|].
      constructor; [|constructor]. fold k. exact Hfk.
Qed.

Lemma first_value_None_iff (P : list (string * V * Z)) k :
  first_value P k = None <-> ~ In k (map (fun c => createKey (text_of c)) P).
Proof.
  unfold first_value. induction P as [|c P IH]; cbn [find map In].
  - split; [intros _ []|reflexivity].
  - destruct (String.eqb_spec (createKey (text_of c)) k) as [<-|Hne].
    + split; [discriminate|]. intros H. exfalso. apply H. left. reflexivity.
    + rewrite IH. split; [intros H [Heq|Hin]; [exact (Hne Heq)|exact (H Hin)]|].
      intros H Hin. apply H. right. exact Hin.
Qed.

Lemma run_calls_inv (calls : list (string * V * Z)) :
  (Z.of_nat (length ks) <= maxSize self)%Z ->
  (forall c, In c calls -> In (createKey (text_of c)) ks /\ in_window self t0 (now_of c)) ->
  EInv calls (run_calls self calls).
Proof.
  intros Hks. induction calls as [|c calls IH] using rev_ind; intros Hc.
  - unfold EInv. cbn. split; [constructor|split; [reflexivity|split; [intros x []|]]].
    split; [discriminate|split; [reflexivity|constructor]].
  - unfold run_calls. rewrite fold_left_app. cbn [fold_left].
    destruct (Hc c (in_or_app calls [c] c (or_intror (or_introl eq_refl)))) as [H1 H2].
    apply goc_step_inv; [exact Hks|exact H1|exact H2|].
    apply IH. intros c' Hc'. apply Hc. apply in_or_app. left. exact Hc'.
Qed.

End EmbeddingFacts.

(** *** [has], persistence and [invalidatePattern] *)

Section More.
Context {T : Type}.
Local Open Scope list_scope.

(** [has(key)]: an expired entry is deleted, as in [get]; a live entry is
    left as it is. *)
Definition has (self : Config) (k : string) (now : Z) (m : JsMap.t (CacheEntry T))
  : bool * JsMap.t (CacheEntry T) :=
  match JsMap.get k m with
  | None => (false, m)
  | Some e =>
      if (ttlMs self <? now - timestamp e)%Z then (false, JsMap.delete k m) else (true, m)
  end.

(** [save()] with a [persistPath]: the entries written, in map order. *)
Definition save (m : JsMap.t (CacheEntry T)) : list (CacheEntry T) := JsMap.values m.

(** [load()] with a [persistPath]: [entries] is what [readJson] returns
    ([[]] for a missing file), [now] is [Date.now()]. *)
Definition load (self : Config) (now : Z) (entries : list (CacheEntry T))
  (m : JsMap.t (CacheEntry T)) : JsMap.t (CacheEntry T) :=
  fold_left (fun m entry =>
      if (now - timestamp entry <? ttlMs self)%Z then JsMap.set (key entry) entry m else m)
    entries m.

(** A [RegExp] as [invalidatePattern] uses it: its [g] and [y] flags, and
    [matchAt s i], the end index of the match the pattern makes when it is
    tried exactly at index [i] of [s] (the regular-expression matcher). *)
Record RegExp := mkRegExp {
  global : bool;
  sticky : bool;
  matchAt : string -> nat -> option nat
}.

(** The search loop of [RegExpBuiltinExec]: the matcher is tried at
    [i], [i + 1], ..., [i + n]. *)
Fixpoint scan (re : RegExp) (s : string) (i n : nat) : option nat :=
  match matchAt re s i with
  | Some e => Some e
  | None => match n with O => None | S n' => scan re s (S i) n' end
  end.

(** [pattern.test(s)] when [pattern.lastIndex] is [li]: the answer and the
    new [lastIndex]. A pattern with [g] or [y] starts at [lastIndex] and
    writes it back (the end of the match, or [0] on failure); a sticky one
    only tries that index. A pattern with neither starts at [0] and leaves
    [lastIndex] alone. *)
Definition test (re : RegExp) (li : nat) (s : string) : bool * nat :=
  let flagged := global re || sticky re in
  let start := if flagged then li else 0%nat in
  if Nat.ltb (String.length s) start then (false, if flagged then 0%nat else li)
  else
    match (if sticky re then matchAt re s start
           else scan re s start (String.length s - start)) with
    | Some e => (true, if flagged then e else li)
    | None => (false, if flagged then 0%nat else li)
    end.

(** Whether a pattern with neither flag matches [s] somewhere. *)
Definition matches (re : RegExp) (s : string) : bool :=
  match scan re s 0 (String.length s) with Some _ => true | None => false end.

(** One turn of the loop of [invalidatePattern]: the count, the map and
    [pattern.lastIndex]. *)
Definition invalidate_step (re : RegExp) (acc : nat * JsMap.t (CacheEntry T) * nat) (k : string)
  : nat * JsMap.t (CacheEntry T) * nat :=
  let '(count, m, li) := acc in
  let (b, li') := test re li k in
  if b then (S count, JsMap.delete k m, li') else (count, m, li').

(** [invalidatePattern(pattern)], [lastIndex] being [pattern.lastIndex] at
    the call. The loop deletes only the key it is visiting, so it visits
    every key of the map. *)
Definition invalidatePattern (re : RegExp) (lastIndex : nat) (m : JsMap.t (CacheEntry T))
  : nat * JsMap.t (CacheEntry T) * nat :=
  fold_left (invalidate_step re) (JsMap.keys m) (0%nat, m, lastIndex).

(** The answers of the successive [test] calls on [ks], and the final
    [lastIndex]. *)
Fixpoint run_tests (re : RegExp) (li : nat) (ks : list string) : list bool * nat :=
  match ks with
  | [] => ([], li)
  | k :: ks' =>
      let (b, li') := test re li k in
      let (bs, li'') := run_tests re li' ks' in (b :: bs, li'')
  end.

(** [l] without the entries whose answer is [true]. *)
Fixpoint drop_marked {A : Type} (bs : list bool) (l : list A) : list A :=
  match bs, l with
  | b :: bs', x :: l' => if b then drop_marked bs' l' else x :: drop_marked bs' l'
  | _, _ => l
  end.

Lemma delete_app_notin k v (pre post : JsMap.t (CacheEntry T)) :
  ~ In k (JsMap.keys pre) -> JsMap.delete k (pre ++ (k, v) :: post) = pre ++ post.
Proof.
  induction pre as [|[k' e'] pre IH]; intros Hk; cbn [app JsMap.delete].
  - rewrite String.eqb_refl. reflexivity.
  - destruct (String.eqb_spec k k') as [->|]; [exfalso; apply Hk; left; reflexivity|].
    rewrite IH; [reflexivity|]. intros H. apply Hk. right. exact H.
Qed.

Lemma keys_app (a b : JsMap.t (CacheEntry T)) : JsMap.keys (a ++ b) = JsMap.keys a ++ JsMap.keys b.
Proof. unfold JsMap.keys. apply map_app. Qed.

Lemma invalidate_fold (re : RegExp) (l : JsMap.t (CacheEntry T)) :
  forall (acc : JsMap.t (CacheEntry T)) (c li : nat),
  NoDup (JsMap.keys acc ++ JsMap.keys l) ->
  fold_left (invalidate_step re) (JsMap.keys l) (c, acc ++ l, li) =
  (c + length (filter (fun b => b) (fst (run_tests re li (JsMap.keys l)))),
   acc ++ drop_marked (fst (run_tests re li (JsMap.keys l))) l,
   snd (run_tests re li (JsMap.keys l)))%nat.
Proof.
  induction l as [|[k e] l IH]; intros acc c li Hnd.
  - cbn. rewrite Nat.add_0_r. reflexivity.
  - change (JsMap.keys ((k, e) :: l)) with (k :: JsMap.keys l) in *.
    cbn [fold_left run_tests]. unfold invalidate_step at 2.
    assert (Hk : ~ In k (JsMap.keys acc)).
    { intros Hin. apply NoDup_remove_2 in Hnd. apply Hnd. apply in_or_app. left. exact Hin. }
    destruct (test re li k) as [b li1].
    destruct (run_tests re li1 (JsMap.keys l)) as [bs li2] eqn:Er.
    cbn [fst snd drop_marked filter length].
    destruct b.
    + rewrite (delete_app_notin _ _ _ _ Hk). rewrite IH.
      * rewrite Er. cbn [fst snd length]. f_equal. f_equal. lia.
      * apply NoDup_remove_1 in Hnd. exact Hnd.
    + replace (acc ++ (k, e) :: l) with ((acc ++ [(k, e)]) ++ l) by (rewrite <- app_assoc; reflexivity).
      rewrite IH.
      * rewrite Er. cbn [fst snd]. rewrite <- app_assoc. reflexivity.
      * rewrite keys_app, <- app_assoc. exact Hnd.
Qed.

Lemma run_tests_length re li ks : length (fst (run_tests re li ks)) = length ks.
Proof.
  revert li. induction ks as [|k ks IH]; intros li; cbn [run_tests]; [reflexivity|].
  destruct (test re li k) as [b li1]. specialize (IH li1).
  destruct (run_tests re li1 ks) as [bs li2]. cbn in *. lia.
Qed.

Lemma drop_marked_length {A : Type} (bs : list bool) (l : list A) :
  length bs = length l ->
  (length (drop_marked bs l) + length (filter (fun b => b) bs) = length l)%nat.
Proof.
  revert l. induction bs as [|b bs IH]; intros [|x l] H; cbn in *; try lia.
  destruct b; cbn; specialize (IH l ltac:(lia)); lia.
Qed.

Lemma drop_marked_incl {A : Type} (bs : list bool) (l : list A) x :
  In x (drop_marked bs l) -> In x l.
Proof.
  revert l. induction bs as [|b bs IH]; intros [|y l] H; cbn in *; auto.
  destruct b; [right; auto|]. destruct H as [<-|H]; [left; reflexivity|right; auto].
Qed.

Lemma drop_marked_filter (bs : list bool) (l : JsMap.t (CacheEntry T)) :
  NoDup (JsMap.keys l) ->
  drop_marked bs l =
  filter (fun kv => existsb (String.eqb (fst kv)) (JsMap.keys (drop_marked bs l))) l.
Proof.
  revert l. induction bs as [|b bs IH]; intros l Hnd.
  - cbn [drop_marked]. symmetry. apply forallb_filter_id.
    apply forallb_forall. intros [k e] Hin. apply existsb_exists. exists k.
    split; [apply (in_map fst) in Hin; exact Hin|apply String.eqb_refl].
  - destruct l as [|[k e] l]; [reflexivity|].
    change (JsMap.keys ((k, e) :: l)) with (k :: JsMap.keys l) in Hnd.
    apply NoDup_cons_iff in Hnd as [Hk Hnd].
    assert (Hout : forall kv, In kv l -> String.eqb (fst kv) k = false).
    { intros kv Hkv. apply String.eqb_neq. intros E. apply Hk. rewrite <- E.
      apply (in_map fst). exact Hkv. }
    assert (Hnot : existsb (String.eqb k) (JsMap.keys (drop_marked bs l)) = false).
    { apply Bool.not_true_iff_false. intros Hex. apply existsb_exists in Hex as (k' & Hk' & E).
      apply String.eqb_eq in E. subst k'. apply Hk.
      unfold JsMap.keys in Hk'. apply in_map_iff in Hk' as (kv & <- & Hkv).
      apply (in_map fst). exact (drop_marked_incl bs l kv Hkv). }
    cbn [drop_marked]. destruct b.
    + cbn [filter fst]. rewrite Hnot. apply IH. exact Hnd.
    + change (JsMap.keys ((k, e) :: drop_marked bs l)) with (k :: JsMap.keys (drop_marked bs l)).
      cbn [filter fst existsb]. rewrite String.eqb_refl. cbn [orb]. f_equal.
      rewrite (IH l Hnd) at 1. apply filter_ext_in. intros kv Hkv.
      rewrite (Hout kv Hkv). reflexivity.
Qed.

Lemma scan_match re s : forall n i e, scan re s i n = Some e -> exists j, matchAt re s j = Some e.
Proof.
  induction n as [|n IH]; intros i e H; cbn [scan] in H;
    destruct (matchAt re s i) as [e'|] eqn:E.
  - injection H as <-. eauto.
  - discriminate H.
  - injection H as <-. eauto.
  - exact (IH (S i) e H).
Qed.

Lemma test_true_match re li s li' :
  test re li s = (true, li') -> exists j e, matchAt re s j = Some e.
Proof.
  unfold test. cbv zeta.
  destruct (Nat.ltb _ _); [intros H; discriminate H|].
  destruct (sticky re).
  - destruct (matchAt re s _) as [e|] eqn:E; [intros _; eauto|intros H; discriminate H].
  - destruct (scan re s _ _) as [e|] eqn:E; [|intros H; discriminate H].
    intros _. apply scan_match in E as [j E]. eauto.
Qed.

Lemma run_tests_dropped re (l : JsMap.t (CacheEntry T)) :
  forall li kv, In kv l -> ~ In kv (drop_marked (fst (run_tests re li (JsMap.keys l))) l) ->
  exists j e, matchAt re (fst kv) j = Some e.
Proof.
  induction l as [|[k v] l IH]; intros li kv Hin Hout; [destruct Hin|].
  change (JsMap.keys ((k, v) :: l)) with (k :: JsMap.keys l) in Hout.
  cbn [run_tests] in Hout.
  destruct (test re li k) as [b li1] eqn:Et.
  destruct (run_tests re li1 (JsMap.keys l)) as [bs li2] eqn:Er.
  cbn [fst drop_marked] in Hout.
  pose proof (IH li1 kv) as IH'. rewrite Er in IH'. cbn [fst] in IH'.
  destruct Hin as [<-|Hin].
  - destruct b; [cbn [fst]; exact (test_true_match re li k li1 Et)|].
    exfalso. apply Hout. left. reflexivity.
  - apply IH'; [exact Hin|]. intros H. apply Hout. destruct b; [exact H|right; exact H].
Qed.

Lemma test_unflagged re li s :
  global re = false -> sticky re = false -> test re li s = (matches re s, li).
Proof.
  intros Hg Hs. unfold test, matches. rewrite Hg, Hs. cbn [orb].
  replace (Nat.ltb (String.length s) 0) with false by (symmetry; apply Nat.ltb_ge; lia).
  rewrite Nat.sub_0_r. destruct (scan re s 0 (String.length s)); reflexivity.
Qed.

Lemma run_tests_unflagged re li ks :
  global re = false -> sticky re = false -> run_tests re li ks = (map (matches re) ks, li).
Proof.
  intros Hg Hs. induction ks as [|k ks IH]; cbn [run_tests map]; [reflexivity|].
  rewrite (test_unflagged re li k Hg Hs), IH. reflexivity.
Qed.

Lemma drop_marked_map (f : string -> bool) (l : JsMap.t (CacheEntry T)) :
  drop_marked (map f (JsMap.keys l)) l = filter (fun kv => negb (f (fst kv))) l.
Proof.
  induction l as [|[k v] l IH]; [reflexivity|].
  change (JsMap.keys ((k, v) :: l)) with (k :: JsMap.keys l).
  cbn [map drop_marked filter fst]. destruct (f k); cbn [negb]; rewrite IH; reflexivity.
Qed.

Lemma filter_id_map {A : Type} (f : A -> bool) l :
  length (filter (fun b => b) (map f l)) = length (filter f l).
Proof. induction l as [|x l IH]; cbn; [reflexivity|]. destruct (f x); cbn; rewrite IH; reflexivity. Qed.

Lemma invalidatePattern_spec (re : RegExp) (li : nat) (m : JsMap.t (CacheEntry T)) :
  NoDup (JsMap.keys m) ->
  invalidatePattern re li m =
  (length (filter (fun b => b) (fst (run_tests re li (JsMap.keys m)))),
   drop_marked (fst (run_tests re li (JsMap.keys m))) m,
   snd (run_tests re li (JsMap.keys m))).
Proof.
  intros Hnd. unfold invalidatePattern.
  exact (invalidate_fold re m [] 0%nat li Hnd).
Qed.

Lemma load_values self now (m acc : JsMap.t (CacheEntry T)) :
  NoDup (JsMap.keys acc ++ JsMap.keys m) ->
  Forall (fun x => key (snd x) = fst x) m ->
  Forall (fun x => (now - timestamp (snd x) < ttlMs self)%Z) m ->
  load self now (JsMap.values m) acc = acc ++ m.
Proof.
  revert acc. induction m as [|[k e] m IH]; intros acc Hnd Hkey Hfresh.
  - rewrite app_nil_r. reflexivity.
  - apply Forall_cons_iff in Hkey as [Hk Hkey']. apply Forall_cons_iff in Hfresh as [Hf Hfresh'].
    cbn [fst snd] in Hk, Hf.
    unfold load. cbn [JsMap.values map fold_left snd].
    destruct (Z.ltb_spec (now - timestamp e) (ttlMs self)); [|lia].
    rewrite Hk. change (JsMap.keys ((k, e) :: m)) with (k :: JsMap.keys m) in Hnd.
    rewrite jsmap_set_absent.
    + fold (JsMap.values m). fold (load self now (JsMap.values m) (acc ++ [(k, e)])).
      rewrite IH; [rewrite <- app_assoc; reflexivity| |exact Hkey'|exact Hfresh'].
      rewrite keys_app, <- app_assoc. exact Hnd.
    + destruct (JsMap.has k acc) eqn:E; [|reflexivity].
      apply JsMap.has_In in E. apply NoDup_remove_2 in Hnd.
      exfalso. apply Hnd. apply in_or_app. left. exact E.
Qed.

Lemma load_get self now entries (m : JsMap.t (CacheEntry T)) k e :
  JsMap.get k (load self now entries m) = Some e ->
  JsMap.get k m = Some e \/ (In e entries /\ (now - timestamp e < ttlMs self)%Z).
Proof.
  unfold load. revert k e.
  apply (TsParser.fold_inv (fun m' : JsMap.t (CacheEntry T) => forall k e, JsMap.get k m' = Some e ->
           JsMap.get k m = Some e \/ (In e entries /\ (now - timestamp e < ttlMs self)%Z))).
  - intros x Hx m' IH k e. destruct (Z.ltb_spec (now - timestamp x) (ttlMs self)); [|apply IH].
    rewrite JsMap.get_set. destruct (String.eqb k (key x)); [|apply IH].
    intros [= <-]. right. auto.
  - auto.
Qed.

(** The size and the keys after [JsMap.set] and [JsMap.delete]. *)
Lemma size_set k v (m : JsMap.t (CacheEntry T)) :
  JsMap.size (JsMap.set k v m) = if JsMap.has k m then JsMap.size m else S (JsMap.size m).
Proof.
  unfold JsMap.size. rewrite <- (length_map fst (JsMap.set k v m)), <- (length_map fst m).
  fold (JsMap.keys (JsMap.set k v m)) (JsMap.keys m). rewrite JsMap.keys_set.
  destruct (JsMap.has k m); [reflexivity|]. rewrite length_app. cbn. lia.
Qed.

Lemma keys_delete_incl k (m : JsMap.t (CacheEntry T)) x :
  In x (JsMap.keys (JsMap.delete k m)) -> In x (JsMap.keys m).
Proof.
  induction m as [|[k' e'] m IH]; cbn [JsMap.delete]; [auto|].
  change (JsMap.keys ((k', e') :: m)) with (k' :: JsMap.keys m).
  destruct (String.eqb k k'); [intros H; right; exact H|].
  change (JsMap.keys ((k', e') :: JsMap.delete k m)) with (k' :: JsMap.keys (JsMap.delete k m)).
  intros [H|H]; [left; exact H|right; exact (IH H)].
Qed.

Lemma keys_delete_other k (m : JsMap.t (CacheEntry T)) x :
  x <> k -> In x (JsMap.keys m) -> In x (JsMap.keys (JsMap.delete k m)).
Proof.
  intros Hx. induction m as [|[k' e'] m IH]; cbn [JsMap.delete]; [auto|].
  change (JsMap.keys ((k', e') :: m)) with (k' :: JsMap.keys m).
  destruct (String.eqb_spec k k') as [->|].
  - intros [->|H]; [congruence|exact H].
  - change (JsMap.keys ((k', e') :: JsMap.delete k m)) with (k' :: JsMap.keys (JsMap.delete k m)).
    intros [H|H]; [left; exact H|right; exact (IH H)].
Qed.

Lemma NoDup_keys_delete k (m : JsMap.t (CacheEntry T)) :
  NoDup (JsMap.keys m) -> NoDup (JsMap.keys (JsMap.delete k m)).
Proof.
  induction m as [|[k' e'] m IH]; cbn [JsMap.delete]; [auto|].
  change (JsMap.keys ((k', e') :: m)) with (k' :: JsMap.keys m).
  intros Hnd. inversion Hnd as [|? ? Hn Hnd']; subst.
  destruct (String.eqb k k'); [exact Hnd'|].
  change (JsMap.keys ((k', e') :: JsMap.delete k m)) with (k' :: JsMap.keys (JsMap.delete k m)).
  constructor; [|exact (IH Hnd')]. intros H. apply Hn. exact (keys_delete_incl _ _ _ H).
Qed.

Lemma size_delete k (m : JsMap.t (CacheEntry T)) :
  In k (JsMap.keys m) -> S (JsMap.size (JsMap.delete k m)) = JsMap.size m.
Proof.
  induction m as [|[k' e'] m IH]; [intros []|].
  change (JsMap.keys ((k', e') :: m)) with (k' :: JsMap.keys m).
  intros Hin. cbn [JsMap.delete]. destruct (String.eqb_spec k k') as [->|Hne]; [reflexivity|].
  destruct Hin as [->|Hin]; [congruence|]. unfold JsMap.size in *. cbn [length].
  rewrite <- (IH Hin). reflexivity.
Qed.

Lemma oldest_in (m : JsMap.t (CacheEntry T)) :
  m <> [] -> exists k e, oldest m = (Some e, Some k) /\ In (k, e) m.
Proof.
  destruct m as [|[k0 e0] r]; [congruence|]. intros _. unfold oldest. cbn [fold_left fst snd].
  apply (TsParser.fold_inv (fun acc : option (CacheEntry T) * option string =>
           exists k e, acc = (Some e, Some k) /\ In (k, e) ((k0, e0) :: r))).
  - intros x Hx acc (k & e & -> & Hin). cbn [fst snd].
    destruct (Z.ltb _ _); [exists (fst x), (snd x); split; [reflexivity|]|exists k, e; auto].
    right. destruct x; exact Hx.
  - exists k0, e0. split; [reflexivity|left; reflexivity].
Qed.

Lemma evictLRU_keys (m : JsMap.t (CacheEntry T)) :
  m <> [] -> ~ In "" (JsMap.keys m) ->
  exists k, In k (JsMap.keys m) /\ evictLRU m = JsMap.delete k m.
Proof.
  intros Hm He. destruct (oldest_in m Hm) as (k & e & Ho & Hin).
  assert (Hk : In k (JsMap.keys m)) by (apply (in_map fst) in Hin; exact Hin).
  exists k. split; [exact Hk|]. unfold evictLRU. rewrite Ho. cbn [snd].
  destruct (String.eqb_spec k ""); [subst; contradiction|reflexivity].
Qed.

(** The bound [set] keeps, when no key is the empty string. *)
Definition SizeInv (self : Config) (m : JsMap.t (CacheEntry T)) : Prop :=
  NoDup (JsMap.keys m) /\ ~ In "" (JsMap.keys m) /\ (Z.of_nat (JsMap.size m) <= maxSize self)%Z.

Lemma set_SizeInv self k v now m :
  (1 <= maxSize self)%Z -> k <> "" -> SizeInv self m -> SizeInv self (set self k v now m).
Proof.
  intros Hmax Hk (Hnd & He & Hs). unfold set.
  destruct (Z.leb_spec (maxSize self) (Z.of_nat (JsMap.size m))) as [Hfull|Hroom];
    destruct (JsMap.has k m) eqn:Hh; cbn [negb andb].
  - split; [apply JsMap.NoDup_keys_set; exact Hnd|split].
    + rewrite JsMap.keys_set, Hh. exact He.
    + rewrite size_set, Hh. exact Hs.
  - assert (Hne : m <> []) by (intros ->; cbn in Hfull; lia).
    destruct (evictLRU_keys m Hne He) as (k' & Hk' & ->).
    pose proof (size_delete k' m Hk') as Hsz.
    assert (Hh' : JsMap.has k (JsMap.delete k' m) = false).
    { destruct (JsMap.has k (JsMap.delete k' m)) eqn:E; [|reflexivity].
      apply JsMap.has_In, keys_delete_incl, JsMap.has_In in E. congruence. }
    split; [apply JsMap.NoDup_keys_set, NoDup_keys_delete; exact Hnd|split].
    + rewrite JsMap.keys_set, Hh'. intros Hin. apply in_app_or in Hin.
      destruct Hin as [Hin|[Hin|[]]]; [exact (He (keys_delete_incl _ _ _ Hin))|congruence].
    + rewrite size_set, Hh'. lia.
  - split; [apply JsMap.NoDup_keys_set; exact Hnd|split].
    + rewrite JsMap.keys_set, Hh. exact He.
    + rewrite size_set, Hh. exact Hs.
  - split; [apply JsMap.NoDup_keys_set; exact Hnd|split].
    + rewrite JsMap.keys_set, Hh. intros Hin. apply in_app_or in Hin.
      destruct Hin as [Hin|[Hin|[]]]; [exact (He Hin)|congruence].
    + rewrite size_set, Hh. lia.
Qed.

Lemma get_SizeInv self k now m : SizeInv self m -> SizeInv self (snd (get self k now m)).
Proof.
  intros (Hnd & He & Hs). unfold get.
  destruct (JsMap.get k m) as [e|] eqn:E; [|split; auto].
  destruct (_ <? _)%Z; cbn [snd].
  - split; [apply NoDup_keys_delete; exact Hnd|split].
    + intros Hin. exact (He (keys_delete_incl _ _ _ Hin)).
    + destruct (in_dec String.string_dec k (JsMap.keys m)) as [Hin|Hnin].
      * pose proof (size_delete k m Hin). lia.
      * exfalso. apply Hnin. exact (in_map fst _ _ (jsmap_get_In _ _ _ E)).
  - assert (Hh : JsMap.has k m = true) by (unfold JsMap.has; rewrite E; reflexivity).
    split; [apply JsMap.NoDup_keys_set; exact Hnd|split].
    + rewrite JsMap.keys_set, Hh. exact He.
    + rewrite size_set, Hh. exact Hs.
Qed.

Lemma rounds_SizeInv self (rounds : list (list (string * Z) * (string * T * Z))) m :
  (1 <= maxSize self)%Z -> (forall r, In r rounds -> set_key r <> "") ->
  SizeInv self m -> SizeInv self (fold_left (run_round self) rounds m).
Proof.
  intros Hmax Hk. apply TsParser.fold_inv.
  intros [gs [[k v] now]] Hin m' Hm'. unfold run_round. cbn [fst snd].
  apply set_SizeInv; [exact Hmax|exact (Hk _ Hin)|].
  apply (TsParser.fold_inv (SizeInv self)); [|exact Hm'].
  intros kt _ m'' H. exact (get_SizeInv self (fst kt) (snd kt) m'' H).
Qed.

End More.

(** *** Keys of [createKey] *)

Lemma toInt32_range z : (- 2 ^ 31 <= toInt32 z < 2 ^ 31)%Z.
Proof.
  unfold toInt32. pose proof (Z.mod_pos_bound z (2 ^ 32) ltac:(lia)).
  destruct (Z.leb_spec (2 ^ 31) (z mod 2 ^ 32)); lia.
Qed.

Lemma hash_range l : forall h, (- 2 ^ 31 <= h < 2 ^ 31)%Z ->
  (- 2 ^ 31 <= fold_left hash_step l h < 2 ^ 31)%Z.
Proof.
  induction l as [|c l IH]; intros h Hh; cbn [fold_left]; [exact Hh|].
  apply IH. apply toInt32_range.
Qed.

(** The value of a base-36 digit written by [digit36]. *)
Definition digit_value (c : ascii) : Z :=
  let n := Z.of_nat (nat_of_ascii c) in n - (if (n <? 58)%Z then 48 else 87).

Fixpoint val36 (s : string) : Z :=
  match s with
  | EmptyString => 0
  | String c r => digit_value c * 36 ^ Z.of_nat (String.length r) + val36 r
  end.

Lemma digit_value_digit36 d : (0 <= d < 36)%Z -> digit_value (digit36 d) = d.
Proof.
  intros Hd. unfold digit_value, digit36.
  rewrite nat_ascii_embedding by (destruct (Z.ltb_spec d 10); lia).
  rewrite Z2Nat.id by (destruct (Z.ltb_spec d 10); lia).
  destruct (Z.ltb_spec d 10); [destruct (Z.ltb_spec (48 + d) 58)|destruct (Z.ltb_spec (87 + d) 58)];
    lia.
Qed.

Lemma val36_digits36 f : forall n acc, (0 <= n < 36 ^ Z.of_nat f)%Z ->
  val36 (digits36 f n acc) = (n * 36 ^ Z.of_nat (String.length acc) + val36 acc)%Z.
Proof.
  induction f as [|f IH]; intros n acc Hn; cbn [digits36].
  - cbn in Hn. assert (n = 0%Z) as -> by lia. lia.
  - rewrite Nat2Z.inj_succ, Z.pow_succ_r in Hn by lia.
    pose proof (Z.mod_pos_bound n 36 ltac:(lia)) as Hm.
    assert (Hdm : n = (36 * (n / 36) + n mod 36)%Z) by (apply Z.div_mod; lia).
    destruct (Z.ltb_spec n 36).
    + cbn [val36]. rewrite digit_value_digit36 by exact Hm.
      rewrite Z.mod_small by lia. reflexivity.
    + rewrite IH.
      * cbn [val36 String.length]. rewrite digit_value_digit36 by exact Hm.
        rewrite Nat2Z.inj_succ, Z.pow_succ_r by lia.
        set (P := (36 ^ Z.of_nat (String.length acc))%Z).
        replace (n * P)%Z with ((36 * (n / 36) + n mod 36) * P)%Z by (rewrite <- Hdm; reflexivity).
        ring.
      * split; [apply Z.div_pos; lia|]. apply Z.div_lt_upper_bound; lia.
Qed.

Lemma digits36_head f : forall n acc,
  exists d s, digits36 (S f) n acc = String (digit36 d) s /\ (0 <= d < 36)%Z.
Proof.
  induction f as [|f IH]; intros n acc; cbn [digits36].
  - exists (n mod 36)%Z, acc. destruct (n <? 36)%Z; split; auto; apply Z.mod_pos_bound; lia.
  - destruct (n <? 36)%Z; [|apply IH].
    exists (n mod 36)%Z, acc. split; auto. apply Z.mod_pos_bound; lia.
Qed.

Lemma digit36_not_minus d : (0 <= d < 36)%Z -> digit36 d <> "-"%char.
Proof.
  intros Hd E. apply (f_equal nat_of_ascii) in E. unfold digit36 in E.
  rewrite nat_ascii_embedding in E by (destruct (Z.ltb_spec d 10); lia).
  change (nat_of_ascii "-"%char) with 45%nat in E. destruct (Z.ltb_spec d 10); lia.
Qed.

Lemma toString36_inj a b :
  (- 36 ^ 8 < a < 36 ^ 8)%Z -> (- 36 ^ 8 < b < 36 ^ 8)%Z -> toString36 a = toString36 b -> a = b.
Proof.
  intros Ha Hb E. unfold toString36 in E.
  assert (H8 : (36 ^ Z.of_nat 8 = 36 ^ 8)%Z) by reflexivity.
  destruct (Z.ltb_spec a 0), (Z.ltb_spec b 0).
  - assert (E' : digits36 8 (- a) "" = digits36 8 (- b) "")
      by exact (f_equal (fun s => match s with String _ r => r | EmptyString => EmptyString end) E).
    apply (f_equal val36) in E'.
    rewrite !val36_digits36 in E' by (rewrite H8; lia). cbn in E'. lia.
  - destruct (digits36_head 7 b "") as (d & s & Es & Hd). rewrite Es in E.
    assert (E' : "-"%char = digit36 d)
      by exact (f_equal (fun s => match s with String c _ => c | EmptyString => "a"%char end) E).
    exfalso. exact (digit36_not_minus d Hd (eq_sym E')).
  - destruct (digits36_head 7 a "") as (d & s & Es & Hd). rewrite Es in E.
    assert (E' : digit36 d = "-"%char)
      by exact (f_equal (fun s => match s with String c _ => c | EmptyString => "a"%char end) E).
    exfalso. exact (digit36_not_minus d Hd E').
  - apply (f_equal val36) in E.
    rewrite !val36_digits36 in E by (rewrite H8; lia). cbn in E. lia.
Qed.

End Cache.

(** ** [RandomEmbedder] (src/unnamed/part_002, src/src/rag/embeddings.ts),
    the embedder [indexCommand] (src/src/cli/commands.ts) falls back to when
    LM Studio is unavailable *)
Module Embed.
Local Open Scope R_scope.

Section Random.
(** [Math.random] as a generator of state [RS]: each call draws one number
    and moves the generator on. *)
Context {RS : Type}.
Variable math_random : RS -> R * RS.

(** [Array.from({ length: dim }, () => Math.random())]: [dim] draws, in
    index order. *)
Fixpoint fill (dim : nat) (rs : RS) : list R * RS :=
  match dim with
  | O => ([], rs)
  | S d =>
      let (x, rs1) := math_random rs in
      let (xs, rs2) := fill d rs1 in
      (x :: xs, rs2)
  end.

(** [embed(texts) = texts.map(() => Array.from(...))]: one vector per text,
    the text itself unused. *)
Fixpoint embed (dim : nat) (texts : list string) (rs : RS) : list (list R) * RS :=
  match texts with
  | [] => ([], rs)
  | _ :: ts =>
      let (v, rs1) := fill dim rs in
      let (vs, rs2) := embed dim ts rs1 in
      (v :: vs, rs2)
  end.

Lemma fill_add a b rs :
  fill (a + b) rs =
  (fst (fill a rs) ++ fst (fill b (snd (fill a rs))), snd (fill b (snd (fill a rs))))%list.
Proof.
  revert rs. induction a as [|a IH]; intros rs; cbn [fill Nat.add].
  - cbn [fst snd app]. destruct (fill b rs); reflexivity.
  - destruct (math_random rs) as [x rs1]. rewrite IH.
    destruct (fill a rs1) as [xs rs2]. cbn [fst snd]. reflexivity.
Qed.

Lemma fill_length dim rs : length (fst (fill dim rs)) = dim.
Proof.
  revert rs. induction dim as [|d IH]; intros rs; [reflexivity|]. cbn [fill].
  destruct (math_random rs) as [x rs1]. specialize (IH rs1).
  destruct (fill d rs1) as [xs rs2]. cbn in *. rewrite IH. reflexivity.
Qed.

Lemma embed_ignores_text dim ts ts' rs :
  length ts = length ts' -> embed dim ts rs = embed dim ts' rs.
Proof.
  revert ts' rs. induction ts as [|t ts IH]; intros [|t' ts'] rs Hlen;
    cbn [length] in Hlen; try discriminate; [reflexivity|].
  cbn [embed]. destruct (fill dim rs) as [v rs1].
  rewrite (IH ts' rs1) by congruence. reflexivity.
Qed.

Lemma embed_draws dim ts rs :
  Forall (fun v => length v = dim) (fst (embed dim ts rs)) /\
  length (fst (embed dim ts rs)) = length ts /\
  (concat (fst (embed dim ts rs)), snd (embed dim ts rs)) = fill (length ts * dim) rs.
Proof.
  revert rs. induction ts as [|t ts IH]; intros rs; [repeat constructor|].
  cbn [embed length]. rewrite Nat.mul_succ_l, Nat.add_comm, fill_add.
  pose proof (fill_length dim rs) as Hv.
  destruct (fill dim rs) as [v rs1]. cbn [fst snd] in *.
  destruct (IH rs1) as (Hf & Hl & Hc).
  destruct (embed dim ts rs1) as [vs rs2]. cbn [fst snd concat] in *.
  rewrite <- Hc. cbn [fst snd].
  split; [constructor; assumption|split; [cbn [length]; congruence|reflexivity]].
Qed.
End Random.

(** [new RandomEmbedder(256)] in [indexCommand]. *)
Definition fallback_dim : nat := 256.

(** A [Math.random] stand-in for concrete runs: its [n]-th draw is
    [1 / (n + 2)], a number in [[0, 1)]. *)
Definition ex_random (n : nat) : R * nat := (/ INR (n + 2), S n).

End Embed.


(** ** Notions of the specification, compared with the code above *)
Module SpecDefs.
Import TsParser.

(** The spec's "function literal" initializer: an arrow function or a
    [function] expression. *)
Definition is_function_literal (init : option TsNode) : bool :=
  match init with
  | Some (ArrowFunction _) | Some (FunctionExpression _ _) => true
  | _ => false
  end.

(** *** Graph boosting as the spec words it *)

Import Graph Hybrid.

(** The [imports] and [importedBy] counts of a file id: its outgoing and
    incoming [imports] edges. *)
Definition imports_count (g : CodeGraph) (fileId : string) : nat :=
  length (filter (fun e => EdgeType_eqb (etype e) Eimports && String.eqb (source e) fileId)
                 (edges g)).

Definition importedBy_count (g : CodeGraph) (fileId : string) : nat :=
  length (filter (fun e => EdgeType_eqb (etype e) Eimports && String.eqb (target e) fileId)
                 (edges g)).

(** "directly import-connected, in either direction". *)
Definition import_connected (g : CodeGraph) (a b : string) : bool :=
  existsb (fun e => EdgeType_eqb (etype e) Eimports &&
                    ((String.eqb (source e) a && String.eqb (target e) b) ||
                     (String.eqb (target e) a && String.eqb (source e) b))) (edges g).

(** "a file path known to the graph": the graph has the file node [file:<path>]. *)
Definition file_known (g : CodeGraph) (p : string) : bool :=
  existsb (fun n => String.eqb (ntype n) "file" && String.eqb (id n) ("file:" ++ p)) (nodes g).

(** [1 + 0.3 [importedBy > 2] + 0.2 [imports > 3] + 0.4 * relatedCount]. *)
Definition spec_multiplier (g : CodeGraph) (fileId : string) (relatedCount : nat) : Q :=
  1 + (if Nat.ltb 2 (importedBy_count g fileId) then 3 # 10 else 0)
    + (if Nat.ltb 3 (imports_count g fileId) then 2 # 10 else 0)
    + (4 # 10) * inject_Z (Z.of_nat relatedCount).

Section Related.
Context {Doc : Type} (fp : Doc -> option string).

(** relatedCount of the candidate of rank [i] and path [p], as the claim
    words it: the candidates of the other ranks whose file is
    import-connected to [p]. *)
Definition claim_related (g : CodeGraph) (docs : list Doc) (i : nat) (p : string) : nat :=
  length (filter (fun jd => negb (Nat.eqb (fst jd) i) &&
                   match fp (snd jd) with
                   | Some q => import_connected g ("file:" ++ p) ("file:" ++ q)
                   | None => false
                   end) (combine (seq 0 (length docs)) docs)).

(** The candidates whose file differs from [p] and is import-connected to it. *)
Definition distinct_file_related (g : CodeGraph) (docs : list Doc) (p : string) : nat :=
  length (filter (fun d =>
                   match fp d with
                   | Some q => negb (String.eqb ("file:" ++ q) ("file:" ++ p)) &&
                               import_connected g ("file:" ++ p) ("file:" ++ q)
                   | None => false
                   end) docs).

End Related.

Lemma related_docs_spec cbm Doc content g p docs :
  related_docs cbm Doc content g ("file:" ++ p) docs =
  distinct_file_related (fun d => file_path_of cbm (content d)) g docs p.
Proof.
  unfold related_docs, distinct_file_related.
  induction docs as [|d docs IH]; [reflexivity|]. cbn [filter]. cbv zeta.
  destruct (file_path_of cbm (content d)) as [q|]; [|exact IH].
  rewrite connected_ids_spec. unfold import_connected.
  destruct (_ && _); cbn [length]; rewrite IH; reflexivity.
Qed.

(** Every candidate whose path names a file node gets the score
    [initial_score i * spec_multiplier], relatedCount counting the candidates
    of another file. *)
Lemma boost_score_spec cbm Doc content g docs i d p :
  nth_error docs i = Some d ->
  file_path_of cbm (content d) = Some p ->
  file_known g p = true ->
  exists s, nth_error (scoreWithGraphBoost cbm Doc content g docs) i = Some (d, s) /\
    s == initial_score i *
         spec_multiplier g ("file:" ++ p)
           (distinct_file_related (fun d => file_path_of cbm (content d)) g docs p).
Proof.
  intros Hd Hp Hk. rewrite scoreWithGraphBoost_nth, Hd. eexists; split; [reflexivity|].
  unfold boosted_score. rewrite Hp, buildFileConnectionMap_get.
  unfold file_known in Hk. rewrite Hk, related_docs_spec.
  unfold boost_multiplier, spec_multiplier, importedBy_count, imports_count,
    conn_plus, conn_zero, ecount.
  cbn [imports importedBy Nat.add].
  set (rc := distinct_file_related _ g docs p).
  destruct (Nat.ltb 2 _), (Nat.ltb 3 _); destruct (Nat.ltb_spec 0 rc) as [Hr|Hr];
    try (replace rc with O by lia; simpl); ring.
Qed.

(** *** Graphs whose import edges are a given list, up to order *)

Lemma length_filter_perm {A : Type} (f : A -> bool) (l l' : list A) :
  Permutation l l' -> length (filter f l) = length (filter f l').
Proof.
  induction 1; cbn [filter]; try reflexivity.
  - destruct (f x); cbn [length]; auto.
  - destruct (f x), (f y); reflexivity.
  - congruence.
Qed.

Lemma existsb_perm {A : Type} (f : A -> bool) (l l' : list A) :
  Permutation l l' -> existsb f l = existsb f l'.
Proof.
  induction 1; cbn [existsb]; try reflexivity.
  - now rewrite IHPermutation.
  - destruct (f x), (f y); reflexivity.
  - congruence.
Qed.

Lemma length_filter_imports (f : GraphEdge -> bool) (l : list GraphEdge) :
  length (filter (fun e => EdgeType_eqb (etype e) Eimports && f e) l) =
  length (filter f (filter (fun e => EdgeType_eqb (etype e) Eimports) l)).
Proof.
  induction l as [|e l IH]; [reflexivity|]. cbn [filter].
  destruct (EdgeType_eqb (etype e) Eimports); cbn [andb filter]; [|exact IH].
  destruct (f e); cbn [length]; auto.
Qed.

Lemma existsb_filter_imports (f : GraphEdge -> bool) (l : list GraphEdge) :
  existsb (fun e => EdgeType_eqb (etype e) Eimports && f e) l =
  existsb f (filter (fun e => EdgeType_eqb (etype e) Eimports) l).
Proof.
  induction l as [|e l IH]; [reflexivity|]. cbn [filter existsb].
  destruct (EdgeType_eqb (etype e) Eimports); cbn [andb existsb]; [|exact IH].
  now rewrite IH.
Qed.

Lemma eqb_app_l (p q r : string) : String.eqb (p ++ q) (p ++ r) = String.eqb q r.
Proof.
  destruct (String.eqb_spec q r) as [->|Hne]; [apply String.eqb_refl|].
  apply String.eqb_neq. intros H. exact (Hne (app_prefix_inj p q r H)).
Qed.

Ltac str_cases :=
  repeat match goal with
         | |- context [String.eqb ?a ?b] => destruct (String.eqb_spec a b)
         end.

(** The candidates of another file among [cyc]. *)
Definition cycle_related {Doc : Type} (fp : Doc -> option string) (cyc : list string)
  (docs : list Doc) (x : string) : nat :=
  length (filter (fun d => match fp d with
                           | Some q => negb (String.eqb q x) && existsb (String.eqb q) cyc
                           | None => false
                           end) docs).

Definition cycle_edges (a b c : string) : list GraphEdge :=
  [mkEdge ("file:" ++ a) ("file:" ++ b) Eimports; mkEdge ("file:" ++ b) ("file:" ++ c) Eimports;
   mkEdge ("file:" ++ c) ("file:" ++ a) Eimports].

Section Cycle.
Variables (g : CodeGraph) (a b c : string).
Hypotheses (Hab : a <> b) (Hbc : b <> c) (Hac : a <> c).
Hypothesis Hcyc :
  Permutation (filter (fun e => EdgeType_eqb (etype e) Eimports) (edges g)) (cycle_edges a b c).

Lemma cycle_counts x :
  In x [a; b; c] -> importedBy_count g ("file:" ++ x) = 1%nat /\ imports_count g ("file:" ++ x) = 1%nat.
Proof.
  intros Hx. unfold importedBy_count, imports_count.
  rewrite !length_filter_imports, !(length_filter_perm _ _ _ Hcyc).
  unfold cycle_edges. cbn [filter source target].
  rewrite !eqb_app_l.
  destruct Hx as [<-|[<-|[<-|[]]]]; str_cases; try congruence; split; reflexivity.
Qed.

Lemma cycle_connected x q :
  In x [a; b; c] ->
  negb (String.eqb ("file:" ++ q) ("file:" ++ x)) &&
  import_connected g ("file:" ++ x) ("file:" ++ q) =
  negb (String.eqb q x) && existsb (String.eqb q) [a; b; c].
Proof.
  intros Hx. unfold import_connected.
  rewrite existsb_filter_imports, (existsb_perm _ _ _ Hcyc).
  unfold cycle_edges. cbn [existsb source target].
  rewrite !eqb_app_l.
  destruct Hx as [<-|[<-|[<-|[]]]]; str_cases; subst; try congruence; reflexivity.
Qed.

Lemma cycle_related_eq {Doc : Type} (fp : Doc -> option string) docs x :
  In x [a; b; c] -> distinct_file_related fp g docs x = cycle_related fp [a; b; c] docs x.
Proof.
  intros Hx. unfold distinct_file_related, cycle_related.
  induction docs as [|d docs IH]; [reflexivity|]. cbn [filter].
  destruct (fp d) as [q|]; [|exact IH].
  rewrite (cycle_connected x q Hx).
  destruct (_ && _); cbn [length]; rewrite IH; reflexivity.
Qed.

End Cycle.

End SpecDefs.

(** ** Retrieval examples *)
Module HybridExample.
Import Graph Hybrid.

(** A [codeBlockMatch] that never matches: the contents below have no
    [```] fence, so the second pattern of [extractFilePath] cannot match them. *)
Definition no_code_block (content : string) : option string := None.

Definition nl : string := String (ascii_of_nat 10) EmptyString.

(** A file that imports itself ([import './a'] in [a.ts]). *)
Definition self_import_graph : CodeGraph :=
  mkGraph [mkNode "file:a.ts" "a.ts" "file" (Some "a.ts") None]
          [mkEdge "file:a.ts" "file:a.ts" Eimports].

(** The [mockGraph] of the [HybridRetriever] tests (src/unnamed/part_002). *)
Definition mock_graph : CodeGraph :=
  mkGraph
    [mkNode "file:src/file0.ts" "file0.ts" "file" (Some "src/file0.ts") None;
     mkNode "file:src/file1.ts" "file1.ts" "file" (Some "src/file1.ts") None;
     mkNode "file:src/file2.ts" "file2.ts" "file" (Some "src/file2.ts") None;
     mkNode "function:src/file0.ts:main" "main" "function" (Some "src/file0.ts") None]
    [mkEdge "file:src/file0.ts" "file:src/file1.ts" Eimports;
     mkEdge "file:src/file1.ts" "file:src/file2.ts" Eimports;
     mkEdge "file:src/file2.ts" "file:src/file0.ts" Eimports;
     mkEdge "function:src/file0.ts:main" "function:src/file1.ts:helper" Ecalls;
     mkEdge "file:src/file0.ts" "function:src/file0.ts:main" Econtains].

(** The content [MockRagEngine.search] gives its [i]-th document. *)
Definition mock_doc (i : string) : string :=
  "File: src/file" ++ i ++ ".ts" ++ nl ++ nl ++ "Some code here".

Definition mock_docs : list string := [mock_doc "0"; mock_doc "1"].

(** A store of four records and an embedder that maps every text to [[1]]. *)
Definition ex_records : list Vectors.VectorRecord :=
  map (fun i => Vectors.mkRecord i i [1%R]) ["r0"; "r1"; "r2"; "r3"].

Definition ex_embed (es : unit) (texts : list string) : unit * list (list R) :=
  (es, map (fun _ => [1%R]) texts).

Definition ex_rag_search (q : string) (k : Z) (es : unit) : unit * option (list Vectors.Document) :=
  Vectors.search unit ex_embed ex_records q k es.

End HybridExample.

(** * Claims *)
Module Claims.
Import TsParser Graph GraphExample SpecDefs Hybrid HybridExample.

(** C1, counterexample — the fallback embedder is [RandomEmbedder(256)],
    which fills each vector with [Math.random()] draws: two successive calls
    on the same text ["t"] start from different generator states and give
    different vectors (first components [1/2] and [1/258] with the
    stand-in generator [ex_random]). *)
Lemma C1_fallback_two_calls_differ :
  let call1 := Embed.embed Embed.ex_random Embed.fallback_dim ["t"] 0%nat in
  let call2 := Embed.embed Embed.ex_random Embed.fallback_dim ["t"] (snd call1) in
  hd 0%R (hd [] (fst call1)) = (/ INR 2)%R /\
  hd 0%R (hd [] (fst call2)) = (/ INR 258)%R /\
  (/ INR 258 < / INR 2)%R.
Proof.
  cbv zeta. split; [reflexivity|split; [reflexivity|]].
  apply Rinv_lt_contravar.
  - apply Rmult_lt_0_compat; apply lt_0_INR; lia.
  - apply lt_INR; lia.
Qed.

(** C1 (amended) — the fallback embedder does not read its texts: for any
    [Math.random] generator, (a) two calls from the same generator state on
    lists of texts of the same length return the same vectors, whatever the
    texts; (b) a call on [n] texts returns [n] vectors of [dim] numbers
    each, which are, in order, the next [n * dim] draws of the generator.
    Two calls on the same text are bit-identical only when the generator
    yields the same draws. *)
Theorem C1_fallback_output_is_draws :
  (forall (RS : Type) (math_random : RS -> R * RS) dim ts ts' rs,
     length ts = length ts' ->
     Embed.embed math_random dim ts rs = Embed.embed math_random dim ts' rs) /\
  (forall (RS : Type) (math_random : RS -> R * RS) dim ts rs,
     Forall (fun v => length v = dim) (fst (Embed.embed math_random dim ts rs)) /\
     length (fst (Embed.embed math_random dim ts rs)) = length ts /\
     (concat (fst (Embed.embed math_random dim ts rs)), snd (Embed.embed math_random dim ts rs)) =
       Embed.fill math_random (length ts * dim) rs).
Proof.
  split.
  - intros RS math_random. exact (Embed.embed_ignores_text math_random).
  - intros RS math_random. exact (Embed.embed_draws math_random).
Qed.

(** Witness of C1: from one generator state, ["a"] and ["b"] embed alike. *)
Lemma C1_fallback_output_is_draws_witness :
  Embed.embed Embed.ex_random Embed.fallback_dim ["a"] 0%nat =
  Embed.embed Embed.ex_random Embed.fallback_dim ["b"] 0%nat.
Proof. apply (proj1 C1_fallback_output_is_draws). reflexivity. Defined.

(** C2 — after [buildCompleteGraph], no two nodes of the returned graph
    share an id, and the source and the target of every edge (contains,
    imports and calls alike) are ids of nodes of the returned graph. This
    holds for every file set, every file-system content and every result
    of the TypeScript parser and of the [node:path] functions. *)
Theorem C2_buildCompleteGraph_ids_unique_edges_closed
  readFile path_resolve path_resolve2 path_dirname path_relative createSourceFile
  (projectRoot : string) (symbolFiles : list string) :
  let g := buildCompleteGraph readFile path_resolve path_resolve2 path_dirname path_relative
             createSourceFile projectRoot symbolFiles in
  NoDup (map id (nodes g)) /\
  forall e, In e (edges g) ->
    In (source e) (map id (nodes g)) /\ In (target e) (map id (nodes g)).
Proof.
  cbv zeta. unfold buildCompleteGraph. cbv zeta. simpl.
  assert (H0 : BaseInv empty_builder /\ FprOk empty_builder).
  { split; [split; [constructor|split; [constructor|intros e []]]|intros fp pr []]. }
  destruct (fold_parse_ok readFile path_resolve createSourceFile (dedup symbolFiles)
              empty_builder (proj1 H0) (proj2 H0)) as [H1 H2].
  destruct (buildEdges_ok path_resolve path_resolve2 path_dirname path_relative
              projectRoot _ H1 H2) as (Hnd & Hid & He).
  rewrite keys_values_ids by exact Hid.
  split; [exact Hnd|].
  intros e Hin. destruct (He e Hin) as [Hs Ht].
  split; apply JsMap.has_In; assumption.
Qed.

(** C8 — Call resolution is local to the calling file. (a) [findCallTarget]
    only ever answers the id [function:<file>:<calleeName>] of the calling
    file: for a dotted name the method id [function:<file>:<Receiver>.<method>]
    it tries first is that same string, and the answer is given exactly when a
    node of that id exists. (b) Hence in every graph [buildCompleteGraph]
    returns (for any parser output whose identifiers contain no colon), both
    endpoint nodes of a [calls] edge belong to one and the same file. (c) In the
    project where [a.ts]'s [main] calls [helper], defined only in [b.ts], the
    call is extracted but the built graph has no [calls] edge from [main] to
    [helper], while [b.ts]'s own call to [fmt] is resolved. *)
Theorem C8_call_resolution_same_file :
  (forall (calleeName filePath : string) (nodes : JsMap.t GraphNode),
     findCallTarget calleeName filePath nodes =
     if JsMap.has ("function:" ++ filePath ++ ":" ++ calleeName) nodes
     then Some ("function:" ++ filePath ++ ":" ++ calleeName) else None) /\
  (forall readFile path_resolve path_resolve2 path_dirname path_relative createSourceFile
          (projectRoot : string) (symbolFiles : list string),
     (forall f c, names_ok (createSourceFile f c) = true) ->
     let g := buildCompleteGraph readFile path_resolve path_resolve2 path_dirname path_relative
                createSourceFile projectRoot symbolFiles in
     forall e, In e (edges g) -> etype e = Ecalls ->
       exists F, forall n, In n (nodes g) -> (id n = source e \/ id n = target e) ->
                 path n = Some F) /\
  (map (fun c => (callerFunction c, calleeName c)) (pr_calls (parseFileComplete "a.ts" a_ast))
     = [(Some "main", "helper")] /\
   has_edge ex_graph "function:a.ts:main" "function:b.ts:helper" Ecalls = false /\
   has_edge ex_graph "function:b.ts:helper" "function:b.ts:fmt" Ecalls = true).
Proof.
  split; [exact findCallTarget_eq|split].
  - intros rf pr pr2 pd prel csf root files Hwf.
    exact (buildCompleteGraph_calls_same_file rf pr pr2 pd prel csf root files Hwf).
  - vm_compute. repeat split.
Qed.

(** Witness of C8: its hypothesis holds for the parser of [GraphExample]. *)
Lemma C8_call_resolution_same_file_witness :
  (forall f c, names_ok (ex_createSourceFile f c) = true) /\
  (forall e, In e (edges ex_graph) -> etype e = Ecalls ->
     exists F, forall n, In n (nodes ex_graph) -> (id n = source e \/ id n = target e) ->
               path n = Some F).
Proof.
  split.
  - intros f c. unfold ex_createSourceFile.
    destruct (String.eqb c a_src); [vm_compute; reflexivity|].
    destruct (String.eqb c b_src); vm_compute; reflexivity.
  - exact (proj1 (proj2 C8_call_resolution_same_file)
             ex_readFile ex_resolve ex_resolve2 ex_dirname ex_relative ex_createSourceFile
             "" ["a.ts"; "b.ts"] ex_createSourceFile_names).
Defined.

(** C9 (counterexample) — A variable initialised with a [function] expression
    has a function-literal initializer, yet the extractor records it with kind
    [variable]: only [ts.isArrowFunction] initializers give kind [function]. *)
Lemma C9_function_expression_is_variable :
  let init := Some (FunctionExpression None []) in
  is_function_literal init = true /\
  map sym_kind
    (pr_symbols (parseFileComplete "a.ts"
       (OtherNode [VariableStatement false [VariableDeclaration (Some "f") init]])))
  = [SKvariable].
Proof. vm_compute. split; reflexivity. Qed.

(** C9 (amended) — Visiting a variable statement first adds, in order, one
    symbol per declaration named by an identifier, with the statement's export
    flag, and with kind [function] exactly when the initializer is an arrow
    function ([function] expressions and all other initializers give kind
    [variable]); symbols of nested declarations come after them. *)
Theorem C9_variable_kind_arrow_only (filePath : string) (ex : bool) (ds : list TsNode)
  (st : PState) :
  exists rest,
    symbols (visit filePath (VariableStatement ex ds) st) =
    (symbols st ++
     map (fun d => mkSymbol (fst d)
                     (match snd d with
                      | Some (ArrowFunction _) => SKfunction
                      | _ => SKvariable
                      end) filePath ex)
         (named_decls ds) ++ rest)%list.
Proof.
  set (st1 := var_decls filePath ex ds st).
  assert (Hv : visit filePath (VariableStatement ex ds) st =
               with_current (fold_left (fun s c => visit filePath c s) ds st1)
                            (currentFunction st)) by reflexivity.
  destruct (fold_prefix (fun s c => visit filePath c s) ds
              (fun c _ s => visit_prefix filePath c s) st1) as [rest Hrest].
  exists rest. rewrite Hv. simpl. rewrite Hrest. unfold st1.
  rewrite var_decls_symbols, <- app_assoc. do 2 f_equal.
  apply map_ext. intros [v [[]|]]; reflexivity.
Qed.

(** C3 (counterexample) — For [k = -1] the fallback is not a [k]-best query:
    [rag.search(q, -3)] keeps [slice(0, -3)] of the four ranked records, one
    record, and [slice(0, -1)] of it leaves none; the direct query
    [slice(0, -1)] returns three records. *)
Lemma C3_negative_k_fallback :
  option_map (@length _)
    (snd (Hybrid.search no_code_block Vectors.Document Vectors.doc_text unit ex_rag_search
            None "q" (-1) tt)) = Some 0%nat /\
  option_map (@length _) (snd (Vectors.search unit ex_embed ex_records "q" (-1) tt)) = Some 3%nat.
Proof.
  unfold Hybrid.search, ex_rag_search, Vectors.search. cbn [ex_embed map].
  destruct (Vectors.query_some ex_records [1%R] (-1 * 3)) as [sc [Hl Hq]].
  destruct (Vectors.query_some ex_records [1%R] (-1)) as [sc' [Hl' Hq']].
  rewrite Hq, Hq'. cbn [option_map snd]. split; f_equal.
  - rewrite JsArray.slice0_length, length_map, length_map, JsArray.slice0_length,
      Vectors.sort_desc_length, Hl. reflexivity.
  - rewrite length_map, length_map, JsArray.slice0_length, Vectors.sort_desc_length, Hl'.
    reflexivity.
Qed.

(** C3 (amended) — For every [k >= 0], if no graph is attached or the
    attached graph has no node, [HybridRetriever.search(q, k)] returns the
    same documents in the same order as the direct query [rag.search(q, k)]
    against the same store and from the same embedder state, and leaves the
    embedder in the same state. *)
Theorem C3_empty_graph_fallback (cbm : string -> option string) (ES : Type)
  (embed : ES -> list string -> ES * list (list R)) (records : list Vectors.VectorRecord)
  (graph : option CodeGraph) (q : string) (k : Z) (es : ES) :
  (0 <= k)%Z ->
  (graph = None \/ exists g, graph = Some g /\ nodes g = []) ->
  Hybrid.search cbm Vectors.Document Vectors.doc_text ES
    (fun q k es => Vectors.search ES embed records q k es) graph q k es =
  Vectors.search ES embed records q k es.
Proof.
  intros Hk Hg. unfold Hybrid.search, Vectors.search.
  destruct (embed es [q]) as [es1 [|qv vs]]; [reflexivity|].
  unfold Vectors.query. destruct (Vectors.all_some _) as [sc|]; [|reflexivity].
  cbn [option_map]. f_equal. f_equal.
  assert (H : JsArray.slice0 (map Vectors.to_document
                (map fst (JsArray.slice0 (Vectors.sort_desc sc) (k * 3)))) k =
              map Vectors.to_document (map fst (JsArray.slice0 (Vectors.sort_desc sc) k))).
  { rewrite !JsArray.slice0_nonneg by lia.
    rewrite !firstn_map, firstn_firstn. do 3 f_equal. lia. }
  destruct Hg as [->|[g [-> Hn]]]; [exact H|]. rewrite Hn. exact H.
Qed.

(** Witness of C3: the four-record store, [k = 2], no graph. *)
Lemma C3_empty_graph_fallback_witness :
  (0 <= 2)%Z /\
  Hybrid.search no_code_block Vectors.Document Vectors.doc_text unit ex_rag_search None "q" 2 tt =
  Vectors.search unit ex_embed ex_records "q" 2 tt.
Proof.
  split; [lia|].
  apply (C3_empty_graph_fallback no_code_block unit ex_embed ex_records None "q" 2 tt);
    [lia|left; reflexivity].
Defined.

(** C4 (counterexample) — Two candidates of the same file [a.ts], which
    imports itself. The claim's relatedCount of the first candidate is 1 (the
    other candidate's file is import-connected to [a.ts]), so its formula gives
    [1 * (1 + 0.4) = 1.4]; the code skips candidates of the candidate's own file
    ([docFileId !== fileId]) and leaves the score at [1]. *)
Lemma C4_same_file_candidate_not_related :
  let docs := ["File: a.ts"; "File: a.ts"] in
  let fp := fun d => file_path_of no_code_block d in
  fp "File: a.ts" = Some "a.ts" /\ file_known self_import_graph "a.ts" = true /\
  claim_related fp self_import_graph docs 0 "a.ts" = 1%nat /\
  Qred (initial_score 0 *
        spec_multiplier self_import_graph "file:a.ts" (claim_related fp self_import_graph docs 0 "a.ts"))
    = (7 # 5)%Q /\
  map (fun x => Qred (snd x))
      (scoreWithGraphBoost no_code_block string (fun d => d) self_import_graph docs)
    = [1; 1 # 2]%Q.
Proof. vm_compute. repeat split. Qed.

(** C4 (amended) — For every candidate of rank [i] (0-based) whose content
    yields a path [p] with a file node [file:p] in the graph, the score
    [scoreWithGraphBoost] gives it is [1/(i+1)] times
    [1 + 0.3 [importedBy > 2] + 0.2 [imports > 3] + 0.4 * relatedCount],
    where [imports] and [importedBy] count the file's outgoing and incoming
    [imports] edges and relatedCount is the number of candidates whose file
    differs from [p] and is directly import-connected to it, in either
    direction. *)
Theorem C4_boost_related_distinct_files (cbm : string -> option string) (Doc : Type)
  (content : Doc -> string) (g : CodeGraph) (docs : list Doc) (i : nat) (d : Doc) (p : string) :
  nth_error docs i = Some d ->
  file_path_of cbm (content d) = Some p ->
  file_known g p = true ->
  exists s, nth_error (scoreWithGraphBoost cbm Doc content g docs) i = Some (d, s) /\
    s == initial_score i *
         spec_multiplier g ("file:" ++ p)
           (distinct_file_related (fun d => file_path_of cbm (content d)) g docs p).
Proof. exact (boost_score_spec cbm Doc content g docs i d p). Qed.

(** Witness of C4: the first candidate of the test graph [mock_graph]. *)
Lemma C4_boost_related_distinct_files_witness :
  (nth_error mock_docs 0 = Some (mock_doc "0") /\
   file_path_of no_code_block (mock_doc "0") = Some "src/file0.ts" /\
   file_known mock_graph "src/file0.ts" = true) /\
  exists s, nth_error (scoreWithGraphBoost no_code_block string (fun d => d) mock_graph mock_docs) 0
              = Some (mock_doc "0", s) /\
    s == initial_score 0 *
         spec_multiplier mock_graph ("file:" ++ "src/file0.ts")
           (distinct_file_related (fun d => file_path_of no_code_block d) mock_graph mock_docs
              "src/file0.ts").
Proof.
  split; [vm_compute; repeat split|].
  apply (C4_boost_related_distinct_files no_code_block string (fun d => d) mock_graph mock_docs 0
           (mock_doc "0") "src/file0.ts"); vm_compute; reflexivity.
Defined.

(** C5 (counterexample) — In the test graph [mock_graph] the import edges are
    the 3-cycle [file0 -> file1 -> file2 -> file0] and every file has
    [importedBy = imports = 1]; yet for the candidates [file0], [file1] the
    scores are [1.4] and [0.7], not the rank scores [1] and [0.5]: each
    candidate's file is import-connected to the other's, which gives the
    relatedCount boost. *)
Lemma C5_cycle_related_boost :
  filter (fun e => EdgeType_eqb (etype e) Eimports) (edges mock_graph) =
    cycle_edges "src/file0.ts" "src/file1.ts" "src/file2.ts" /\
  map (fun x => (importedBy_count mock_graph ("file:" ++ x), imports_count mock_graph ("file:" ++ x)))
      ["src/file0.ts"; "src/file1.ts"; "src/file2.ts"] = [(1, 1); (1, 1); (1, 1)]%nat /\
  map (fun x => Qred (snd x))
      (scoreWithGraphBoost no_code_block string (fun d => d) mock_graph mock_docs)
    = [7 # 5; 7 # 10]%Q /\
  map initial_score [0; 1]%nat = [1; 1 # 2]%Q.
Proof. vm_compute. repeat split. Qed.

(** C5 (amended) — If the [imports] edges of the graph are exactly the 3-cycle
    [A -> B -> C -> A] of three distinct files with file nodes, then every file
    of the cycle has [importedBy = 1] and [imports = 1], so no candidate gets
    the [importedBy > 2] or [imports > 3] boosts; the candidate of rank [i]
    from a file [X] of the cycle scores [1/(i+1) * (1 + 0.4 * r)], where [r]
    is the number of candidates whose file is one of the other two files of
    the cycle. The scores are the rank scores exactly for the candidates with
    [r = 0]. *)
Theorem C5_three_cycle_scores (cbm : string -> option string) (Doc : Type)
  (content : Doc -> string) (g : CodeGraph) (a b c : string) (docs : list Doc) :
  a <> b -> b <> c -> a <> c ->
  Permutation (filter (fun e => EdgeType_eqb (etype e) Eimports) (edges g)) (cycle_edges a b c) ->
  file_known g a = true -> file_known g b = true -> file_known g c = true ->
  (forall x, In x [a; b; c] ->
     importedBy_count g ("file:" ++ x) = 1%nat /\ imports_count g ("file:" ++ x) = 1%nat) /\
  (forall i d x, nth_error docs i = Some d -> file_path_of cbm (content d) = Some x ->
     In x [a; b; c] ->
     exists s, nth_error (scoreWithGraphBoost cbm Doc content g docs) i = Some (d, s) /\
       s == initial_score i *
            (1 + (4 # 10) * inject_Z (Z.of_nat
                   (cycle_related (fun d => file_path_of cbm (content d)) [a; b; c] docs x)))).
Proof.
  intros Hab Hbc Hac Hcyc Ha Hb Hc. split.
  - exact (cycle_counts g a b c Hab Hbc Hac Hcyc).
  - intros i d x Hd Hp Hx.
    assert (Hk : file_known g x = true) by (destruct Hx as [<-|[<-|[<-|[]]]]; assumption).
    destruct (boost_score_spec cbm Doc content g docs i d x Hd Hp Hk) as [s [Hs Heq]].
    exists s. split; [exact Hs|]. rewrite Heq.
    rewrite (cycle_related_eq g a b c Hab Hbc Hac Hcyc _ docs x Hx).
    destruct (cycle_counts g a b c Hab Hbc Hac Hcyc x Hx) as [H1 H2].
    unfold spec_multiplier. rewrite H1, H2.
    change (Nat.ltb 2 1) with false. change (Nat.ltb 3 1) with false. cbv beta iota. ring.
Qed.

(** Witness of C5: the test graph [mock_graph], whose cycle is
    [src/file0.ts -> src/file1.ts -> src/file2.ts]. *)
Lemma C5_three_cycle_scores_witness :
  (forall x, In x ["src/file0.ts"; "src/file1.ts"; "src/file2.ts"] ->
     importedBy_count mock_graph ("file:" ++ x) = 1%nat /\
     imports_count mock_graph ("file:" ++ x) = 1%nat) /\
  (forall i d x, nth_error mock_docs i = Some d -> file_path_of no_code_block d = Some x ->
     In x ["src/file0.ts"; "src/file1.ts"; "src/file2.ts"] ->
     exists s, nth_error (scoreWithGraphBoost no_code_block string (fun d => d) mock_graph mock_docs) i
                 = Some (d, s) /\
       s == initial_score i *
            (1 + (4 # 10) * inject_Z (Z.of_nat
                   (cycle_related (fun d => file_path_of no_code_block d)
                      ["src/file0.ts"; "src/file1.ts"; "src/file2.ts"] mock_docs x)))).
Proof.
  apply (C5_three_cycle_scores no_code_block string (fun d => d) mock_graph
           "src/file0.ts" "src/file1.ts" "src/file2.ts" mock_docs);
    try (vm_compute; reflexivity); discriminate.
Defined.

(** C6 (counterexample) — A cache of capacity 2 and TTL 10: [set a] and
    [set b] at time 0, then [get b] at time 20 finds [b] expired and deletes
    it, so the third insert [set c] at time 20 evicts nothing. The first key
    [a] was never read, yet it stays, and the second inserted key [b] is gone. *)
Lemma C6_expired_get_blocks_eviction :
  JsMap.keys (fold_left (Cache.run_round (Cache.mkConfig 2 10))
                [([], ("a", 1%nat, 0%Z)); ([], ("b", 2%nat, 0%Z)); ([("b", 20%Z)], ("c", 3%nat, 20%Z))]
                []) = ["a"; "c"].
Proof. vm_compute. reflexivity. Qed.

(** C6 (amended) — Take a cache of capacity [n >= 1], starting empty, and
    [n + 1] rounds, each made of [get]s followed by one [set]; the [set]s
    insert [n + 1] distinct keys [k0, k1, ..., kn], [k0] is not the empty
    string, no [get] after the first insert reads [k0], and every operation
    after the first insert happens at a time between the first insert's time
    [t0] and [t0 + ttlMs] (so nothing expires). Then (a) the first [n]
    inserts evict nothing, and (b) the [(n + 1)]-th insert evicts exactly
    [k0]: every other inserted key remains present. In general, (c) [set] at
    capacity with a new key removes the first entry, in insertion order, of
    smallest timestamp (when its key is not the empty string), and (d) a
    successful [get] sets the entry's timestamp to the current time. *)
Theorem C6_lru_first_key_evicted {T : Type} (self : Cache.Config) (n : nat)
  (g0 : list (string * Z)) (k0 : string) (v0 : T) (t0 : Z)
  (rest : list (list (string * Z) * (string * T * Z))) :
  (1 <= n)%nat -> Cache.maxSize self = Z.of_nat n -> length rest = n ->
  NoDup (k0 :: map Cache.set_key rest) -> k0 <> "" ->
  (forall r, In r rest ->
     (forall kt, In kt (fst r) -> fst kt <> k0 /\ (t0 <= snd kt <= t0 + Cache.ttlMs self)%Z) /\
     (t0 <= snd (snd r) <= t0 + Cache.ttlMs self)%Z) ->
  let rounds := (g0, (k0, v0, t0)) :: rest in
  JsMap.keys (fold_left (Cache.run_round self) (removelast rounds) []) =
    k0 :: map Cache.set_key (removelast rest) /\
  JsMap.keys (fold_left (Cache.run_round self) rounds []) = map Cache.set_key rest /\
  (forall (pre post : JsMap.t (Cache.CacheEntry T)) k' e k v now,
     Forall (fun x => (Cache.timestamp e < Cache.timestamp (snd x))%Z) pre ->
     Forall (fun x => (Cache.timestamp e <= Cache.timestamp (snd x))%Z) post ->
     k' <> "" ->
     (Cache.maxSize self <= Z.of_nat (JsMap.size (pre ++ (k', e) :: post)%list))%Z ->
     JsMap.has k (pre ++ (k', e) :: post)%list = false ->
     Cache.set self k v now (pre ++ (k', e) :: post)%list =
     JsMap.set k (Cache.mkEntry k v now 0) (JsMap.delete k' (pre ++ (k', e) :: post)%list)) /\
  (forall k now (m : JsMap.t (Cache.CacheEntry T)) v m',
     Cache.get self k now m = (Some v, m') ->
     exists e, JsMap.get k m' = Some e /\ Cache.timestamp e = now /\ Cache.value e = v).
Proof.
  intros Hn Hmax Hlen Hnd Hk0 Hr. cbv zeta.
  assert (Hne : rest <> []) by (intros ->; simpl in Hlen; lia).
  set (r0 := (g0, (k0, v0, t0))).
  set (L := removelast rest). set (x := last rest r0).
  assert (Hrest : rest = (L ++ [x])%list) by exact (app_removelast_last r0 Hne).
  assert (Hrl : removelast (r0 :: rest) = r0 :: L)
    by (unfold L; destruct rest; [contradiction|reflexivity]).
  assert (HL : length L = Nat.pred n).
  { rewrite <- Hlen, Hrest, length_app. cbn [length]. lia. }
  assert (H0 : Cache.run_round self [] r0 = [(k0, Cache.mkEntry k0 v0 t0 0)]).
  { unfold Cache.run_round, r0. cbn [fst snd]. rewrite Cache.gets_empty.
    unfold Cache.set. rewrite Hmax. cbn [JsMap.size length JsMap.has JsMap.get negb].
    destruct (Z.leb_spec (Z.of_nat n) (Z.of_nat 0)); [lia|reflexivity]. }
  assert (Hinv0 : Cache.TraceInv self k0 v0 t0 [(k0, Cache.mkEntry k0 v0 t0 0)] []).
  { exists []. split; [reflexivity|split; [reflexivity|constructor]]. }
  rewrite Hrest, map_app in Hnd. change (map Cache.set_key [x]) with [Cache.set_key x] in Hnd.
  assert (HrL : forall r, In r L -> Cache.round_ok self k0 t0 r).
  { intros r Hin. apply Hr. rewrite Hrest. apply in_or_app. left. exact Hin. }
  assert (Hx : Cache.round_ok self k0 t0 x).
  { apply Hr. rewrite Hrest. apply in_or_app. right. left. reflexivity. }
  assert (H1 := Cache.rounds_trace_inv self k0 v0 t0 L _ [] Hinv0).
  cbn [app] in H1.
  assert (Hnd1 : NoDup (k0 :: map Cache.set_key L)).
  { apply (NoDup_app_remove_r _ [Cache.set_key x]). rewrite <- app_comm_cons. exact Hnd. }
  specialize (H1 Hnd1 ltac:(rewrite Hmax, HL; cbn [length]; lia) HrL).
  destruct H1 as [post (Hpost & Hkeys & Hw)].
  split; [|split; [|split]].
  - rewrite Hrl. cbn [fold_left]. rewrite H0, Hpost.
    change (JsMap.keys ((k0, Cache.mkEntry k0 v0 t0 0) :: post)) with (k0 :: JsMap.keys post).
    rewrite Hkeys. reflexivity.
  - rewrite Hrest. change (r0 :: L ++ [x])%list with ((r0 :: L) ++ [x])%list.
    rewrite fold_left_app. cbn [fold_left]. rewrite H0.
    destruct x as [gs [[k v] t]] eqn:Ex. destruct Hx as [Hgs Ht]. cbn [fst snd] in Hgs, Ht.
    assert (Hk : k <> k0).
    { intros ->. inversion Hnd as [|? ? Hn' _]. apply Hn'. apply in_or_app. right. left. reflexivity. }
    assert (Hks : ~ In k (map Cache.set_key L)).
    { inversion Hnd as [|? ? _ Hnd']. intros Hin. apply NoDup_remove_2 in Hnd'.
      apply Hnd'. rewrite app_nil_r. exact Hin. }
    unfold Cache.run_round at 1. cbn [fst snd].
    rewrite (Cache.set_evict_trace self k0 v0 t0 k v t _ (map Cache.set_key L) Hk Hks Hk0).
    + rewrite map_app. reflexivity.
    + rewrite length_map, Hmax, HL. lia.
    + apply Cache.gets_trace_inv; [exact Hgs|]. exists post. auto.
  - intros pre post' k' e k v now. exact (Cache.set_at_capacity self pre post' k' e k v now).
  - exact (Cache.get_refresh self).
Qed.

(** Witness of C6: capacity 1, [a] then [b], with a read of an absent key
    between them. *)
Lemma C6_lru_first_key_evicted_witness :
  NoDup ["a"; "b"] /\
  JsMap.keys (fold_left (Cache.run_round (Cache.mkConfig 1 100))
                [([], ("a", 1%nat, 0%Z)); ([("x", 5%Z)], ("b", 2%nat, 5%Z))] []) = ["b"].
Proof.
  split; [repeat constructor; cbn; intuition discriminate|].
  apply (proj1 (proj2 (C6_lru_first_key_evicted (Cache.mkConfig 1 100) 1 [] "a" 1%nat 0%Z
                         [([("x", 5%Z)], ("b", 2%nat, 5%Z))]
                         ltac:(lia) ltac:(reflexivity) ltac:(reflexivity)
                         ltac:(repeat constructor; cbn; intuition discriminate)
                         ltac:(discriminate)
                         ltac:(intros r [<-|[]]; cbn; split;
                               [intros kt [<-|[]]; cbn; split; [discriminate|lia]|lia])))).
Defined.

Section C10F.
Import PrimFloat.

(** C10, counterexample — with binary64 arithmetic the [1e-9] term does
    not keep the result a number: [cosineSim([0], [1e200])] is NaN, since
    [1e200 * 1e200] overflows to Infinity and [0 * Infinity] is NaN; and
    [cosineSim([1e200], [1e200])] is NaN, as Infinity / Infinity. *)
Lemma C10_zero_vector_overflow_nan :
  FloatOps.Prim2SF (VectorsF.cosineSim [0%float] [1e200%float]) = SpecFloat.S754_nan /\
  FloatOps.Prim2SF (VectorsF.cosineSim [1e200%float] [1e200%float]) = SpecFloat.S754_nan.
Proof. split; vm_compute; reflexivity. Qed.

(** C10 — [cosineSim] on binary64 numbers: (a) it reads only indices below
    [min(|a|, |b|)], never an out-of-bounds [undefined]: its value is the
    loop run over the pairs of components [combine a b]; (b) it equals the
    same computation on the first [min(|a|, |b|)] components of each
    vector; (c) it is symmetric; (d) when [a] is all zeros (either sign),
    with [ys] the first [min(|a|, |b|)] components of [b], the result is
    [+0] exactly when every component of [ys] is finite and the binary64
    sum of their squares is not [+Infinity], and NaN otherwise. *)
Theorem C10_cosineSim_reads_and_zero_vectors :
  (forall a b, VectorsF.cosineSim a b =
     VectorsF.cos_of (fold_left VectorsF.pair_step (combine a b) (0, 0, 0)%float)) /\
  (forall a b, let m := Nat.min (length a) (length b) in
     VectorsF.cosineSim a b = VectorsF.cosineSim (firstn m a) (firstn m b)) /\
  (forall a b, VectorsF.cosineSim a b = VectorsF.cosineSim b a) /\
  (forall a b, Forall VectorsF.is_zero a ->
     let ys := firstn (Nat.min (length a) (length b)) b in
     (FloatOps.Prim2SF (VectorsF.cosineSim a b) = SpecFloat.S754_zero false <->
        forallb VectorsF.finite ys = true /\
        FloatOps.Prim2SF (VectorsF.sq_norm ys) <> SpecFloat.S754_infinity false) /\
     (FloatOps.Prim2SF (VectorsF.cosineSim a b) = SpecFloat.S754_zero false \/
      FloatOps.Prim2SF (VectorsF.cosineSim a b) = SpecFloat.S754_nan)).
Proof.
  split; [exact VectorsF.cosineSim_pairs|split; [|split]].
  - intros a b. cbv zeta. rewrite !VectorsF.cosineSim_pairs, VectorsF.combine_firstn_min. reflexivity.
  - exact VectorsF.cosineSim_comm.
  - exact VectorsF.cosineSimF_zero_l.
Qed.

(** Witness of C10: [[0]] against [[3, 4]] gives [+0]. *)
Lemma C10_cosineSim_reads_and_zero_vectors_witness :
  FloatOps.Prim2SF (VectorsF.cosineSim [0%float] [3%float; 4%float]) = SpecFloat.S754_zero false.
Proof.
  apply (proj1 (proj2 (proj2 (proj2 C10_cosineSim_reads_and_zero_vectors)) [0%float] [3%float; 4%float]
                  ltac:(repeat constructor; exists false; vm_compute; reflexivity))).
  vm_compute. split; [reflexivity|discriminate].
Defined.

End C10F.

(** C7, counterexample — [getOrCompute] computes a text again once its
    entry has been evicted (capacity 1: [a], [b], [a] computes [a] twice)
    or has expired (TTL 5: [a] at 0 and at 10); and two texts with the
    same 32-bit hash key, ["Aa"] and ["BB"], share one entry, so the first
    call for ["BB"] computes nothing and returns the vector of ["Aa"]. *)
Lemma C7_evicted_text_recomputed :
  snd (fst (Cache.run_calls (Cache.mkConfig 1 100)
              [("a", 1%nat, 0%Z); ("b", 2%nat, 1%Z); ("a", 3%nat, 2%Z)])) = ["a"; "b"; "a"] /\
  snd (Cache.run_calls (Cache.mkConfig 1 100)
         [("a", 1%nat, 0%Z); ("b", 2%nat, 1%Z); ("a", 3%nat, 2%Z)]) = [1%nat; 2%nat; 3%nat] /\
  snd (fst (Cache.run_calls (Cache.mkConfig 10 5)
              [("a", 1%nat, 0%Z); ("a", 2%nat, 10%Z)])) = ["a"; "a"] /\
  Cache.createKey "Aa" = Cache.createKey "BB" /\
  snd (fst (Cache.run_calls (Cache.mkConfig 10 100)
              [("Aa", 1%nat, 0%Z); ("BB", 2%nat, 1%Z)])) = ["Aa"] /\
  snd (Cache.run_calls (Cache.mkConfig 10 100)
         [("Aa", 1%nat, 0%Z); ("BB", 2%nat, 1%Z)]) = [1%nat; 1%nat].
Proof. repeat split; vm_compute; reflexivity. Qed.

(** C7 (amended) — while the cache has room for every key the calls use
    ([ks] lists them, and [maxSize >= |ks|]) and every call happens within
    one TTL window [[t0, t0 + ttlMs]], a sequence of [getOrCompute] calls
    invokes the compute function exactly once per cache key
    ([createKey text], a 32-bit hash of the text): the computed texts have
    pairwise distinct keys (hence are distinct), their keys are exactly
    the keys of the calls, and every call returns the vector computed by
    the first call whose text has the same key. *)
Theorem C7_compute_once_per_key {V : Type} (self : Cache.Config) (t0 : Z) (ks : list string)
    (calls : list (string * V * Z)) :
  (Z.of_nat (length ks) <= Cache.maxSize self)%Z ->
  (forall c, In c calls ->
     In (Cache.createKey (Cache.text_of c)) ks /\
     (t0 <= Cache.now_of c <= t0 + Cache.ttlMs self)%Z) ->
  let r := Cache.run_calls self calls in
  NoDup (map Cache.createKey (snd (fst r))) /\ NoDup (snd (fst r)) /\
  (forall k, In k (map Cache.createKey (snd (fst r))) <->
             In k (map (fun c => Cache.createKey (Cache.text_of c)) calls)) /\
  Forall2 (fun c v => Cache.first_value calls (Cache.createKey (Cache.text_of c)) = Some v)
          calls (snd r).
Proof.
  intros Hks Hc. cbv zeta.
  pose proof (Cache.run_calls_inv self t0 ks calls Hks Hc) as Hinv.
  destruct (Cache.run_calls self calls) as [[m comp] res].
  destruct Hinv as (Hnd & Hcomp & _ & Hget & Hnone & Hres). cbn [fst snd] in *.
  rewrite Hcomp. split; [exact Hnd|split; [|split; [|exact Hres]]].
  - rewrite <- Hcomp in Hnd. exact (NoDup_map_inv _ _ Hnd).
  - intros k. rewrite <- JsMap.has_In. unfold JsMap.has. split.
    + destruct (JsMap.get k m) as [e|] eqn:E; [|discriminate]. intros _.
      destruct (Hget k e E) as [_ Hf].
      destruct (in_dec String.string_dec k (map (fun c => Cache.createKey (Cache.text_of c)) calls))
        as [Hin|Hnin]; [exact Hin|].
      apply Cache.first_value_None_iff in Hnin. congruence.
    + intros Hin. destruct (JsMap.get k m) eqn:E; [reflexivity|].
      apply Hnone, Cache.first_value_None_iff in E. contradiction.
Qed.

(** Witness of C7: room for two keys, [a], [b], [a] within one window. *)
Lemma C7_compute_once_per_key_witness :
  NoDup (snd (fst (Cache.run_calls (Cache.mkConfig 2 100)
                     [("a", 1%nat, 0%Z); ("b", 2%nat, 1%Z); ("a", 3%nat, 2%Z)]))).
Proof.
  apply (proj1 (proj2 (C7_compute_once_per_key (Cache.mkConfig 2 100) 0
                         [Cache.createKey "a"; Cache.createKey "b"]
                         [("a", 1%nat, 0%Z); ("b", 2%nat, 1%Z); ("a", 3%nat, 2%Z)]
                         ltac:(cbn; lia)
                         ltac:(intros c [<-|[<-|[<-|[]]]]; cbn [Cache.text_of Cache.now_of Cache.ttlMs fst snd];
                               (split; [cbn [In]; tauto|lia]))))).
Defined.

End Claims.

(** ** Further properties of the code *)
Module Extras.
Import Graph.

(** X1 — A [get] of the key just [set] returns the value stored, as long as
    it comes at most [ttlMs] after the [set], whatever eviction the [set]
    did. *)
Theorem X1_get_after_set {T : Type} (self : Cache.Config) (k : string) (v : T) (now now' : Z)
  (m : JsMap.t (Cache.CacheEntry T)) :
  (now' - now <= Cache.ttlMs self)%Z ->
  fst (Cache.get self k now' (Cache.set self k v now m)) = Some v.
Proof.
  intros Ht. unfold Cache.get, Cache.set.
  rewrite JsMap.get_set, String.eqb_refl. cbn [Cache.timestamp Cache.value].
  destruct (Z.ltb_spec (Cache.ttlMs self) (now' - now)); [lia|reflexivity].
Qed.

Lemma X1_get_after_set_witness :
  fst (Cache.get (Cache.mkConfig 1 100) "b" 60
         (Cache.set (Cache.mkConfig 1 100) "b" 2%nat 0 [("a", Cache.mkEntry "a" 1%nat 0 0)]))
  = Some 2%nat.
Proof. apply X1_get_after_set. cbn. lia. Defined.

(** X2 — [set] on a key already present evicts nothing: it replaces that
    key's entry in place (new value, timestamp [now], access count [0]) and
    leaves the keys and their order unchanged, even at capacity. *)
Theorem X2_set_present_in_place {T : Type} (self : Cache.Config) (k : string) (v : T) (now : Z)
  (m : JsMap.t (Cache.CacheEntry T)) :
  JsMap.has k m = true ->
  Cache.set self k v now m = JsMap.set k (Cache.mkEntry k v now 0) m /\
  JsMap.keys (Cache.set self k v now m) = JsMap.keys m.
Proof.
  intros Hh. unfold Cache.set. rewrite Hh. cbn [negb]. rewrite andb_false_r.
  split; [reflexivity|]. rewrite JsMap.keys_set, Hh. reflexivity.
Qed.

Lemma X2_set_present_in_place_witness :
  JsMap.keys (Cache.set (Cache.mkConfig 1 100) "a" 2%nat 5 [("a", Cache.mkEntry "a" 1%nat 0 0)])
  = ["a"].
Proof. apply (X2_set_present_in_place (Cache.mkConfig 1 100) "a" 2%nat 5). reflexivity. Defined.

(** X3 — Starting from an empty cache with [maxSize >= 1], any sequence of
    [get]s and [set]s whose [set] keys are non-empty strings keeps the
    cache within [maxSize] entries (and its keys distinct). *)
Theorem X3_size_bounded {T : Type} (self : Cache.Config)
  (rounds : list (list (string * Z) * (string * T * Z))) :
  (1 <= Cache.maxSize self)%Z ->
  (forall r, In r rounds -> Cache.set_key r <> "") ->
  NoDup (JsMap.keys (fold_left (Cache.run_round self) rounds [])) /\
  (Z.of_nat (JsMap.size (fold_left (Cache.run_round self) rounds [])) <= Cache.maxSize self)%Z.
Proof.
  intros Hmax Hk.
  destruct (Cache.rounds_SizeInv self rounds [] Hmax Hk) as (Hnd & _ & Hs).
  - split; [constructor|split; [intros []|cbn; lia]].
  - split; assumption.
Qed.

Lemma X3_size_bounded_witness :
  JsMap.size (fold_left (Cache.run_round (Cache.mkConfig 2 100))
                [([], ("a", 1%nat, 0%Z)); ([("a", 1%Z)], ("b", 2%nat, 2%Z));
                 ([], ("c", 3%nat, 3%Z))] []) = 2%nat.
Proof.
  pose proof (proj2 (X3_size_bounded (Cache.mkConfig 2 100)
                       [([], ("a", 1%nat, 0%Z)); ([("a", 1%Z)], ("b", 2%nat, 2%Z));
                        ([], ("c", 3%nat, 3%Z))]
                       ltac:(cbn; lia)
                       ltac:(intros r [<-|[<-|[<-|[]]]]; discriminate))) as H.
  vm_compute. reflexivity.
Defined.

(** X4 — The entry under the empty key is never evicted ([if (oldestKey)]
    is false for [""]): (a) [set] keeps the key [""] whenever it is present;
    (b) when [""] is the oldest entry, [set] of a new key evicts nothing and
    adds the key, so the cache grows past [maxSize]. *)
Theorem X4_empty_key_never_evicted {T : Type} :
  (forall (self : Cache.Config) k (v : T) now (m : JsMap.t (Cache.CacheEntry T)),
     In "" (JsMap.keys m) -> In "" (JsMap.keys (Cache.set self k v now m))) /\
  (forall (self : Cache.Config) k (v : T) now (m : JsMap.t (Cache.CacheEntry T)),
     snd (Cache.oldest m) = Some "" -> JsMap.has k m = false ->
     JsMap.keys (Cache.set self k v now m) = (JsMap.keys m ++ [k])%list).
Proof.
  split.
  - intros self k v now m Hin. unfold Cache.set.
    assert (H1 : In "" (JsMap.keys (if (Cache.maxSize self <=? Z.of_nat (JsMap.size m))%Z &&
                                       negb (JsMap.has k m) then Cache.evictLRU m else m))).
    { destruct (_ && _); [|exact Hin]. unfold Cache.evictLRU.
      destruct (snd (Cache.oldest m)) as [k'|]; [|exact Hin].
      destruct (String.eqb_spec k' ""); [exact Hin|].
      apply Cache.keys_delete_other; [congruence|exact Hin]. }
    rewrite JsMap.keys_set.
    destruct (JsMap.has k (if (_ && _) then _ else _)); [exact H1|].
    apply in_or_app. left. exact H1.
  - intros self k v now m Ho Hh. unfold Cache.set, Cache.evictLRU. rewrite Ho.
    cbn [String.eqb]. rewrite Hh. cbn [negb].
    replace (if (_ && true) then m else m) with m by (destruct (_ && _); reflexivity).
    rewrite JsMap.keys_set, Hh. reflexivity.
Qed.

Lemma X4_empty_key_never_evicted_witness :
  JsMap.keys (Cache.set (Cache.mkConfig 1 100) "a" 2%nat 1
                (Cache.set (Cache.mkConfig 1 100) "" 1%nat 0 [])) = [""; "a"].
Proof. apply (proj2 X4_empty_key_never_evicted); reflexivity. Defined.

(** X5 — [has(key)] answers as [get(key)] would (false for a missing or
    expired key, and it deletes an expired entry as [get] does), but it
    never refreshes a live entry: when it answers true the cache is left
    unchanged (same timestamp, same access count). *)
Theorem X5_has_no_refresh {T : Type} (self : Cache.Config) (k : string) (now : Z)
  (m : JsMap.t (Cache.CacheEntry T)) :
  fst (Cache.has self k now m) =
    match fst (Cache.get self k now m) with Some _ => true | None => false end /\
  snd (Cache.has self k now m) =
    (if fst (Cache.has self k now m) then m else snd (Cache.get self k now m)).
Proof.
  unfold Cache.has, Cache.get.
  destruct (JsMap.get k m) as [e|]; [destruct (_ <? _)%Z|]; split; reflexivity.
Qed.

(** X6 — [save] then [load] is the identity on a cache whose entries are
    all younger than [ttlMs] at load time: loading the saved entries into an
    empty cache rebuilds the same map, in the same order (for a map built by
    [set] and [get], whose entries carry their own key). *)
Theorem X6_save_load_roundtrip {T : Type} (self : Cache.Config) (now : Z)
  (m : JsMap.t (Cache.CacheEntry T)) :
  NoDup (JsMap.keys m) ->
  Forall (fun x => Cache.key (snd x) = fst x) m ->
  Forall (fun x => (now - Cache.timestamp (snd x) < Cache.ttlMs self)%Z) m ->
  Cache.load self now (Cache.save m) [] = m.
Proof.
  intros Hnd Hk Hf. unfold Cache.save. exact (Cache.load_values self now m [] Hnd Hk Hf).
Qed.

Lemma X6_save_load_roundtrip_witness :
  let m := Cache.set (Cache.mkConfig 5 100) "b" 2%nat 10
             (Cache.set (Cache.mkConfig 5 100) "a" 1%nat 0 []) in
  Cache.load (Cache.mkConfig 5 100) 50 (Cache.save m) [] = m.
Proof.
  apply X6_save_load_roundtrip.
  - vm_compute. repeat constructor; cbn; intuition discriminate.
  - vm_compute. repeat constructor.
  - vm_compute. repeat constructor.
Defined.

(** X7 — [load] into an empty cache keeps only entries strictly younger
    than [ttlMs] ([now - timestamp < ttlMs]); every entry it loads was in
    the file, and a [get] at load time returns its value. *)
Theorem X7_load_keeps_fresh {T : Type} (self : Cache.Config) (now : Z)
  (entries : list (Cache.CacheEntry T)) (k : string) (e : Cache.CacheEntry T) :
  JsMap.get k (Cache.load self now entries []) = Some e ->
  In e entries /\ (now - Cache.timestamp e < Cache.ttlMs self)%Z /\
  fst (Cache.get self k now (Cache.load self now entries [])) = Some (Cache.value e).
Proof.
  intros He. destruct (Cache.load_get self now entries [] k e He) as [H|[Hin Hf]];
    [discriminate|].
  split; [exact Hin|split; [exact Hf|]].
  unfold Cache.get. rewrite He.
  destruct (Z.ltb_spec (Cache.ttlMs self) (now - Cache.timestamp e)); [lia|reflexivity].
Qed.

Lemma X7_load_keeps_fresh_witness :
  let entries := [Cache.mkEntry "a" 1%nat 0 0; Cache.mkEntry "b" 2%nat 50 0] in
  In (Cache.mkEntry "b" 2%nat 50 0) entries.
Proof.
  cbv zeta.
  apply (X7_load_keeps_fresh (Cache.mkConfig 5 100) 120
           [Cache.mkEntry "a" 1%nat 0 0; Cache.mkEntry "b" 2%nat 50 0] "b").
  vm_compute. reflexivity.
Defined.

(** X8 — For every pattern and every [lastIndex] it starts with,
    [invalidatePattern(pattern)] deletes only entries whose key the pattern
    matches at some index, keeps the other entries in their order, and
    returns the number of entries it deleted. For a pattern with neither
    the [g] nor the [y] flag, it deletes exactly the entries whose key the
    pattern matches and leaves [lastIndex] as it was. *)
Theorem X8_invalidatePattern_removes_matching {T : Type} (re : Cache.RegExp) (li : nat)
  (m : JsMap.t (Cache.CacheEntry T)) :
  NoDup (JsMap.keys m) ->
  let '(count, m', li') := Cache.invalidatePattern re li m in
  (exists keep, m' = filter keep m) /\
  count = (length m - length m')%nat /\
  (forall kv, In kv m -> ~ In kv m' -> exists j e, Cache.matchAt re (fst kv) j = Some e) /\
  (Cache.global re = false -> Cache.sticky re = false ->
     m' = filter (fun kv => negb (Cache.matches re (fst kv))) m /\
     count = length (filter (Cache.matches re) (JsMap.keys m)) /\ li' = li).
Proof.
  intros Hnd. rewrite (Cache.invalidatePattern_spec re li m Hnd). cbv beta iota.
  pose proof (Cache.run_tests_length re li (JsMap.keys m)) as Hlen.
  unfold JsMap.keys at 2 in Hlen. rewrite length_map in Hlen.
  split; [|split; [|split]].
  - eexists. exact (Cache.drop_marked_filter _ m Hnd).
  - pose proof (Cache.drop_marked_length _ m Hlen) as HL. lia.
  - intros kv Hin Hout. exact (Cache.run_tests_dropped re m li kv Hin Hout).
  - intros Hg Hs. rewrite (Cache.run_tests_unflagged re li _ Hg Hs). cbn [fst snd].
    rewrite Cache.drop_marked_map, Cache.filter_id_map. auto.
Qed.

Lemma X8_invalidatePattern_removes_matching_witness :
  let re := Cache.mkRegExp false false
              (fun s i => if (Nat.eqb i 0 && String.prefix "emb_" s)%bool then Some 4%nat else None) in
  let m := [("emb_1", Cache.mkEntry "emb_1" 1%nat 0 0); ("graph_x", Cache.mkEntry "graph_x" 2%nat 0 0);
            ("emb_2", Cache.mkEntry "emb_2" 3%nat 0 0)] in
  Cache.invalidatePattern re 0 m = (2%nat, [("graph_x", Cache.mkEntry "graph_x" 2%nat 0 0)], 0%nat).
Proof.
  cbv zeta.
  pose proof (X8_invalidatePattern_removes_matching
    (Cache.mkRegExp false false
       (fun s i => if (Nat.eqb i 0 && String.prefix "emb_" s)%bool then Some 4%nat else None)) 0%nat
    [("emb_1", Cache.mkEntry "emb_1" 1%nat 0 0); ("graph_x", Cache.mkEntry "graph_x" 2%nat 0 0);
     ("emb_2", Cache.mkEntry "emb_2" 3%nat 0 0)]
    ltac:(cbn; repeat constructor; cbn; intuition discriminate)) as H.
  vm_compute. reflexivity.
Defined.

(** X9 — After [upsertMany(batch)], looking a record up by id finds the
    last record of the batch with that id, or else the record the store held
    before. *)
Theorem X9_upsertMany_lookup (records batch : list Vectors.VectorRecord) (i : string) :
  find (fun r => String.eqb (Vectors.rec_id r) i) (Vectors.upsertMany records batch) =
  match find (fun r => String.eqb (Vectors.rec_id r) i) (rev batch) with
  | Some r => Some r
  | None => find (fun r => String.eqb (Vectors.rec_id r) i) records
  end.
Proof. apply Vectors.upsertMany_find. Qed.

(** X10 — [upsertMany] keeps the ids of the store distinct, and it never
    reorders or drops records: the ids before the call are a prefix of the
    ids after it, new ids being appended. *)
Theorem X10_upsertMany_ids (records batch : list Vectors.VectorRecord) :
  NoDup (map Vectors.rec_id records) ->
  NoDup (map Vectors.rec_id (Vectors.upsertMany records batch)) /\
  exists added, map Vectors.rec_id (Vectors.upsertMany records batch) =
                (map Vectors.rec_id records ++ added)%list.
Proof. apply Vectors.upsertMany_ids. Qed.

Lemma X10_upsertMany_ids_witness :
  NoDup (map Vectors.rec_id
    (Vectors.upsertMany [Vectors.mkRecord "a" "x" [1%R]]
       [Vectors.mkRecord "b" "y" [0%R]; Vectors.mkRecord "a" "z" [2%R];
        Vectors.mkRecord "b" "w" [3%R]])).
Proof.
  apply (X10_upsertMany_ids [Vectors.mkRecord "a" "x" [1%R]]
           [Vectors.mkRecord "b" "y" [0%R]; Vectors.mkRecord "a" "z" [2%R];
            Vectors.mkRecord "b" "w" [3%R]]).
  repeat constructor. intros [].
Defined.

(** X12 — [cosineSim] is symmetric in its two arguments, also when their
    lengths differ. *)
Theorem X12_cosineSim_symmetric (a b : list R) :
  Vectors.cosineSim a b = Vectors.cosineSim b a.
Proof.
  unfold Vectors.cosineSim. cbv zeta.
  rewrite (Vectors.cos_step_swap a b), Nat.min_comm.
  destruct (fold_left (Vectors.cos_step b a) _ _) as [[[d x] y]|]; cbn; [|reflexivity].
  rewrite (Rmult_comm (sqrt y)). reflexivity.
Qed.

(** X14 — [scoreWithGraphBoost] keeps the documents in their order, and
    it never lowers a score: the document at index [i] ends with a score at
    least its initial [1 / (i + 1)], which is positive. *)
Theorem X14_scoreWithGraphBoost_never_lowers (codeBlockMatch : string -> option string)
  (Doc : Type) (content : Doc -> string) (g : CodeGraph) (docs : list Doc) :
  map fst (Hybrid.scoreWithGraphBoost codeBlockMatch Doc content g docs) = docs /\
  forall i d s, nth_error (Hybrid.scoreWithGraphBoost codeBlockMatch Doc content g docs) i = Some (d, s) ->
    (Hybrid.initial_score i <= s)%Q /\ (0 < s)%Q.
Proof.
  split; [apply Hybrid.scoreWithGraphBoost_fst|].
  intros i d s H. rewrite Hybrid.scoreWithGraphBoost_nth in H.
  destruct (nth_error docs i) as [d'|]; [|discriminate]. injection H as <- <-.
  pose proof (Hybrid.boosted_score_ge codeBlockMatch Doc content g
                (Hybrid.buildFileConnectionMap g) docs i d') as Hge.
  split; [exact Hge|].
  exact (Qlt_le_trans _ _ _ (Hybrid.initial_score_pos i) Hge).
Qed.

(** X15 — A document whose extracted path names no [file] node of the
    graph (or that has no path) keeps exactly its initial score
    [1 / (i + 1)]. *)
Theorem X15_no_file_node_no_boost (codeBlockMatch : string -> option string)
  (Doc : Type) (content : Doc -> string) (g : CodeGraph) (docs : list Doc) (i : nat) (d : Doc) :
  nth_error docs i = Some d ->
  (forall p, Hybrid.file_path_of codeBlockMatch (content d) = Some p ->
     existsb (fun n => String.eqb (ntype n) "file" && String.eqb (id n) ("file:" ++ p)) (nodes g)
     = false) ->
  nth_error (Hybrid.scoreWithGraphBoost codeBlockMatch Doc content g docs) i =
  Some (d, Hybrid.initial_score i).
Proof.
  intros Hd Hp. rewrite Hybrid.scoreWithGraphBoost_nth, Hd. cbn [option_map].
  unfold Hybrid.boosted_score.
  destruct (Hybrid.file_path_of codeBlockMatch (content d)) as [p|] eqn:Ep; [|reflexivity].
  rewrite Hybrid.buildFileConnectionMap_get, (Hp p eq_refl). reflexivity.
Qed.

Lemma X15_no_file_node_no_boost_witness :
  nth_error (Hybrid.scoreWithGraphBoost (fun _ => None) string (fun s => s)
               (mkGraph [mkNode "file:a.ts" "a.ts" "file" (Some "a.ts") None] [])
               ["File: a.ts"; "File: b.ts"]) 1 =
  Some ("File: b.ts", Hybrid.initial_score 1).
Proof.
  apply X15_no_file_node_no_boost; [reflexivity|].
  intros p Hp. vm_compute in Hp. injection Hp as <-. reflexivity.
Defined.

(** X16 — With a non-empty graph and [k >= 0], [search] returns the
    [min(k, n)] documents of highest boosted score among the [n] results the
    RAG engine gave for [k * 3], best first: no document left out has a
    higher boosted score than one returned. *)
Theorem X16_search_top_k (codeBlockMatch : string -> option string) (Doc : Type)
  (content : Doc -> string) (ES : Type) (rag_search : string -> Z -> ES -> ES * option (list Doc))
  (g : CodeGraph) (q : string) (k : Z) (es es' : ES) (init : list Doc) :
  (0 <= k)%Z -> nodes g <> [] -> rag_search q (k * 3)%Z es = (es', Some init) ->
  exists ranked rest,
    Hybrid.search codeBlockMatch Doc content ES rag_search (Some g) q k es = (es', Some (map fst ranked)) /\
    length ranked = Nat.min (Z.to_nat k) (length init) /\
    Permutation (Hybrid.scoreWithGraphBoost codeBlockMatch Doc content g init) (ranked ++ rest)%list /\
    Sorted (fun p r => (snd r <= snd p)%Q) ranked /\
    (forall p r, In p ranked -> In r rest -> (snd r <= snd p)%Q).
Proof.
  intros Hk Hn Hr. unfold Hybrid.search. rewrite Hr. cbn [option_map].
  destruct (nodes g) as [|n0 ns] eqn:En; [contradiction|].
  set (scored := Hybrid.scoreWithGraphBoost codeBlockMatch Doc content g init).
  set (sorted := Hybrid.sort_desc Doc scored).
  pose proof (Hybrid.qsort_desc_perm Doc scored) as Hperm. fold sorted in Hperm.
  pose proof (Hybrid.qscore_strongly Doc _ (Hybrid.qsort_desc_sorted Doc scored)) as Hss.
  fold sorted in Hss.
  rewrite <- (firstn_skipn (Z.to_nat k) sorted) in Hss.
  apply Vectors.strongly_app in Hss as [Hs1 Hs2].
  exists (firstn (Z.to_nat k) sorted), (skipn (Z.to_nat k) sorted).
  split; [|split; [|split; [|split]]].
  - rewrite JsArray.slice0_nonneg by exact Hk. reflexivity.
  - rewrite length_firstn, (Permutation_length Hperm).
    unfold scored. rewrite <- (length_map fst), Hybrid.scoreWithGraphBoost_fst. reflexivity.
  - rewrite firstn_skipn. apply Permutation_sym, Hperm.
  - exact (StronglySorted_Sorted Hs1).
  - intros p r Hp Hr'. exact (Hs2 p r Hp Hr').
Qed.

Lemma X16_search_top_k_witness :
  exists (ranked : list (string * Q)) rest,
    Hybrid.search (fun _ => None) string (fun s => s) unit
      (fun _ _ es => (es, Some ["File: a.ts"; "File: b.ts"]))
      (Some (mkGraph [mkNode "file:a.ts" "a.ts" "file" (Some "a.ts") None] [])) "x" 1 tt =
    (tt, Some (map fst ranked)) /\ length ranked = 1%nat /\
    Permutation (Hybrid.scoreWithGraphBoost (fun _ => None) string (fun s => s)
                   (mkGraph [mkNode "file:a.ts" "a.ts" "file" (Some "a.ts") None] [])
                   ["File: a.ts"; "File: b.ts"]) (ranked ++ rest)%list.
Proof.
  destruct (X16_search_top_k (fun _ => None) string (fun s => s) unit
              (fun _ _ es => (es, Some ["File: a.ts"; "File: b.ts"]))
              (mkGraph [mkNode "file:a.ts" "a.ts" "file" (Some "a.ts") None] []) "x" 1 tt tt
              ["File: a.ts"; "File: b.ts"] ltac:(lia) ltac:(discriminate) eq_refl)
    as (ranked & rest & H1 & H2 & H3 & _).
  exists ranked, rest. split; [exact H1|split; [exact H2|exact H3]].
Defined.

(** X17 — A content whose first line is [File: <path>] (the path starting
    with a non-blank character and holding no line break) gets the trimmed
    path as its file path, whatever follows the line. *)
Theorem X17_extractFilePath_header (codeBlockMatch : string -> option string)
  (c : ascii) (p rest : string) :
  Hybrid.is_ws c = false ->
  forallb (fun x => negb (Hybrid.is_line_terminator x)) (list_ascii_of_string (String c p)) = true ->
  Hybrid.extractFilePath codeBlockMatch ("File: " ++ String c p ++ String (ascii_of_nat 10) rest) =
  Some (Hybrid.trim (String c p)).
Proof.
  intros Hc Hp. unfold Hybrid.extractFilePath. rewrite (Hybrid.file_match_header c p rest Hc Hp).
  reflexivity.
Qed.

Lemma X17_extractFilePath_header_witness :
  Hybrid.extractFilePath (fun _ => None)
    ("File: " ++ String "s" "rc/a.ts " ++ String (ascii_of_nat 10) "export const x = 1;") =
  Some "src/a.ts".
Proof.
  rewrite (X17_extractFilePath_header (fun _ => None) "s" "rc/a.ts " "export const x = 1;"
             eq_refl eq_refl).
  vm_compute. reflexivity.
Defined.

(** X18 — [buildFileConnectionMap] has an entry exactly for the ids of the
    graph's [file] nodes; the entry of [k] counts the [imports] edges from
    and to [k] and the [calls] edges from and to [k] ([contains] edges are
    not counted). *)
Theorem X18_buildFileConnectionMap_counts (g : CodeGraph) (k : string) :
  JsMap.get k (Hybrid.buildFileConnectionMap g) =
  if existsb (fun n => String.eqb (ntype n) "file" && String.eqb (id n) k) (nodes g)
  then Some (Hybrid.mkConn
               (length (filter (fun e => EdgeType_eqb (etype e) Eimports && String.eqb (source e) k) (edges g)))
               (length (filter (fun e => EdgeType_eqb (etype e) Eimports && String.eqb (target e) k) (edges g)))
               (length (filter (fun e => EdgeType_eqb (etype e) Ecalls && String.eqb (source e) k) (edges g)))
               (length (filter (fun e => EdgeType_eqb (etype e) Ecalls && String.eqb (target e) k) (edges g))))
  else None.
Proof. rewrite Hybrid.buildFileConnectionMap_get. destruct (existsb _ _); reflexivity. Qed.

(** X19 — [countRelatedDocuments(fileId, docs)] counts the documents whose
    file id is not [fileId] itself and is joined to [fileId] by an
    [imports] edge in either direction; the connection map it is passed is
    not used. *)
Theorem X19_countRelatedDocuments_linked (codeBlockMatch : string -> option string)
  (Doc : Type) (content : Doc -> string) (g : CodeGraph) (fileId : string) (sd : list (Doc * Q)) :
  Hybrid.countRelatedDocuments codeBlockMatch Doc content g fileId sd =
  length (filter (fun d =>
    match Hybrid.file_path_of codeBlockMatch (content (fst d)) with
    | Some p =>
        negb (String.eqb ("file:" ++ p) fileId) &&
        existsb (fun e => EdgeType_eqb (etype e) Eimports &&
                          ((String.eqb (source e) fileId && String.eqb (target e) ("file:" ++ p)) ||
                           (String.eqb (target e) fileId && String.eqb (source e) ("file:" ++ p))))
                (edges g)
    | None => false
    end) sd).
Proof.
  unfold Hybrid.countRelatedDocuments. cbv zeta. f_equal. apply filter_ext. intros d.
  destruct (Hybrid.file_path_of codeBlockMatch (content (fst d))); [|reflexivity].
  rewrite Hybrid.connected_ids_spec. reflexivity.
Qed.

(** X20 — After [loadGraph] of a graph built by [buildCompleteGraph], the
    four query methods drop no edge: [getCallersOf(x)] lists the sources of
    the [calls] edges into [x], [getCalleesOf(x)] the targets of the [calls]
    edges out of [x], [getImportsOf(x)] and [getImportersOf(x)] likewise for
    [imports] edges, in edge order, each as a node of the graph. *)
Theorem X20_queries_after_load readFile path_resolve path_resolve2 path_dirname path_relative
  createSourceFile (projectRoot : string) (symbolFiles : list string) (b : Builder) (x : string) :
  let g := buildCompleteGraph readFile path_resolve path_resolve2 path_dirname path_relative
             createSourceFile projectRoot symbolFiles in
  let b' := fst (loadGraph b (Some g)) in
  map id (getCallersOf b' x) =
    map source (filter (fun e => String.eqb (target e) x && EdgeType_eqb (etype e) Ecalls) (edges g)) /\
  map id (getCalleesOf b' x) =
    map target (filter (fun e => String.eqb (source e) x && EdgeType_eqb (etype e) Ecalls) (edges g)) /\
  map id (getImportsOf b' x) =
    map target (filter (fun e => String.eqb (source e) x && EdgeType_eqb (etype e) Eimports) (edges g)) /\
  map id (getImportersOf b' x) =
    map source (filter (fun e => String.eqb (target e) x && EdgeType_eqb (etype e) Eimports) (edges g)).
Proof.
  intros g b'.
  destruct (buildCompleteGraph_wf readFile path_resolve path_resolve2 path_dirname path_relative
              createSourceFile projectRoot symbolFiles) as [_ Hcl].
  fold g in Hcl.
  assert (Hq : forall t sel other, (forall e, other e = source e \/ other e = target e) ->
            map id (edge_query t sel other b' x) =
            map other (filter (fun e => String.eqb (sel e) x && EdgeType_eqb (etype e) t) (edges g))).
  { intros t sel other Ho. apply edge_query_spec. intros e He _ _.
    destruct (loadGraph_ends b g e Hcl He (other e) (Ho e)) as (n & Hn & Hid & _).
    exists n. split; assumption. }
  unfold getCallersOf, getCalleesOf, getImportsOf, getImportersOf.
  repeat split; apply Hq; intros e; auto.
Qed.

(** X21 — In a [parseFileComplete] result, every call attributed to a
    caller names a function symbol of the same result: the caller is always
    a named function declaration (or a variable holding a function) that
    the parser recorded as a [function] symbol. *)
Theorem X21_caller_is_function_symbol (fp : string) (n : TsParser.TsNode)
  (c : TsParser.FunctionCall) (f : string) :
  In c (TsParser.pr_calls (TsParser.parseFileComplete fp n)) ->
  TsParser.callerFunction c = Some f ->
  exists s, In s (TsParser.pr_symbols (TsParser.parseFileComplete fp n)) /\
            TsParser.sym_name s = f /\ TsParser.sym_kind s = TsParser.SKfunction.
Proof. intros Hc Hf. exact (parse_CallsOkPR fp n c Hc f Hf). Qed.

Lemma X21_caller_is_function_symbol_witness :
  exists s, In s (TsParser.pr_symbols (TsParser.parseFileComplete "b.ts" GraphExample.b_ast)) /\
            TsParser.sym_name s = "helper" /\ TsParser.sym_kind s = TsParser.SKfunction.
Proof.
  apply (X21_caller_is_function_symbol "b.ts" GraphExample.b_ast
           (TsParser.mkCall (Some "helper") "fmt" "b.ts") "helper"); [|reflexivity].
  vm_compute. auto 10.
Defined.

(** X22 — The hash [createKey] computes is a 32-bit signed integer, and
    two texts get the same key exactly when their hashes are equal: the
    base-36 rendering with its sign loses nothing. *)
Theorem X22_createKey_same_iff_same_hash (t1 t2 : string) :
  let hash t := fold_left Cache.hash_step (list_ascii_of_string t) 0%Z in
  (- 2 ^ 31 <= hash t1 < 2 ^ 31)%Z /\
  (Cache.createKey t1 = Cache.createKey t2 <-> hash t1 = hash t2).
Proof.
  cbv zeta.
  pose proof (Cache.hash_range (list_ascii_of_string t1) 0 ltac:(lia)) as H1.
  pose proof (Cache.hash_range (list_ascii_of_string t2) 0 ltac:(lia)) as H2.
  split; [exact H1|]. unfold Cache.createKey. split; [|intros ->; reflexivity].
  intros E. apply Graph.app_prefix_inj in E.
  assert (H8 : (2 ^ 31 < 36 ^ 8)%Z) by reflexivity.
  apply Cache.toString36_inj in E; [exact E|lia|lia].
Qed.

(** X23 — Every symbol, import and call in the result of
    [parseFileComplete(filePath, sourceFile)] records [filePath] as its
    [filePath], for every syntax tree. *)
Theorem X23_parse_records_filePath (fp : string) (n : TsParser.TsNode) :
  Forall (fun s => TsParser.sym_filePath s = fp) (TsParser.pr_symbols (TsParser.parseFileComplete fp n)) /\
  Forall (fun i => TsParser.imp_filePath i = fp) (TsParser.pr_imports (TsParser.parseFileComplete fp n)) /\
  Forall (fun c => TsParser.call_filePath c = fp) (TsParser.pr_calls (TsParser.parseFileComplete fp n)).
Proof.
  apply (TsParser.visit_fp fp n). split; [constructor|split; constructor].
Qed.

(** X24 — [Array.from(new Set(files))] in [buildCompleteGraph] keeps each
    file path once: the list it yields has no duplicates and holds exactly
    the paths of the input. *)
Theorem X24_dedup_set (xs : list string) :
  NoDup (dedup xs) /\ forall x, In x (dedup xs) <-> In x xs.
Proof.
  assert (H : forall xs seen,
            NoDup (dedup_aux seen xs) /\
            forall x, In x (dedup_aux seen xs) <-> In x xs /\ ~ In x seen).
  { induction xs0 as [|y ys IH]; intros seen; cbn [dedup_aux].
    - split; [constructor|intros x; split; [intros []|intros [[] _]]].
    - destruct (existsb (String.eqb y) seen) eqn:E.
      + apply existsb_exists in E as (z & Hz & Hyz). apply String.eqb_eq in Hyz. subst z.
        destruct (IH seen) as [Hnd Hin]. split; [exact Hnd|].
        intros x. rewrite Hin. split; [intros [Hx Hs]; split; [right; exact Hx|exact Hs]|].
        intros [[<-|Hx] Hs]; [contradiction|split; assumption].
      + destruct (IH (seen ++ [y])%list) as [Hnd Hin].
        assert (Hy : ~ In y seen).
        { intros Hy. assert (existsb (String.eqb y) seen = true) as E'
            by (apply existsb_exists; exists y; split; [exact Hy|apply String.eqb_refl]).
          congruence. }
        split.
        * constructor; [|exact Hnd]. intros Hy'. apply Hin in Hy' as [_ Hy'].
          apply Hy'. apply in_or_app. right. left. reflexivity.
        * intros x. cbn [In]. rewrite Hin. split.
          -- intros [<-|[Hx Hs]]; [split; [left; reflexivity|exact Hy]|].
             split; [right; exact Hx|]. intros Hx'. apply Hs. apply in_or_app. left. exact Hx'.
          -- intros [[<-|Hx] Hs]; [left; reflexivity|].
             destruct (String.eqb_spec x y) as [->|Hne]; [left; reflexivity|right].
             split; [exact Hx|]. intros Hx'. apply in_app_or in Hx' as [Hx'|[Hx'|[]]];
               [exact (Hs Hx')|exact (Hne (eq_sym Hx'))]. }
  destruct (H xs []) as [Hnd Hin]. unfold dedup. split; [exact Hnd|].
  intros x. rewrite Hin. split; [intros [Hx _]; exact Hx|intros Hx; split; [exact Hx|intros []]].
Qed.

End Extras.
